(** * osm-revert: the command-line pipeline of [app/main.py]

    A shallow embedding of [build_element_ids_dict], [merge_and_sort_diffs],
    [filter_discussion_changesets], [print_warn_elements], [main_timer] and
    [main], and the properties of the specification that concern them.

    Python values are modelled as follows.
    - A [str] is a [string]; each [ascii] stands for the code point of the
      same number, so the model covers the strings whose code points are
      below 256 (ASCII and Latin-1).
    - A [dict] with string keys is a [gmap string _], a [set] of strings a
      [gset string].
    - An [int] is a [Z].
    - A raised exception is a value of [exn]; code that can raise returns
      [exn + A]. *)

From Stdlib Require Import ZArith Lia Ascii String List Sorted Permutation.
From stdpp Require Import base option list functions sorting gmap strings pretty.

Local Open Scope string_scope.
Local Open Scope Z_scope.

(** ** Exceptions *)

Inductive exn : Type :=
| AssertionError (msg : string)
| IndexError
| KeyError
| AttributeError
| ValueError
| Exception (msg : string)
| ServiceError (what : string).

(** ** Python string primitives *)

Module PyStr.

Definition code (c : ascii) : N := N_of_ascii c.

Definition in_range (lo hi : N) (c : ascii) : bool :=
  ((lo <=? code c) && (code c <=? hi))%N.

(** [c.isspace()] for a code point below 256. *)
Definition isspace_char (c : ascii) : bool :=
  in_range 9 13 c || in_range 28 32 c
  || (code c =? 133)%N || (code c =? 160)%N.

(** [c.isdecimal()]: the ten ASCII digits. *)
Definition isdecimal_char (c : ascii) : bool := in_range 48 57 c.

(** [c.isnumeric()]: the digits, the superscripts two, three and one
    (178, 179, 185) and the vulgar fractions (188, 189, 190). *)
Definition isnumeric_char (c : ascii) : bool :=
  isdecimal_char c
  || (code c =? 178)%N || (code c =? 179)%N || (code c =? 185)%N
  || in_range 188 190 c.

(** [c.lower()]: A-Z and the Latin-1 capitals (192-222 but the
    multiplication sign 215) move up by 32. *)
Definition lower_char (c : ascii) : ascii :=
  if in_range 65 90 c || (in_range 192 222 c && negb (code c =? 215)%N)
  then ascii_of_N (code c + 32) else c.

Definition upper_ascii_char (c : ascii) : ascii :=
  if in_range 97 122 c then ascii_of_N (code c - 32) else c.

Fixpoint lower (s : string) : string :=
  match s with
  | EmptyString => EmptyString
  | String c s' => String (lower_char c) (lower s')
  end.

Fixpoint all_chars (p : ascii -> bool) (s : string) : bool :=
  match s with
  | EmptyString => true
  | String c s' => p c && all_chars p s'
  end.

(** [s.isnumeric()]: at least one character and all of them numeric. *)
Definition isnumeric (s : string) : bool :=
  match s with
  | EmptyString => false
  | _ => all_chars isnumeric_char s
  end.

(** Drops the longest prefix whose characters satisfy [p]. *)
Fixpoint lstrip_by (p : ascii -> bool) (s : string) : string :=
  match s with
  | EmptyString => EmptyString
  | String c s' => if p c then lstrip_by p s' else s
  end.

(** Drops the longest suffix whose characters satisfy [p]. *)
Fixpoint rstrip_by (p : ascii -> bool) (s : string) : string :=
  match s with
  | EmptyString => EmptyString
  | String c s' =>
      match rstrip_by p s' with
      | EmptyString => if p c then EmptyString else String c EmptyString
      | r => String c r
      end
  end.

(** [s.lstrip()] and [s.strip()]. *)
Definition lstrip (s : string) : string := lstrip_by isspace_char s.
Definition strip (s : string) : string :=
  rstrip_by isspace_char (lstrip_by isspace_char s).

Fixpoint mem_char (c : ascii) (chars : string) : bool :=
  match chars with
  | EmptyString => false
  | String d chars' => Ascii.eqb c d || mem_char c chars'
  end.

(** [s.lstrip(chars)]. *)
Definition lstrip_chars (chars : string) (s : string) : string :=
  lstrip_by (fun c => mem_char c chars) s.

(** [s.startswith(p)]. *)
Fixpoint startswith (s p : string) : bool :=
  match p, s with
  | EmptyString, _ => true
  | String _ _, EmptyString => false
  | String b p', String a s' => Ascii.eqb a b && startswith s' p'
  end.

(** [s[n:]]. *)
Fixpoint drop (n : nat) (s : string) : string :=
  match n, s with
  | O, _ => s
  | S n', String _ s' => drop n' s'
  | S _, EmptyString => EmptyString
  end.

(** [s.title()] for a word: first letter upper case, the rest lower. *)
Definition title (s : string) : string :=
  match s with
  | EmptyString => EmptyString
  | String c s' => String (upper_ascii_char c) (lower s')
  end.

(** The value of a string of decimal digits, most significant first. *)
Fixpoint digits_value (acc : Z) (s : string) : Z :=
  match s with
  | EmptyString => acc
  | String c s' => digits_value (10 * acc + (Z.of_N (code c) - 48)) s'
  end.

(** [int(s)] where [s] is stripped and [s.isnumeric()] holds, as at both
    call sites of [main]: the conversion succeeds exactly when every
    character is a decimal digit, and raises [ValueError] on the other
    numeric characters. *)
Definition int (s : string) : exn + Z :=
  match s with
  | EmptyString => inl ValueError
  | _ => if all_chars isdecimal_char s then inr (digits_value 0 s)
         else inl ValueError
  end.

End PyStr.

(** ** [build_element_ids_dict] *)

(** [result]: the keys ['include'] and ['exclude'], each mapping the three
    element types to a set of id strings. *)
Definition empty_by_type : gmap string (gset string) :=
  <["node" := ∅]> (<["way" := ∅]> (<["relation" := ∅]> ∅)).

Definition empty_element_ids : gmap string (gmap string (gset string)) :=
  <["include" := empty_by_type]> (<["exclude" := empty_by_type]> ∅).

(** [prefixes], in the insertion order the loops walk it. *)
Definition prefixes : list (string * list string) :=
  [ ("node", ["nodes"; "node"; "n"]);
    ("way", ["ways"; "way"; "w"]);
    ("relation", ["relations"; "relation"; "rel"; "r"]) ].

(** The inner [for prefix in value]: the first prefix the token starts
    with, if any. *)
Fixpoint first_prefix (value : list string) (element_id : string)
  : option string :=
  match value with
  | [] => None
  | prefix :: value' =>
      if PyStr.startswith element_id prefix then Some prefix
      else first_prefix value' element_id
  end.

(** The outer [for element_type, value in prefixes.items()] with its
    [else: continue / break]: the first type one of whose prefixes
    matches, with that prefix. *)
Fixpoint find_prefix (ps : list (string * list string)) (element_id : string)
  : option (string * string) :=
  match ps with
  | [] => None
  | (element_type, value) :: ps' =>
      match first_prefix value element_id with
      | Some prefix => Some (element_type, prefix)
      | None => find_prefix ps' element_id
      end
  end.

(** Lines 40-47: normalisation and the choice of the target dictionary. *)
Definition split_sign (element_id : string) : string * string :=
  let element_id := PyStr.lower (PyStr.strip element_id) in
  if PyStr.startswith element_id "-"
  then ("exclude", PyStr.lstrip (PyStr.lstrip_chars "-" element_id))
  else ("include", PyStr.lstrip (PyStr.lstrip_chars "+" element_id)).

(** [element_result[element_type].add(element_id)] on the dictionary
    stored under [sign]. *)
Definition add_id (sign element_type element_id : string)
    (result : gmap string (gmap string (gset string)))
  : gmap string (gmap string (gset string)) :=
  alter (alter (fun s => {[element_id]} ∪ s) element_type) sign result.

(** Lines 49-64 of one iteration, without the update of the set: the
    element type and the id string the sign-free token stands for, or the
    exception it raises. *)
Definition classify_body (sign element_id : string)
  : exn + (string * string * string) :=
  match find_prefix prefixes element_id with
  | Some (element_type, prefix) =>
      let element_id :=
        PyStr.lstrip
          (PyStr.lstrip_chars ":;.," (PyStr.drop (String.length prefix) element_id)) in
      if PyStr.isnumeric element_id
      then inr (sign, element_type, element_id)
      else inl (Exception (PyStr.title element_type
                             ++ " element id must be numeric: " ++ element_id))
  | None => inl (Exception ("Unknown element filter format: " ++ element_id))
  end.

(** Lines 40-55 and 64: the target dictionary, the element type and the id
    string a token stands for, or the exception it raises. *)
Definition classify (element_id : string) : exn + (string * string * string) :=
  let '(sign, element_id) := split_sign element_id in
  classify_body sign element_id.

(** One iteration of the loop (lines 40-64). *)
Definition parse_token (result : gmap string (gmap string (gset string)))
    (element_id : string)
  : exn + gmap string (gmap string (gset string)) :=
  match classify element_id with
  | inl e => inl e
  | inr (sign, element_type, element_id) =>
      inr (add_id sign element_type element_id result)
  end.

Fixpoint parse_tokens (result : gmap string (gmap string (gset string)))
    (element_ids : list string)
  : exn + gmap string (gmap string (gset string)) :=
  match element_ids with
  | [] => inr result
  | element_id :: rest =>
      match parse_token result element_id with
      | inl e => inl e
      | inr result' => parse_tokens result' rest
      end
  end.

Definition build_element_ids_dict (element_ids : list string)
  : exn + gmap string (gmap string (gset string)) :=
  parse_tokens empty_element_ids element_ids.

(** [result[sign][element_type]], empty when a key is missing. *)
Definition ids_of (result : gmap string (gmap string (gset string)))
    (sign element_type : string) : gset string :=
  default ∅ (result !! sign ≫= fun by_type => by_type !! element_type).

Definition signs : list string := ["include"; "exclude"].
Definition element_types : list string := ["node"; "way"; "relation"].

(** Both dictionaries are present and each has the three element types. *)
Definition well_keyed (result : gmap string (gmap string (gset string))) : Prop :=
  ∀ sign element_type, sign ∈ signs → element_type ∈ element_types →
    is_Some (result !! sign ≫= fun by_type => by_type !! element_type).

(** What a well-formed token stands for, read off the token itself: after
    trimming and lower-casing, a leading ['-'] selects ['exclude'] and
    anything else ['include']; what follows the sign is one of the prefixes
    of the element type, then separators, then a numeric id. *)
Definition denotes (tok sign ty id : string) : Prop :=
  let t := PyStr.lower (PyStr.strip tok) in
  let minus := PyStr.startswith t "-" in
  let body := PyStr.lstrip (PyStr.lstrip_chars (if minus then "-" else "+") t) in
  sign = (if minus then "exclude" else "include") ∧
  PyStr.isnumeric id = true ∧
  ∃ value prefix rest,
    (ty, value) ∈ prefixes ∧ prefix ∈ value ∧ body = prefix ++ rest ∧
    id = PyStr.lstrip (PyStr.lstrip_chars ":;.," rest).

(** ** [merge_and_sort_diffs] *)

(** Modelled from the spec: [DiffEntry] is declared in [diff_entry.py],
    which is not among the sources; section 3 of the specification gives
    its fields.  An element version is represented by its version number,
    the only part of it that the ordering claims mention. *)
Record DiffEntry : Type := {
  ref : string * Z;
  old_version : option Z;
  new_version : option Z;
  timestamp : Z;
  changeset_id : Z
}.

(** [result[element_type] += elements] for one item of [diff.items()];
    a key that [result] lacks raises [KeyError]. *)
Definition extend_type (element_type : string) (elements : list DiffEntry)
    (acc : exn + gmap string (list DiffEntry))
  : exn + gmap string (list DiffEntry) :=
  match acc with
  | inl e => inl e
  | inr result =>
      match result !! element_type with
      | Some l => inr (<[element_type := (l ++ elements)%list]> result)
      | None => inl KeyError
      end
  end.

(** The inner loop [for element_type, elements in diff.items()]. *)
Definition merge_diff (result diff : gmap string (list DiffEntry))
  : exn + gmap string (list DiffEntry) :=
  map_fold extend_type (inr result) diff.

(** The outer loop [for diff in diffs[1:]]. *)
Fixpoint merge_diffs (result : gmap string (list DiffEntry))
    (rest : list (gmap string (list DiffEntry)))
  : exn + gmap string (list DiffEntry) :=
  match rest with
  | [] => inr result
  | diff :: rest' =>
      match merge_diff result diff with
      | inl e => inl e
      | inr result' => merge_diffs result' rest'
      end
  end.

(** Insertion of [x] in front of the first entry that is not strictly
    newer than it. *)
Fixpoint insert_newest_first (x : DiffEntry) (l : list DiffEntry)
  : list DiffEntry :=
  match l with
  | [] => [x]
  | y :: l' =>
      if timestamp x <? timestamp y then y :: insert_newest_first x l'
      else x :: y :: l'
  end.

(** [sorted(elements, key=lambda t: t.timestamp, reverse=True)].  Python's
    sort is stable, also under [reverse=True]: entries of equal key keep
    their order.  The insertion sort below is such a stable sort, see
    [sorted_newest_first_perm], [sorted_newest_first_sorted] and
    [sorted_newest_first_stable]. *)
Definition sorted_newest_first (elements : list DiffEntry) : list DiffEntry :=
  foldr insert_newest_first [] elements.

(** [merge_and_sort_diffs] on dictionaries given by value: what the
    function returns when the lists of the first dictionary are objects
    of their own, as in [main], which hands over one dictionary for each
    changeset as the history client made it.  [Objects] below has the
    function on list objects, and [merge_in_place_by_value] relates the
    two. *)
Definition merge_and_sort_diffs (diffs : list (gmap string (list DiffEntry)))
  : exn + gmap string (list DiffEntry) :=
  match diffs with
  | [] => inl IndexError
  | first :: rest =>
      match merge_diffs first rest with
      | inl e => inl e
      | inr result => inr (sorted_newest_first <$> result)
      end
  end.

(** [a] may stand before [b] in a newest-first list. *)
Definition not_older (a b : DiffEntry) : Prop := timestamp b <= timestamp a.

(** All entries of one element type, in the order of the inputs. *)
Definition entries_of (element_type : string)
    (diffs : list (gmap string (list DiffEntry))) : list DiffEntry :=
  concat (map (fun d => default [] (d !! element_type)) diffs).

(** Every later diff only has element types the first one has. *)
Definition keys_covered (first : gmap string (list DiffEntry))
    (rest : list (gmap string (list DiffEntry))) : Prop :=
  Forall (fun d => dom d ⊆ dom first) rest.

(** *** The function on list objects

    [merge_and_sort_diffs] works in place: [result] is the first
    dictionary itself (line 70), and [result[element_type] += elements]
    (line 74) extends the list object that [result] holds under the key.
    So it matters whether two dictionaries, or two keys, hold the same
    list. *)

Module Objects.

(** The address of a list object. *)
Definition loc : Type := nat.

(** The list objects: the entries that each one holds. *)
Definition store : Type := loc → list DiffEntry.

(** A dictionary: its keys in the order of insertion, each with the
    list object it holds.  The same dictionary given twice holds the
    same objects twice.  Before line 78 the call changes no dictionary:
    [+=] on a list gives back the list itself, which line 74 stores
    under the key it came from. *)
Definition dict : Type := list (string * loc).

(** [d[key]], if the key is there. *)
Fixpoint getitem (d : dict) (key : string) : option loc :=
  match d with
  | [] => None
  | (k, l) :: d' => if String.eqb k key then Some l else getitem d' key
  end.

(** Line 74, [result[element_type] += elements]: the list object of
    [result] is extended by what [elements] holds now; a key that
    [result] lacks raises [KeyError]. *)
Definition extend_type (result : dict) (element_type : string)
    (elements : loc) (σ : store) : exn + store :=
  match getitem result element_type with
  | Some l => inr (<[l := (σ l ++ σ elements)%list]> σ)
  | None => inl KeyError
  end.

(** Lines 73-74: the loop over [diff.items()]. *)
Fixpoint merge_diff (result : dict) (items : dict) (σ : store) : exn + store :=
  match items with
  | [] => inr σ
  | (element_type, elements) :: items' =>
      match extend_type result element_type elements σ with
      | inl e => inl e
      | inr σ' => merge_diff result items' σ'
      end
  end.

(** Lines 72-74: the loop over [diffs[1:]]. *)
Fixpoint merge_diffs (result : dict) (rest : list dict) (σ : store)
  : exn + store :=
  match rest with
  | [] => inr σ
  | diff :: rest' =>
      match merge_diff result diff σ with
      | inl e => inl e
      | inr σ' => merge_diffs result rest' σ'
      end
  end.

(** Lines 69-80.  [sorted] (line 78) makes a new list for each key of
    [result], which nothing else holds: the returned dictionary is given
    with its lists by value, next to the list objects as the call leaves
    them. *)
Definition merge_and_sort_diffs (diffs : list dict) (σ : store)
  : exn + (list (string * list DiffEntry) * store) :=
  match diffs with
  | [] => inl IndexError
  | result :: rest =>
      match merge_diffs result rest σ with
      | inl e => inl e
      | inr σ' =>
          inr (map (fun '(element_type, elements) =>
                      (element_type, sorted_newest_first (σ' elements)))
                   result,
               σ')
      end
  end.

(** The dictionary by value: each key with what its list holds. *)
Definition value (σ : store) (d : dict) : gmap string (list DiffEntry) :=
  list_to_map (map (fun '(element_type, elements) =>
                      (element_type, σ elements)) d).

(** The list objects that a dictionary holds. *)
Definition lists_of (d : dict) : list loc := map snd d.

(** The returned dictionary as a map. *)
Definition as_map (items : list (string * list DiffEntry))
  : gmap string (list DiffEntry) :=
  list_to_map items.

(** A dictionary has each key once. *)
Definition is_dict (d : dict) : Prop := NoDup (map fst d).

(** The lists of the first dictionary are objects of their own: no two
    of its keys hold the same list, and no later dictionary holds one of
    them. *)
Definition unshared (diffs : list dict) : Prop :=
  match diffs with
  | [] => True
  | result :: rest =>
      NoDup (lists_of result)
      ∧ Forall (fun diff => ∀ l, l ∈ lists_of result → l ∉ lists_of diff) rest
  end.

End Objects.



(** ** The pipeline of [main] *)

(** A value of the command line: [fire] hands over integers and strings. *)
Inductive pyval : Type :=
| PInt (n : Z)
| PStr (s : string).

(** [bool(v)]. *)
Definition truthy (v : pyval) : bool :=
  match v with
  | PInt n => negb (n =? 0)
  | PStr s => negb (String.eqb s "")
  end.

(** [bool(s)] for an optional string: [None] and [''] are false. *)
Definition truthy_str (s : option string) : bool :=
  match s with
  | Some s => negb (String.eqb s "")
  | None => false
  end.

(** [str(v)]. *)
Definition str (v : pyval) : string :=
  match v with
  | PInt n => pretty n
  | PStr s => s
  end.

(** [sorted(set(...))] on strings: ascending by code points, no
    duplicates. *)
Fixpoint insert_sorted (x : string) (l : list string) : list string :=
  match l with
  | [] => [x]
  | y :: l' =>
      match String.compare x y with
      | Lt => x :: l
      | Eq => l
      | Gt => y :: insert_sorted x l'
      end
  end.

Definition sorted_set (l : list string) : list string :=
  foldr insert_sorted [] l.

(** Lines 134-138; [values] is [ensure_iterable(changeset_ids)]. *)
Definition normalize_ids (values : list pyval) : list string :=
  sorted_set (map (fun v => PyStr.strip (str v)) (List.filter truthy values)).

(** Lines 142-146; [values] is [ensure_iterable(only_tags)]. *)
Definition normalize_tags (values : list pyval) : gset string :=
  list_to_set (map (fun v => PyStr.strip (str v)) (List.filter truthy values)).

(** [sep.join(l)]. *)
Fixpoint join (sep : string) (l : list string) : string :=
  match l with
  | [] => ""
  | [x] => x
  | x :: l' => x ++ sep ++ join sep l'
  end.

Definition max_list (l : list Z) : option Z :=
  match l with
  | [] => None
  | x :: l' => Some (foldl Z.max x l')
  end.

Definition min_list (l : list Z) : option Z :=
  match l with
  | [] => None
  | x :: l' => Some (foldl Z.min x l')
  end.

(** The part of the user document that [main] reads:
    [user['display_name']], [user['changesets']['count']] and
    [user['roles']]. *)
Record User : Type := {
  display_name : string;
  changesets_count : Z;
  roles : list string
}.

(** The part of the changeset document that [main] reads:
    [changeset['osm']['changeset']['@uid']] and the values of
    [changeset['partition']], each given by the values it holds. *)
Record Changeset : Type := {
  uid : string;
  partition : list (list (list string))
}.

(** Line 196. *)
Definition changeset_size (changeset : Changeset) : Z :=
  foldr Z.add 0 (map (fun v => Z.of_nat (length v)) (concat (partition changeset))).

(** Line 197. *)
Definition partition_count (changeset : Changeset) : Z :=
  Z.of_nat (length (partition changeset)).

(** Line 214: [sum(len(el) for el in diff.values())]. *)
Definition diff_size (diff : gmap string (list DiffEntry)) : Z :=
  map_fold (fun _ el acc => Z.of_nat (length el) + acc) 0 diff.

(** Line 165: the largest limit whose threshold the user has reached. *)
Definition changesets_limit_of (config : gmap Z Z) (user_edits : Z) : exn + Z :=
  match max_list (map snd (List.filter (fun kv => fst kv <=? user_edits)
                                       (map_to_list config))) with
  | Some v => inr v
  | None => inl ValueError
  end.

(** Line 168: [min(k for k in changesets_limit_config.keys() if k > 0)]. *)
Definition min_edits_of (config : gmap Z Z) : exn + Z :=
  match min_list (List.filter (fun k => 0 <? k) (map fst (map_to_list config))) with
  | Some k => inr k
  | None => inl ValueError
  end.

(** Line 175: the next threshold above the user's edits, if any. *)
Definition limit_increase_of (config : gmap Z Z) (user_edits : Z) : option Z :=
  min_list (List.filter (fun k => user_edits <? k) (map fst (map_to_list config))).

(** What the run prints: a constructor for each message of the source,
    with the values its format string interpolates.  [MsgOsc] stands for
    the three lines around the change document, [MsgTraceback] for the
    output of [traceback.print_exc]. *)
Inductive message : Type :=
| MsgLoggingIn
| MsgWelcome (name : string) (moderator : bool)
| MsgNeedEdits (min_edits : Z)
| MsgChangesetsLimit (limit : Z)
| MsgLimitIncrease (edits : Z)
| MsgDownloading (changeset_id : Z)
| MsgOsmStart
| MsgModeratorsChangesets
| MsgOsmSize (steps size : Z)
| MsgOverpassStart (steps partitions : Z)
| MsgOverpassSize (steps size : Z) (filtered : bool)
| MsgGenerating
| MsgFixingParents (parents : Z)
| MsgNothingToRevert
| MsgSaving (size : Z)
| MsgOsc (xml : string)
| MsgVerify (element_type element_id : string)
| MsgSuccess
| MsgTooBig (size cap : Z)
| MsgHintReduce
| MsgUploading (size : Z)
| MsgDiscussing (count : Z)
| MsgDiscussed (i total changeset_id : Z) (status : string)
| MsgChangesetUrl (url : string)
| MsgUnknownTarget (target : option string)
| MsgTraceback (e : exn)
| MsgTotalTime.

(** How a piece of the function body ends. *)
Inductive outcome (A : Type) : Type :=
| Normal (a : A)
| Return (code : Z)
| Raise (e : exn).

Arguments Normal {A} a.
Arguments Return {A} code.
Arguments Raise {A} e.

Section Pipeline.

(** The documents that [main] only passes on: the parsed OAuth token,
    an inverted element and the change document. *)
Context {Json Element OsmChange : Type}.

(** What the run does to the outside, in order: prints, and calls of the
    map-data client, the history client, the inverter, the change
    document builder and the file system, with their arguments. *)
Inductive event : Type :=
| Print (m : message)
| Call_OsmApi (username password : option string)
    (oauth_token : option (string + Json))
| Call_get_authorized_user
| Call_get_changeset (changeset_id : Z)
| Call_get_user (user_id : string)
| Call_get_changeset_elements_history
    (changeset : Changeset) (steps : Z) (query_filter : string)
| Call_invert_diff (only_tags : gset string) (diff : gmap string (list DiffEntry))
| Call_update_parents (invert : gmap string (list Element))
| Call_build_osm_change (invert : gmap string (list Element))
| Call_write_file (path content : string)
| Call_get_changeset_max_size
| Call_upload_diff (invert : gmap string (list Element)) (comment : string)
    (extra_tags : gmap string pyval)
| Call_post_discussion_comment (changeset_id : Z) (text : string).

(** The modules that [main] imports and that are not among the sources
    ([config], [osm], [overpass], [invert], [utils], [xmltodict], the
    process environment): their constants and, for each operation, the
    answer it gives to each argument, an exception or a value.
    - [get_user] answers [None] for a falsy user document;
    - [get_changeset_elements_history] answers [None] for a falsy diff
      that is not a dictionary, and otherwise a dictionary made for
      that call, with lists that no other answer holds: the answers are
      given by value, and [main] merges them with the
      [merge_and_sort_diffs] on values;
    - [invert_diff] answers the inverted diff with the inverter's
      [warnings] and [statistics];
    - [update_parents] answers the number of parents with the inverted
      diff as the call leaves it;
    - [upload_diff] answers the new changeset id, [None] or [''] on
      failure. *)
Record Env : Type := {
  CHANGESETS_LIMIT_CONFIG : gmap string (gmap Z Z);
  CHANGESETS_LIMIT_MODERATOR_REVERT : Z;
  CREATED_BY : string;
  WEBSITE : string;
  is_osm_moderator : list string -> bool;
  getenv : string -> option string;
  json_loads : string -> exn + Json;
  OsmApi :
    option string -> option string -> option (string + Json) -> exn + unit;
  get_authorized_user : exn + User;
  get_changeset : Z -> exn + Changeset;
  get_user : string -> exn + option User;
  get_changeset_elements_history :
    Changeset -> Z -> string -> exn + option (gmap string (list DiffEntry));
  invert_diff :
    gset string -> gmap string (list DiffEntry) ->
    exn + (gmap string (list Element) * list (string * list string)
           * gmap string pyval);
  update_parents :
    gmap string (list Element) -> exn + (Z * gmap string (list Element));
  build_osm_change : gmap string (list Element) -> exn + OsmChange;
  unparse : OsmChange -> exn + string;
  write_file : string -> string -> exn + unit;
  get_changeset_max_size : exn + Z;
  upload_diff :
    gmap string (list Element) -> string -> gmap string pyval ->
    exn + option string;
  post_discussion_comment : Z -> string -> exn + string
}.

(** The arguments of [main]; [changeset_ids] and [only_tags] are given
    as [ensure_iterable] returns them. *)
Record Args : Type := {
  changeset_ids : list pyval;
  comment : string;
  username : option string;
  password : option string;
  oauth_token : option string;
  discussion : option string;
  discussion_target : option string;
  osc_file : option string;
  print_osc : option bool;
  query_filter : string;
  only_tags : list pyval
}.

(** *** Traces and early exits *)

(** The collaborator an event belongs to. *)
Inductive kind : Type :=
| KPrint | KOsmApi | KAuthorizedUser | KGetChangeset | KGetUser | KHistory
| KInvert | KParents | KBuild | KWrite | KMaxSize | KUpload | KDiscuss.

Definition kind_of (ev : event) : kind :=
  match ev with
  | Print _ => KPrint
  | Call_OsmApi _ _ _ => KOsmApi
  | Call_get_authorized_user => KAuthorizedUser
  | Call_get_changeset _ => KGetChangeset
  | Call_get_user _ => KGetUser
  | Call_get_changeset_elements_history _ _ _ => KHistory
  | Call_invert_diff _ _ => KInvert
  | Call_update_parents _ => KParents
  | Call_build_osm_change _ => KBuild
  | Call_write_file _ _ => KWrite
  | Call_get_changeset_max_size => KMaxSize
  | Call_upload_diff _ _ _ => KUpload
  | Call_post_discussion_comment _ _ => KDiscuss
  end.

(** A piece of the body: the events it causes, and how it ends. *)
Definition M (A : Type) : Type := list event * outcome A.

Definition ret {A} (a : A) : M A := ([], Normal a).

Definition bind {A B} (f : A -> M B) (m : M A) : M B :=
  match m with
  | (tr, Normal a) => let '(tr', o) := f a in ((tr ++ tr')%list, o)
  | (tr, Return code) => (tr, Return code)
  | (tr, Raise e) => (tr, Raise e)
  end.

#[global] Instance M_ret : MRet M := @ret.
#[global] Instance M_bind : MBind M := @bind.

Definition print (m : message) : M unit := ([Print m], Normal tt).

Definition prints (ms : list message) : M unit := (map Print ms, Normal tt).

(** A call of a collaborator: the event, then its answer. *)
Definition call {A} (ev : event) (answer : exn + A) : M A :=
  ([ev], match answer with inl e => Raise e | inr a => Normal a end).

(** A computation of [main] itself that may raise. *)
Definition lift {A} (r : exn + A) : M A :=
  ([], match r with inl e => Raise e | inr a => Normal a end).

Definition returns {A} (code : Z) : M A := ([], Return code).

Definition raise {A} (e : exn) : M A := ([], Raise e).

Definition assert (b : bool) (msg : string) : M unit :=
  if b then ret tt else raise (AssertionError msg).

Definition when (b : bool) (m : M unit) : M unit :=
  if b then m else ret tt.

Definition trace {A} (m : M A) : list event := fst m.
Definition result {A} (m : M A) : outcome A := snd m.

(** The events [tr], then [m]. *)
Definition prepend {A} (tr : list event) (m : M A) : M A :=
  ((tr ++ trace m)%list, result m).

(** Every event of [m] satisfies [P]. *)
Definition only {A} (P : event -> Prop) (m : M A) : Prop :=
  Forall P (trace m).

(** The event belongs to one of the collaborators [ks]. *)
Definition in_kinds (ks : list kind) (ev : event) : Prop := kind_of ev ∈ ks.

(** An event of the first two phases: before the revert is generated. *)
Definition early (ev : event) : Prop :=
  kind_of ev ∈ [KPrint; KOsmApi; KAuthorizedUser; KGetChangeset; KGetUser; KHistory]
  ∧ ev ≠ Print MsgGenerating ∧ ev ≠ Print MsgNothingToRevert.

(** [sum(len(elements) for elements in invert.values())]. *)
Definition invert_size (invert : gmap string (list Element)) : Z :=
  map_fold (fun _ el acc => Z.of_nat (length el) + acc) 0 invert.

(** *** [filter_discussion_changesets] and [print_warn_elements] *)

Definition filter_discussion_changesets (changeset_ids : list string)
    (target : option string) : M (list string) :=
  if bool_decide (target = Some "all") then ret changeset_ids
  else if bool_decide (target = Some "newest")
  then ret (match last changeset_ids with Some c => [c] | None => [] end)
  else if bool_decide (target = Some "oldest") then ret (take 1 changeset_ids)
  else print (MsgUnknownTarget target);; ret [].

Definition print_warn_elements (warn_elements : list (string * list string))
  : M unit :=
  prints (flat_map (fun '(element_type, element_ids) =>
                      map (MsgVerify element_type) element_ids)
                   warn_elements).

Variable env : Env.
Variable args : Args.

(** *** Lines 134-178: validation, log-in and account limits *)

(** Lines 134-140. *)
Definition validate_ids : M (list string) :=
  let changeset_ids := normalize_ids (changeset_ids args) in
  assert (negb (bool_decide (changeset_ids = []))) "Missing changeset id";;
  assert (forallb PyStr.isnumeric changeset_ids) "Changeset ids must be numeric";;
  mret changeset_ids.

(** Lines 152-153: what [main] passes on as [oauth_token].  A truthy
    argument is replaced by its parse; a falsy one, [None] or the empty
    string, is passed on as it is. *)
Definition parse_oauth_token : exn + option (string + Json) :=
  match oauth_token args with
  | Some text =>
      if truthy_str (Some text)
      then match json_loads env text with
           | inl e => inl e
           | inr token => inr (Some (inr token))
           end
      else inr (Some (inl text))
  | None => inr None
  end.

(** Lines 148-162. *)
Definition login : M User :=
  let '(username, password) :=
    if negb (truthy_str (username args)) && negb (truthy_str (password args))
    then (getenv env "OSM_USERNAME", getenv env "OSM_PASSWORD")
    else (username args, password args) in
  oauth_token ← lift parse_oauth_token;
  print MsgLoggingIn;;
  call (Call_OsmApi username password oauth_token)
       (OsmApi env username password oauth_token);;
  user ← call Call_get_authorized_user (get_authorized_user env);
  print (MsgWelcome (display_name user) (is_osm_moderator env (roles user)));;
  mret user.

(** Line 164. *)
Definition limit_config_of (user : User) : exn + gmap Z Z :=
  match CHANGESETS_LIMIT_CONFIG env
          !! (if is_osm_moderator env (roles user) then "moderator" else "") with
  | Some config => inr config
  | None => inl KeyError
  end.

(** Lines 164-178. *)
Definition check_limits (changeset_ids : list string) (user : User) : M unit :=
  let user_edits := changesets_count user in
  changesets_limit_config ← lift (limit_config_of user);
  changesets_limit ← lift (changesets_limit_of changesets_limit_config user_edits);
  if changesets_limit =? 0 then
    min_edits ← lift (min_edits_of changesets_limit_config);
    print (MsgNeedEdits min_edits);;
    returns (-1)
  else if changesets_limit <? Z.of_nat (length changeset_ids) then
    print (MsgChangesetsLimit changesets_limit);;
    match limit_increase_of changesets_limit_config user_edits with
    | Some limit_increase =>
        when (negb (limit_increase =? 0)) (print (MsgLimitIncrease limit_increase))
    | None => mret tt
    end;;
    returns (-1)
  else mret tt.

(** Lines 134-178: the changeset ids, the tags, the number of edits of
    the user and whether the user is a moderator. *)
Definition prelude : M (list string * gset string * Z * bool) :=
  changeset_ids ← validate_ids;
  let only_tags := normalize_tags (only_tags args) in
  user ← login;
  check_limits changeset_ids user;;
  mret (changeset_ids, only_tags, changesets_count user,
        is_osm_moderator env (roles user)).

(** *** Lines 183-222: the download loop *)

(** [bool(diff)]: a dictionary with at least one key. *)
Definition truthy_diff (diff : option (gmap string (list DiffEntry))) : bool :=
  match diff with
  | Some d => negb (bool_decide (d = ∅))
  | None => false
  end.

(** Lines 190-194. *)
Definition check_moderator (user_edits : Z) (user_is_moderator : bool)
    (changeset : Changeset) : M unit :=
  if (user_edits <? CHANGESETS_LIMIT_MODERATOR_REVERT env)
     && negb user_is_moderator
  then
    changeset_user ← call (Call_get_user (uid changeset))
                          (get_user env (uid changeset));
    match changeset_user with
    | Some u =>
        if is_osm_moderator env (roles u)
        then print MsgModeratorsChangesets;; returns (-1)
        else mret tt
    | None => mret tt
    end
  else mret tt.

(** Lines 202-222. *)
Definition retrieve (changeset : Changeset)
    (diffs : list (gmap string (list DiffEntry)))
  : M (list (gmap string (list DiffEntry))) :=
  let changeset_size := changeset_size changeset in
  let partition_count := partition_count changeset in
  let steps := partition_count + 1 in
  if negb (changeset_size =? 0) then
    print (MsgOverpassStart steps partition_count);;
    diff ← call (Call_get_changeset_elements_history
                   changeset steps (query_filter args))
                (get_changeset_elements_history env
                   changeset steps (query_filter args));
    if negb (truthy_diff diff) then returns (-1)
    else
      let diff := default ∅ diff in
      let diffs := (diffs ++ [diff])%list in
      let diff_size := diff_size diff in
      assert (diff_size <=? changeset_size)
             "Diff must not be larger than changeset size";;
      print (MsgOverpassSize steps diff_size
               (negb (String.eqb (query_filter args) "")));;
      mret diffs
  else mret diffs.

(** One iteration of the loop (lines 184-222). *)
Definition download_one (user_edits : Z) (user_is_moderator : bool)
    (changeset_id : string) (diffs : list (gmap string (list DiffEntry)))
  : M (list (gmap string (list DiffEntry))) :=
  changeset_id ← lift (PyStr.int changeset_id);
  print (MsgDownloading changeset_id);;
  print MsgOsmStart;;
  changeset ← call (Call_get_changeset changeset_id)
                   (get_changeset env changeset_id);
  check_moderator user_edits user_is_moderator changeset;;
  print (MsgOsmSize (partition_count changeset + 1) (changeset_size changeset));;
  retrieve changeset diffs.

Fixpoint download (user_edits : Z) (user_is_moderator : bool)
    (changeset_ids : list string) (diffs : list (gmap string (list DiffEntry)))
  : M (list (gmap string (list DiffEntry))) :=
  match changeset_ids with
  | [] => mret diffs
  | changeset_id :: rest =>
      diffs ← download_one user_edits user_is_moderator changeset_id diffs;
      download user_edits user_is_moderator rest diffs
  end.

(** *** Lines 224-307: inversion, and saving or upload *)

(** Lines 297-300. *)
Fixpoint discuss (i total : Z) (d_changeset_ids : list string)
    (discussion : string) : M unit :=
  match d_changeset_ids with
  | [] => mret tt
  | changeset_id :: rest =>
      changeset_id ← lift (PyStr.int changeset_id);
      status ← call (Call_post_discussion_comment changeset_id discussion)
                    (post_discussion_comment env changeset_id discussion);
      print (MsgDiscussed i total changeset_id status);;
      discuss (i + 1) total rest discussion
  end.

(** Lines 272-284. *)
Definition extra_args_of (changeset_ids : list string) (user_edits : Z)
  : gmap string pyval :=
  let extra_args : gmap string pyval :=
    <["website" := PStr (WEBSITE env)]>
      (<["created_by" := PStr (CREATED_BY env)]>
         (<["changesets_count" := PInt (user_edits + 1)]> ∅)) in
  let extra_args :=
    if bool_decide (length changeset_ids = 1%nat)
    then <["id" := PStr (join ";" (map (fun c =>
                     "https://www.openstreetmap.org/changeset/" ++ c)
                     changeset_ids))]> extra_args
    else <["id" := PStr (join ";" changeset_ids)]> extra_args in
  if negb (String.eqb (query_filter args) "")
  then <["filter" := PStr (query_filter args)]> extra_args
  else extra_args.

(** Lines 240-257. *)
Definition save (invert : gmap string (list Element))
    (warnings : list (string * list string)) (invert_size : Z) : M Empty_set :=
  print (MsgSaving invert_size);;
  osm_change ← call (Call_build_osm_change invert) (build_osm_change env invert);
  osm_change_xml ← lift (unparse env osm_change);
  (if truthy_str (osc_file args)
   then call (Call_write_file (default "" (osc_file args)) osm_change_xml)
             (write_file env (default "" (osc_file args)) osm_change_xml)
   else mret tt);;
  when (default false (print_osc args)) (print (MsgOsc osm_change_xml));;
  print_warn_elements warnings;;
  print MsgSuccess;;
  returns 0.

(** Lines 286-307. *)
Definition after_upload (changeset_ids : list string)
    (warnings : list (string * list string)) (changeset_id : option string)
  : M Empty_set :=
  if truthy_str changeset_id then
    let changeset_url :=
      "https://www.openstreetmap.org/changeset/" ++ default "" changeset_id in
    discussion ← match discussion args with
                 | Some text => mret (PyStr.strip text)
                 | None => raise AttributeError
                 end;
    when (4 <=? Z.of_nat (String.length discussion))
      (let discussion :=
         discussion ++ String "010" (String "010" "") ++ changeset_url in
       d_changeset_ids ←
         filter_discussion_changesets changeset_ids (discussion_target args);
       print (MsgDiscussing (Z.of_nat (length d_changeset_ids)));;
       discuss 1 (Z.of_nat (length d_changeset_ids)) d_changeset_ids discussion);;
    print_warn_elements warnings;;
    print MsgSuccess;;
    print (MsgChangesetUrl changeset_url);;
    returns 0
  else returns (-1).

(** Lines 259-307. *)
Definition upload (changeset_ids : list string) (user_edits : Z)
    (invert : gmap string (list Element))
    (warnings : list (string * list string)) (statistics : gmap string pyval)
    (invert_size : Z) : M Empty_set :=
  changeset_max_size ← call Call_get_changeset_max_size
                            (get_changeset_max_size env);
  if changeset_max_size <? invert_size then
    print (MsgTooBig invert_size changeset_max_size);;
    when (1 <? Z.of_nat (length changeset_ids)) (print MsgHintReduce);;
    returns (-1)
  else
    print (MsgUploading invert_size);;
    let extra_args := extra_args_of changeset_ids user_edits in
    changeset_id ←
      call (Call_upload_diff invert (comment args) (statistics ∪ extra_args))
           (upload_diff env invert (comment args) (statistics ∪ extra_args));
    after_upload changeset_ids warnings changeset_id.

(** Lines 234-307. *)
Definition conclude (changeset_ids : list string) (user_edits : Z)
    (invert : gmap string (list Element))
    (warnings : list (string * list string)) (statistics : gmap string pyval)
  : M Empty_set :=
  let invert_size := invert_size invert in
  if invert_size =? 0 then
    print MsgNothingToRevert;;
    returns 0
  else if truthy_str (osc_file args) || default false (print_osc args)
  then save invert warnings invert_size
  else upload changeset_ids user_edits invert warnings statistics invert_size.

(** Lines 224-307. *)
Definition finish (changeset_ids : list string) (only_tags : gset string)
    (user_edits : Z) (diffs : list (gmap string (list DiffEntry)))
  : M Empty_set :=
  print MsgGenerating;;
  merged_diffs ← lift (merge_and_sort_diffs diffs);
  '(invert, warnings, statistics) ←
    call (Call_invert_diff only_tags merged_diffs)
         (invert_diff env only_tags merged_diffs);
  '(parents, invert) ← call (Call_update_parents invert)
                            (update_parents env invert);
  when (negb (parents =? 0)) (print (MsgFixingParents parents));;
  conclude changeset_ids user_edits invert warnings statistics.

(** The answer to this call of the history client let the loop go on:
    a diff that is not falsy and not larger than the changeset. *)
Definition proceeds (ev : event) : Prop :=
  match ev with
  | Call_get_changeset_elements_history changeset steps query_filter =>
      ∃ diff,
        get_changeset_elements_history env changeset steps query_filter
        = inr (Some diff)
        ∧ diff ≠ ∅ ∧ diff_size diff <= changeset_size changeset
  | _ => True
  end.

(** The answer to this call of the history client is a diff larger than
    the changeset. *)
Definition oversized (ev : event) : Prop :=
  match ev with
  | Call_get_changeset_elements_history changeset steps query_filter =>
      ∃ diff,
        get_changeset_elements_history env changeset steps query_filter
        = inr (Some diff)
        ∧ diff ≠ ∅ ∧ changeset_size changeset < diff_size diff
  | _ => False
  end.

(** Every call of the history client but the last event let the loop go
    on, the last one too when the piece ends normally, and an oversized
    answer ends the piece with an assertion error. *)
Definition safe {A} (m : M A) : Prop :=
  Forall proceeds (removelast (trace m))
  ∧ (∀ a, result m = Normal a → Forall proceeds (trace m))
  ∧ (∀ ev, ev ∈ trace m → oversized ev →
       ∃ msg, result m = Raise (AssertionError msg)).

(** [main], before the decorator. *)
Definition main : M Empty_set :=
  '(changeset_ids, only_tags, user_edits, user_is_moderator) ← prelude;
  diffs ← download user_edits user_is_moderator changeset_ids [];
  finish changeset_ids only_tags user_edits diffs.

(** [main_timer]: the exit code handed to [exit], after the events of
    the run, the traceback of an exception and the total time. *)
Definition main_timer (func : M Empty_set) : list event * Z :=
  match func with
  | (tr, Return exit_code) => ((tr ++ [Print MsgTotalTime])%list, exit_code)
  | (tr, Raise e) =>
      ((tr ++ [Print (MsgTraceback e); Print MsgTotalTime])%list, -2)
  | (_, Normal none) => match none with end
  end.

End Pipeline.

Arguments Env : clear implicits.
Arguments event : clear implicits.

(** The events that reach the network: every call but the writing of the
    [.osc] file and the building of the change document. *)
Definition is_network_call {Json Element} (ev : event Json Element) : bool :=
  match kind_of ev with
  | KPrint | KBuild | KWrite => false
  | _ => true
  end.

(** ** Sample inputs *)

Module Sample.

Definition mapper (edits : Z) : User :=
  {| display_name := "mapper"; changesets_count := edits; roles := [] |}.

Definition moderator : User :=
  {| display_name := "moderator"; changesets_count := 9000;
     roles := ["moderator"] |}.

(** A changeset of user 7 that declares [n] elements in one partition. *)
Definition changeset (n : nat) : Changeset :=
  {| uid := "7"; partition := [[replicate n "1"]] |}.

(** An edit of node 7 from version 1 to version 2. *)
Definition entry (time changeset : Z) : DiffEntry :=
  {| ref := ("node", 7); old_version := Some 1; new_version := Some 2;
     timestamp := time; changeset_id := changeset |}.

Definition diff (entries : list DiffEntry) : gmap string (list DiffEntry) :=
  {["node" := entries]}.

(** Collaborators that always succeed: the user [user] is logged in,
    every changeset declares [declared] elements and is of author
    [author], the history client answers [history], the inverter
    [inverted], and the service caps an upload at [cap] elements. *)
Definition env (user : User) (author : option User) (declared : nat)
    (history : list DiffEntry) (inverted : list unit) (cap : Z)
  : Env unit unit unit :=
  {| CHANGESETS_LIMIT_CONFIG :=
       <["" := <[0 := 0]> (<[10 := 1]> (<[100 := 3]> ∅))]>
         (<["moderator" := <[0 := 50]> ∅]> ∅);
     CHANGESETS_LIMIT_MODERATOR_REVERT := 1000;
     CREATED_BY := "osm-revert";
     WEBSITE := "https://github.com/Zaczero/osm-revert";
     is_osm_moderator := fun roles => bool_decide ("moderator" ∈ roles);
     getenv := fun _ => None;
     json_loads := fun _ => inr tt;
     OsmApi := fun _ _ _ => inr tt;
     get_authorized_user := inr user;
     get_changeset := fun _ => inr (changeset declared);
     get_user := fun _ => inr author;
     get_changeset_elements_history := fun _ _ _ => inr (Some (diff history));
     invert_diff := fun _ _ => inr ({["node" := inverted]}, [], ∅);
     update_parents := fun invert => inr (0, invert);
     build_osm_change := fun _ => inr tt;
     unparse := fun _ => inr "<osmChange/>";
     write_file := fun _ _ => inr tt;
     get_changeset_max_size := inr cap;
     upload_diff := fun _ _ _ => inr (Some "4242");
     post_discussion_comment := fun _ _ => inr "OK" |}.

(** [main(ids, 'revert', 'mapper', 'secret', discussion=..., discussion_target='all')]. *)
Definition args (ids : list pyval) (discussion : option string) : Args :=
  {| changeset_ids := ids; comment := "revert";
     username := Some "mapper"; password := Some "secret";
     oauth_token := None; discussion := discussion;
     discussion_target := Some "all"; osc_file := None; print_osc := None;
     query_filter := ""; only_tags := [] |}.

(** A user with 500 edits reverts changeset 123 of two elements. *)
Definition env_upload : Env unit unit unit :=
  env (mapper 500) None 2 [entry 10 1; entry 20 1] [tt] 10000.

(** The same, but the inversion leaves nothing to revert. *)
Definition env_nothing : Env unit unit unit :=
  env (mapper 500) None 2 [entry 10 1; entry 20 1] [] 10000.

(** The same, but the service accepts one element per upload and the
    inversion has two. *)
Definition env_small_cap : Env unit unit unit :=
  env (mapper 500) None 2 [entry 10 1; entry 20 1] [tt; tt] 1.

(** The same, but the history client answers three entries for the two
    declared elements. *)
Definition env_oversized : Env unit unit unit :=
  env (mapper 500) None 2 [entry 10 1; entry 20 1; entry 30 1] [tt] 10000.

(** The same, but the changeset declares no element. *)
Definition env_no_elements : Env unit unit unit :=
  env (mapper 500) None 0 [] [] 10000.

(** A user with 5 edits. *)
Definition env_newcomer : Env unit unit unit :=
  env (mapper 5) None 2 [entry 10 1] [tt] 10000.

(** A user with 500 edits, a changeset of a moderator. *)
Definition env_protected : Env unit unit unit :=
  env (mapper 500) (Some moderator) 2 [entry 10 1] [tt] 10000.

(** A user with 5000 edits who is no moderator, a changeset of a
    moderator. *)
Definition env_veteran : Env unit unit unit :=
  env (mapper 5000) (Some moderator) 2 [entry 10 1] [tt] 10000.

(** The limits of a user who is no moderator. *)
Definition config : gmap Z Z := <[0 := 0]> (<[10 := 1]> (<[100 := 3]> ∅)).

(** What the sample inverter leaves for [n] inverted nodes. *)
Definition inverted (l : list unit) : gmap string (list unit) :=
  {["node" := l]}.

Definition is_upload (ev : event unit unit) : bool :=
  match kind_of ev with KUpload => true | _ => false end.

Definition is_get_user (ev : event unit unit) : bool :=
  match kind_of ev with KGetUser => true | _ => false end.

End Sample.

(** ** Further notions for the properties of the code *)

(** [a] is before [b] in the order of Python on strings. *)
Definition str_lt (a b : string) : Prop := String.compare a b = Lt.

(** The dictionary has the two targets and, under each, the three element
    types, and no other key. *)
Definition exact_keys (result : gmap string (gmap string (gset string))) : Prop :=
  dom result = list_to_set signs
  ∧ ∀ sign by_type, result !! sign = Some by_type →
      dom by_type = list_to_set element_types.

Section RunNotions.

Context {Json Element OsmChange : Type}.
Variable env : Env Json Element OsmChange.

(** The exception of an answer, if it is one. *)
Definition failure {A} (answer : exn + A) : option exn :=
  match answer with
  | inl e => Some e
  | inr _ => None
  end.

(** The exception with which the collaborator answers the call [ev], if
    it answers with one. *)
Definition raised (ev : event Json Element) : option exn :=
  match ev with
  | Print _ => None
  | Call_OsmApi username password oauth_token =>
      failure (OsmApi env username password oauth_token)
  | Call_get_authorized_user => failure (get_authorized_user env)
  | Call_get_changeset changeset_id => failure (get_changeset env changeset_id)
  | Call_get_user user_id => failure (get_user env user_id)
  | Call_get_changeset_elements_history changeset steps query_filter =>
      failure (get_changeset_elements_history env changeset steps query_filter)
  | Call_invert_diff only_tags diff => failure (invert_diff env only_tags diff)
  | Call_update_parents invert => failure (update_parents env invert)
  | Call_build_osm_change invert => failure (build_osm_change env invert)
  | Call_write_file path content => failure (write_file env path content)
  | Call_get_changeset_max_size => failure (get_changeset_max_size env)
  | Call_upload_diff invert comment extra_tags =>
      failure (upload_diff env invert comment extra_tags)
  | Call_post_discussion_comment changeset_id text =>
      failure (post_discussion_comment env changeset_id text)
  end.

(** The call [ev] is one of the history client that answers a falsy
    diff: [None] or a dictionary without keys. *)
Definition answers_falsy_diff (ev : event Json Element) : bool :=
  match ev with
  | Call_get_changeset_elements_history changeset steps query_filter =>
      match get_changeset_elements_history env changeset steps query_filter with
      | inr diff => negb (truthy_diff diff)
      | inl _ => false
      end
  | _ => false
  end.

(** How a run ends that stops with the code or the exception [h]. *)
Definition stopped {A} (h : Z + exn) : outcome A :=
  match h with
  | inl code => Return code
  | inr e => Raise e
  end.

(** [halts] tells the events after which the body stops at once, and
    how.  A piece of the body observes it when none of its events but
    the last is one of them, none at all when the piece ends normally,
    and when such an event ends the piece as told. *)
Definition halting (halts : event Json Element → option (Z + exn))
    {A} (m : @M Json Element A) : Prop :=
  Forall (fun ev => halts ev = None) (removelast (trace m))
  ∧ (∀ a, result m = Normal a → Forall (fun ev => halts ev = None) (trace m))
  ∧ (∀ ev h, ev ∈ trace m → halts ev = Some h → result m = stopped h).

(** The messages with which [main] reports a success. *)
Definition reports_success (ev : event Json Element) : Prop :=
  match ev with
  | Print MsgNothingToRevert | Print MsgSuccess | Print (MsgChangesetUrl _) => True
  | _ => False
  end.

(** A piece of the body returns no code but -1 and 0, and 0 only right
    after it has reported a success. *)
Definition exits_cleanly {A} (m : @M Json Element A) : Prop :=
  ∀ code, result m = Return code →
    code = -1
    ∨ (code = 0 ∧ ∃ ev, last (trace m) = Some ev ∧ reports_success ev).

(** The event is a call of [post_discussion_comment]. *)
Definition is_discussion_call (ev : event Json Element) : bool :=
  match ev with
  | Call_post_discussion_comment _ _ => true
  | _ => false
  end.

(** An exception of a collaborator stops the body with that exception. *)
Definition halts_raise (ev : event Json Element) : option (Z + exn) :=
  inr <$> raised ev.

(** A falsy diff stops the body with the code -1. *)
Definition halts_falsy_diff (ev : event Json Element) : option (Z + exn) :=
  if answers_falsy_diff ev then Some (inl (-1)) else None.

(** The event is a call of [get_changeset]. *)
Definition is_get_changeset_call (ev : event Json Element) : bool :=
  match ev with
  | Call_get_changeset _ => true
  | _ => false
  end.

(** The event is the print of a warning of the inverter. *)
Definition is_warning (ev : event Json Element) : Prop :=
  match ev with
  | Print (MsgVerify _ _) => True
  | _ => False
  end.

(** After a warning, a piece of the body only prints, and it returns
    0. *)
Definition warns_late {A} (m : @M Json Element A) : Prop :=
  ∀ pre ev post,
    trace m = (pre ++ ev :: post)%list → is_warning ev →
    Forall (in_kinds [KPrint]) post ∧ result m = Return 0.

(** The diffs that the history client answered to the calls among
    [tr], in their order: the answers that are not falsy. *)
Definition history_answers (tr : list (event Json Element))
  : list (gmap string (list DiffEntry)) :=
  omap (fun ev =>
          match ev with
          | Call_get_changeset_elements_history changeset steps query_filter =>
              match get_changeset_elements_history env changeset steps
                      query_filter with
              | inr (Some diff) => if truthy_diff (Some diff) then Some diff else None
              | _ => None
              end
          | _ => None
          end) tr.

End RunNotions.

Section LoopNotions.

Context {Json Element OsmChange : Type}.
Variable env : Env Json Element OsmChange.
Variable args : Args.

(** The calls of the loop that downloads the changesets. *)
Definition loop_call (ue : Z) (um : bool) (ev : event Json Element) : Prop :=
  match ev with
  | Call_get_user user_id =>
      ue < CHANGESETS_LIMIT_MODERATOR_REVERT env ∧ um = false
      ∧ ∃ changeset_id changeset,
          get_changeset env changeset_id = inr changeset
          ∧ user_id = uid changeset
  | Call_get_changeset_elements_history changeset steps filter =>
      changeset_size changeset ≠ 0
      ∧ steps = partition_count changeset + 1
      ∧ filter = query_filter args
      ∧ ∃ changeset_id, get_changeset env changeset_id = inr changeset
  | _ => True
  end.

End LoopNotions.

(** ** Further sample inputs *)

Module Scenario.

(** The collaborators of [base], but for the answers to [get_changeset],
    to the history client and to [upload_diff], and for the warnings of
    the inverter. *)
Definition env (base : Env unit unit unit)
    (changeset : exn + Changeset)
    (history : exn + option (gmap string (list DiffEntry)))
    (warnings : list (string * list string))
    (upload : exn + option string) : Env unit unit unit :=
  {| CHANGESETS_LIMIT_CONFIG := CHANGESETS_LIMIT_CONFIG base;
     CHANGESETS_LIMIT_MODERATOR_REVERT := CHANGESETS_LIMIT_MODERATOR_REVERT base;
     CREATED_BY := CREATED_BY base;
     WEBSITE := WEBSITE base;
     is_osm_moderator := is_osm_moderator base;
     getenv := getenv base;
     json_loads := json_loads base;
     OsmApi := OsmApi base;
     get_authorized_user := get_authorized_user base;
     get_changeset := fun _ => changeset;
     get_user := get_user base;
     get_changeset_elements_history := fun _ _ _ => history;
     invert_diff := fun only_tags diff =>
       match invert_diff base only_tags diff with
       | inr (invert, _, statistics) => inr (invert, warnings, statistics)
       | inl e => inl e
       end;
     update_parents := update_parents base;
     build_osm_change := build_osm_change base;
     unparse := unparse base;
     write_file := write_file base;
     get_changeset_max_size := get_changeset_max_size base;
     upload_diff := fun _ _ _ => upload;
     post_discussion_comment := post_discussion_comment base |}.

Definition history : gmap string (list DiffEntry) :=
  Sample.diff [Sample.entry 10 1; Sample.entry 20 1].

(** The service does not answer for the changeset. *)
Definition env_unreachable : Env unit unit unit :=
  env Sample.env_upload (inl (ServiceError "timeout")) (inr (Some history))
      [] (inr (Some "4242")).

(** The history client answers [None]. *)
Definition env_no_history : Env unit unit unit :=
  env Sample.env_upload (inr (Sample.changeset 2)) (inr None) []
      (inr (Some "4242")).

(** The upload answers no changeset id. *)
Definition env_refused : Env unit unit unit :=
  env Sample.env_upload (inr (Sample.changeset 2)) (inr (Some history)) []
      (inr None).

(** The inverter warns about node 7. *)
Definition env_warning : Env unit unit unit :=
  env Sample.env_upload (inr (Sample.changeset 2)) (inr (Some history))
      [("node", ["7"])] (inr (Some "4242")).

(** [main(ids, 'revert', 'mapper', 'secret', discussion=...,
    discussion_target=..., osc_file=...)]. *)
Definition args (ids : list pyval) (discussion discussion_target : option string)
    (osc_file : option string) : Args :=
  {| changeset_ids := ids; comment := "revert";
     username := Some "mapper"; password := Some "secret";
     oauth_token := None; discussion := discussion;
     discussion_target := discussion_target; osc_file := osc_file;
     print_osc := None; query_filter := ""; only_tags := [] |}.

(** A dictionary that holds list 0 under ['node'], and one that holds
    list 1. *)
Definition first_diff : Objects.dict := [("node", 0%nat)].
Definition second_diff : Objects.dict := [("node", 1%nat)].

(** List 0 holds two entries, list 1 one entry. *)
Definition lists : Objects.store :=
  fun l =>
    match l with
    | 0%nat => [Sample.entry 10 1; Sample.entry 30 2]
    | 1%nat => [Sample.entry 20 3]
    | _ => []
    end.

(** Every list holds one entry. *)
Definition one_entry : Objects.store := fun _ => [Sample.entry 10 1].

(** [main(ids, 'revert', 'mapper', 'secret', oauth_token=...)]. *)
Definition args_token (ids : list pyval) (oauth_token : option string) : Args :=
  {| changeset_ids := ids; comment := "revert";
     username := Some "mapper"; password := Some "secret";
     oauth_token := oauth_token; discussion := None;
     discussion_target := None; osc_file := None;
     print_osc := None; query_filter := ""; only_tags := [] |}.

(** The id [²]: numeric for [isnumeric], refused by [int]. *)
Definition superscript_two : string := String "178" "".

(** The tags of the changeset that reverts changeset 123 for a user with
    500 edits. *)
Definition tags : gmap string pyval :=
  ∅ ∪ extra_args_of Sample.env_upload (Sample.args [PInt 123] None) ["123"] 500.

End Scenario.

(** *** A token by its spelling

    What the claim says of a token, stated on the characters of the token
    itself and with none of the functions of the code above: white space
    around it, a run of ['-'] for the excluded sets or of ['+'] for the
    included ones, a word for the element type in letters of either case,
    separators, and a numeric id. *)

(** Every character of [s] has its code among [codes]. *)
Definition spelled_with (codes : list N) (s : string) : Prop :=
  Forall (fun c => N_of_ascii c ∈ codes) (list_ascii_of_string s).

(** White space below 256: tab to carriage return, the separators 28 to
    31, the space, the next line (133) and the no-break space (160). *)
Definition blank_codes : list N :=
  [9; 10; 11; 12; 13; 28; 29; 30; 31; 32; 133; 160]%N.

(** The numeric characters below 256: the ten digits, the superscripts
    two, three and one, and the three vulgar fractions. *)
Definition numeric_codes : list N :=
  [48; 49; 50; 51; 52; 53; 54; 55; 56; 57; 178; 179; 185; 188; 189; 190]%N.

(** The colon, the semicolon, the full stop and the comma. *)
Definition separator_codes : list N := [58; 59; 46; 44]%N.

Definition minus_code : N := 45%N.
Definition plus_code : N := 43%N.

(** [letters] spells the lower-case [word], each letter in either
    case. *)
Definition spells (word letters : string) : Prop :=
  Forall2 (fun w c => N_of_ascii c = N_of_ascii w
                      ∨ (N_of_ascii c + 32)%N = N_of_ascii w)
          (list_ascii_of_string word) (list_ascii_of_string letters).

(** The words for each element type. *)
Definition type_words : list (string * string) :=
  [ ("node", "nodes"); ("node", "node"); ("node", "n");
    ("way", "ways"); ("way", "way"); ("way", "w");
    ("relation", "relations"); ("relation", "relation");
    ("relation", "rel"); ("relation", "r") ].

(** The token [tok] names the id [id] of an element of type [ty], to
    include or to exclude. *)
Definition token_denotes (tok sign ty id : string) : Prop :=
  ∃ pad1 marks pad2 letters seps pad3 pad4 word,
    tok = pad1 ++ marks ++ pad2 ++ letters ++ seps ++ pad3 ++ id ++ pad4
    ∧ spelled_with blank_codes pad1 ∧ spelled_with blank_codes pad2
    ∧ spelled_with blank_codes pad3 ∧ spelled_with blank_codes pad4
    ∧ ((sign = "exclude" ∧ marks ≠ "" ∧ spelled_with [minus_code] marks)
       ∨ (sign = "include" ∧ spelled_with [plus_code] marks))
    ∧ (ty, word) ∈ type_words ∧ spells word letters
    ∧ spelled_with separator_codes seps
    ∧ id ≠ "" ∧ spelled_with numeric_codes id.

(** *** Classes of characters

    Notions for relating the tests of the code to the codes above. *)

(** A class of characters given by a test of the code and by its
    codes. *)
Definition class_of (p : ascii → bool) (codes : list N) : Prop :=
  ∀ c, p c = true ↔ N_of_ascii c ∈ codes.

(** The codes that no capital letter has and that [lower] leaves and
    produces from nothing else: those of all characters but the
    letters. *)
Definition plain (c : ascii) : bool :=
  negb (PyStr.in_range 65 90 c || PyStr.in_range 97 122 c
        || PyStr.in_range 192 254 c).

(** The small letters. *)
Definition small (c : ascii) : bool := PyStr.in_range 97 122 c.

(** The string is empty or begins with a character that [p] refuses. *)
Definition headed (p : ascii → bool) (s : string) : Prop :=
  match s with
  | EmptyString => True
  | String c _ => p c = false
  end.

(** * Properties *)

(** *** Properties of the token parser *)

Lemma first_prefix_Some value body p :
  first_prefix value body = Some p → p ∈ value ∧ PyStr.startswith body p = true.
Proof.
  induction value as [|q value IH]; simpl; [done|].
  destruct (PyStr.startswith body q) eqn:Hq.
  - intros [= <-]. split; [left | done].
  - intros H. destruct (IH H) as [? ?]. split; [by right | done].
Qed.

Lemma first_prefix_None value body p :
  first_prefix value body = None → p ∈ value → PyStr.startswith body p = false.
Proof.
  induction value as [|q value IH]; simpl; [by intros _ ?%elem_of_nil|].
  destruct (PyStr.startswith body q) eqn:Hq; [done|].
  intros H [->|Hin]%elem_of_cons; [done | by apply IH].
Qed.

Lemma find_prefix_Some ps body ty p :
  find_prefix ps body = Some (ty, p) →
  ∃ value, (ty, value) ∈ ps ∧ p ∈ value ∧ PyStr.startswith body p = true.
Proof.
  induction ps as [|[ty' value] ps IH]; simpl; [done|].
  destruct (first_prefix value body) as [q|] eqn:Hq.
  - intros [= <- <-]. apply first_prefix_Some in Hq as [? ?].
    exists value. split; [left | done].
  - intros H. destruct (IH H) as (v & ? & ? & ?).
    exists v. split; [by right | done].
Qed.

Lemma find_prefix_None ps body ty value p :
  find_prefix ps body = None → (ty, value) ∈ ps → p ∈ value →
  PyStr.startswith body p = false.
Proof.
  induction ps as [|[ty' value'] ps IH]; simpl; [by intros _ ?%elem_of_nil|].
  destruct (first_prefix value' body) as [q|] eqn:Hq; [done|].
  intros H [[= <- <-]|Hin]%elem_of_cons Hp.
  - by eapply first_prefix_None.
  - by apply IH.
Qed.

(** The prefixes of different element types never match the same token:
    they start with different letters. *)
Lemma find_prefix_type_unique body ty p ty' value' p' :
  find_prefix prefixes body = Some (ty, p) →
  (ty', value') ∈ prefixes → p' ∈ value' →
  PyStr.startswith body p' = true → ty' = ty.
Proof.
  intros Hfind Hty Hp Hsw.
  unfold prefixes in Hty.
  repeat (apply elem_of_cons in Hty as [Hty|Hty]; [injection Hty as -> ->|]);
    [| | |by apply elem_of_nil in Hty].
  all: repeat (apply elem_of_cons in Hp as [->|Hp]); try by apply elem_of_nil in Hp.
  all: destruct body as [|c body]; simpl in Hsw; [discriminate|].
  all: apply andb_true_iff in Hsw as [Hc _]; apply Ascii.eqb_eq in Hc; subst c.
  all: simpl in Hfind; repeat case_match; congruence.
Qed.

Lemma well_keyed_empty : well_keyed empty_element_ids.
Proof.
  intros sign ty Hs Ht. unfold signs, element_types in *.
  repeat (apply elem_of_cons in Hs as [->|Hs]); try by apply elem_of_nil in Hs.
  all: repeat (apply elem_of_cons in Ht as [->|Ht]); try by apply elem_of_nil in Ht.
  all: vm_compute; eauto.
Qed.

Lemma startswith_app s p :
  PyStr.startswith s p = true → s = p ++ PyStr.drop (String.length p) s.
Proof.
  revert s. induction p as [|b p IH]; intros [|a s]; simpl; try done.
  intros [Hab Hs]%andb_true_iff. apply Ascii.eqb_eq in Hab as ->.
  change (String b p ++ ?x) with (String b (p ++ x)).
  f_equal. by apply IH.
Qed.

Lemma startswith_prefix p rest : PyStr.startswith (p ++ rest) p = true.
Proof.
  induction p as [|b p IH]; simpl; [by destruct rest|].
  by rewrite Ascii.eqb_refl, IH.
Qed.

Lemma classify_denotes tok sign ty id :
  classify tok = inr (sign, ty, id) → denotes tok sign ty id.
Proof.
  unfold classify, split_sign, classify_body, denotes.
  destruct (PyStr.startswith (PyStr.lower (PyStr.strip tok)) "-"); cbv zeta.
  all: match goal with
       | |- context [find_prefix prefixes ?b] =>
           destruct (find_prefix prefixes b) as [[ty0 p0]|] eqn:Hfind; [|done];
           destruct (find_prefix_Some _ _ _ _ Hfind) as (value & Hv & Hp & Hsw)
       end.
  all: case_match eqn:Hnum; [|done]; intros [= <- <- <-].
  all: split; [done|]; split; [done|].
  all: eexists value, p0, _; split; [done|]; split; [done|].
  all: split; [by apply startswith_app | done].
Qed.

Lemma startswith_nil s : PyStr.startswith s "" = true.
Proof. by destruct s. Qed.

Lemma append_cons c p rest : String c p ++ rest = String c (p ++ rest).
Proof. reflexivity. Qed.

Lemma append_nil rest : "" ++ rest = rest.
Proof. reflexivity. Qed.

Lemma classify_body_complete sign ty value prefix rest :
  (ty, value) ∈ prefixes → prefix ∈ value →
  PyStr.isnumeric (PyStr.lstrip (PyStr.lstrip_chars ":;.," rest)) = true →
  classify_body sign (prefix ++ rest)
  = inr (sign, ty, PyStr.lstrip (PyStr.lstrip_chars ":;.," rest)).
Proof.
  intros Hty Hp Hnum. unfold prefixes in Hty.
  repeat (apply elem_of_cons in Hty as [Hty|Hty]; [injection Hty as -> ->|]);
    [| | |by apply elem_of_nil in Hty].
  all: repeat (apply elem_of_cons in Hp as [->|Hp]); try by apply elem_of_nil in Hp.
  all: unfold classify_body; rewrite !append_cons, append_nil.
  all: cbn -[PyStr.isnumeric PyStr.lstrip PyStr.lstrip_chars PyStr.title].
  all: try (rewrite Hnum; reflexivity).
  all: rewrite ?startswith_nil.
  all: repeat match goal with
         | |- context [PyStr.startswith ?r ?p] =>
             destruct (PyStr.startswith r p) eqn:?
         end.
  all: cbn -[PyStr.isnumeric PyStr.lstrip PyStr.lstrip_chars PyStr.title].
  all: try (rewrite Hnum; reflexivity).
  all: exfalso.
  all: repeat match goal with
         | H : PyStr.startswith _ _ = true |- _ =>
             apply startswith_app in H; rewrite H in Hnum; clear H
         end.
  all: rewrite ?append_cons, ?append_nil in Hnum.
  all: try discriminate Hnum.
Qed.

Lemma denotes_classify tok sign ty id :
  denotes tok sign ty id → classify tok = inr (sign, ty, id).
Proof.
  unfold classify, split_sign, denotes. cbv zeta.
  intros (-> & Hnum & value & prefix & rest & Hty & Hp & Hbody & ->).
  destruct (PyStr.startswith (PyStr.lower (PyStr.strip tok)) "-");
    rewrite Hbody; by eapply classify_body_complete.
Qed.

Lemma denotes_keys tok sign ty id :
  denotes tok sign ty id → sign ∈ signs ∧ ty ∈ element_types.
Proof.
  intros (-> & _ & value & prefix & rest & Hty & _). split.
  - unfold signs. case_match; repeat constructor.
  - unfold prefixes in Hty. unfold element_types.
    repeat (apply elem_of_cons in Hty as [Hty|Hty];
            [injection Hty as <- _; repeat constructor|]).
    by apply elem_of_nil in Hty.
Qed.

(** A token denotes at most one target, element type and id. *)
Lemma denotes_functional tok sign ty id sign' ty' id' :
  denotes tok sign ty id → denotes tok sign' ty' id' →
  sign' = sign ∧ ty' = ty ∧ id' = id.
Proof.
  intros H1%denotes_classify H2%denotes_classify.
  rewrite H1 in H2. by injection H2 as -> -> ->.
Qed.

Lemma ids_of_add_id result sign ty id sign' ty' :
  well_keyed result → sign ∈ signs → ty ∈ element_types →
  ids_of (add_id sign ty id result) sign' ty'
  = if decide (sign' = sign ∧ ty' = ty)
    then {[id]} ∪ ids_of result sign' ty'
    else ids_of result sign' ty'.
Proof.
  intros Hwk Hs Ht. unfold ids_of, add_id.
  destruct (Hwk sign ty Hs Ht) as [s Hlk].
  destruct (result !! sign) as [m|] eqn:Hm; simpl in Hlk; [|done].
  case_decide as Hd.
  - destruct Hd as [-> ->]. rewrite lookup_alter_eq, Hm. simpl.
    by rewrite lookup_alter_eq, Hlk.
  - destruct (decide (sign' = sign)) as [->|Hne].
    + rewrite lookup_alter_eq, Hm. simpl.
      rewrite lookup_alter_ne; [done|]. naive_solver.
    + by rewrite lookup_alter_ne.
Qed.

Lemma well_keyed_add_id result sign ty id :
  well_keyed result → well_keyed (add_id sign ty id result).
Proof.
  intros Hwk sign' ty' Hs Ht. destruct (Hwk sign' ty' Hs Ht) as [s Hlk].
  unfold add_id.
  destruct (result !! sign') as [m|] eqn:Hm; simpl in Hlk; [|done].
  destruct (decide (sign' = sign)) as [->|Hne].
  - rewrite lookup_alter_eq, Hm. simpl.
    destruct (decide (ty' = ty)) as [->|Hne'].
    + rewrite lookup_alter_eq, Hlk. by eexists.
    + rewrite lookup_alter_ne by done. by eexists.
  - rewrite lookup_alter_ne, Hm by done. simpl. by eexists.
Qed.

Lemma ids_of_empty sign ty : ids_of empty_element_ids sign ty = ∅.
Proof.
  unfold ids_of, empty_element_ids, empty_by_type.
  destruct (decide (sign = "include")) as [->|?];
    [|destruct (decide (sign = "exclude")) as [->|?]].
  3: by rewrite !lookup_insert_ne, lookup_empty by done.
  all: rewrite ?lookup_insert_eq, ?(lookup_insert_ne _ "include" "exclude"),
         ?lookup_insert_eq by done; simpl.
  all: destruct (decide (ty = "node")) as [->|?];
         [by rewrite lookup_insert_eq|rewrite lookup_insert_ne by done].
  all: destruct (decide (ty = "way")) as [->|?];
         [by rewrite lookup_insert_eq|rewrite lookup_insert_ne by done].
  all: destruct (decide (ty = "relation")) as [->|?];
         [by rewrite lookup_insert_eq|by rewrite lookup_insert_ne, lookup_empty by done].
Qed.

(** The loop from any well-keyed dictionary: on success the sets have
    grown by what the tokens denote, on failure the first token that
    denotes nothing raised. *)
Lemma parse_tokens_spec toks : ∀ result, well_keyed result →
  match parse_tokens result toks with
  | inr d =>
      well_keyed d
      ∧ (∀ tok, tok ∈ toks → ∃ sign ty id, denotes tok sign ty id)
      ∧ (∀ sign ty id, id ∈ ids_of d sign ty ↔
           id ∈ ids_of result sign ty
           ∨ ∃ tok, tok ∈ toks ∧ denotes tok sign ty id)
  | inl e =>
      ∃ pre tok post, toks = (pre ++ tok :: post)%list
        ∧ (∀ t, t ∈ pre → ∃ sign ty id, denotes t sign ty id)
        ∧ (∀ sign ty id, ¬ denotes tok sign ty id)
        ∧ classify tok = inl e
  end.
Proof.
  induction toks as [|tok toks IH]; intros result Hwk; simpl.
  { split; [done|]. split; [by intros ? ?%elem_of_nil|].
    intros sign ty id. split; [by left|].
    intros [?|(? & ?%elem_of_nil & _)]; done. }
  unfold parse_token. destruct (classify tok) as [e|[[sign ty] id]] eqn:Hc.
  { exists [], tok, toks. split; [done|]. split; [by intros ? ?%elem_of_nil|].
    split; [|done]. intros sg t i Hd%denotes_classify. congruence. }
  apply classify_denotes in Hc as Hd.
  destruct (denotes_keys _ _ _ _ Hd) as [Hs Ht].
  specialize (IH _ (well_keyed_add_id _ sign ty id Hwk)).
  destruct (parse_tokens (add_id sign ty id result) toks) as [e|d].
  - destruct IH as (pre & t & post & -> & Hpre & Hbad & Herr).
    exists (tok :: pre), t, post. split; [done|]. split; [|done].
    intros t' [->|Hin]%elem_of_cons; eauto.
  - destruct IH as (Hwk' & Hall & Hmem). split; [done|]. split.
    + intros t' [->|Hin]%elem_of_cons; eauto.
    + intros sg t i. rewrite Hmem, ids_of_add_id by done.
      case_decide as Hdec.
      * destruct Hdec as [-> ->]. rewrite elem_of_union, elem_of_singleton.
        split.
        -- intros [[->|?]|(t' & ? & ?)]; [right|by left|right].
           ++ exists tok. split; [left|done].
           ++ exists t'. split; [by right|done].
        -- intros [?|(t' & [->|?]%elem_of_cons & Hd')]; [by left; right| |].
           ++ destruct (denotes_functional _ _ _ _ _ _ _ Hd Hd') as (_ & _ & ->).
              by left; left.
           ++ right. by exists t'.
      * split.
        -- intros [?|(t' & ? & ?)]; [by left|right].
           exists t'. split; [by right|done].
        -- intros [?|(t' & [->|?]%elem_of_cons & Hd')]; [by left| |].
           ++ destruct (denotes_functional _ _ _ _ _ _ _ Hd Hd') as (-> & -> & _).
              by destruct Hdec.
           ++ right. by exists t'.
Qed.

Lemma classify_raises tok e :
  classify tok = inl e → ∃ msg, e = Exception msg.
Proof.
  unfold classify, classify_body. destruct (split_sign tok) as [sign body].
  repeat case_match; intros [= <-]; eauto.
Qed.

(** *** The sort *)

Lemma insert_newest_first_perm x l : insert_newest_first x l ≡ₚ x :: l.
Proof.
  induction l as [|y l IH]; simpl; [done|].
  case_match; [|done]. rewrite IH. apply Permutation_swap.
Qed.

Lemma sorted_newest_first_perm l : sorted_newest_first l ≡ₚ l.
Proof.
  induction l as [|x l IH]; simpl; [done|].
  by rewrite insert_newest_first_perm, IH.
Qed.

Lemma insert_newest_first_sorted x l :
  StronglySorted not_older l → StronglySorted not_older (insert_newest_first x l).
Proof.
  induction 1 as [|y l Hl IH Hy]; simpl.
  { repeat constructor. }
  destruct (Z.ltb_spec (timestamp x) (timestamp y)).
  - constructor; [done|]. rewrite insert_newest_first_perm.
    constructor; [unfold not_older; lia | done].
  - constructor; [by constructor|].
    constructor; [done|].
    eapply Forall_impl; [exact Hy|]. unfold not_older. intros; lia.
Qed.

Lemma sorted_newest_first_sorted l :
  StronglySorted not_older (sorted_newest_first l).
Proof.
  induction l; simpl; [constructor | by apply insert_newest_first_sorted].
Qed.

Lemma insert_newest_first_stable t x l :
  StronglySorted not_older l →
  filter (fun e => timestamp e = t) (insert_newest_first x l)
  = filter (fun e => timestamp e = t) (x :: l).
Proof.
  induction 1 as [|y l Hl IH Hy]; simpl; [done|].
  destruct (Z.ltb_spec (timestamp x) (timestamp y)); [|done].
  rewrite !filter_cons, IH, filter_cons.
  repeat case_decide; try done; lia.
Qed.

Lemma sorted_newest_first_stable t l :
  filter (fun e => timestamp e = t) (sorted_newest_first l)
  = filter (fun e => timestamp e = t) l.
Proof.
  induction l as [|x l IH]; simpl; [done|].
  rewrite insert_newest_first_stable by apply sorted_newest_first_sorted.
  by rewrite !filter_cons, IH.
Qed.

(** *** The merge *)

Lemma merge_diff_spec (result diff : gmap string (list DiffEntry)) :
  match merge_diff result diff with
  | inr result' =>
      dom diff ⊆ dom result
      ∧ ∀ ty, result' !! ty
              = (fun l => (l ++ default [] (diff !! ty))%list) <$> result !! ty
  | inl e => e = KeyError ∧ ¬ dom diff ⊆ dom result
  end.
Proof.
  unfold merge_diff.
  apply (map_fold_weak_ind (fun acc (m : gmap string (list DiffEntry)) =>
    match acc with
    | inr result' =>
        dom m ⊆ dom result
        ∧ ∀ ty, result' !! ty
                = (fun l => (l ++ default [] (m !! ty))%list) <$> result !! ty
    | inl e => e = KeyError ∧ ¬ dom m ⊆ dom result
    end)).
  - split; [set_solver|]. intros ty. rewrite lookup_empty. simpl.
    destruct (result !! ty); simpl; [|done]. by rewrite app_nil_r.
  - intros i x m [e|r] Hi; simpl.
    + intros [-> Hn]. split; [done|]. rewrite dom_insert. set_solver.
    + intros [Hsub Hlk]. pose proof (Hlk i) as Hlki. rewrite Hi in Hlki.
      destruct (result !! i) as [l|] eqn:Hri; simpl in Hlki; rewrite Hlki.
      * split.
        { rewrite dom_insert. apply elem_of_dom_2 in Hri. set_solver. }
        intros ty. destruct (decide (ty = i)) as [->|Hne].
        -- rewrite !lookup_insert_eq, Hri. simpl. by rewrite app_nil_r.
        -- rewrite !lookup_insert_ne by done. apply Hlk.
      * split; [done|]. rewrite dom_insert.
        apply not_elem_of_dom in Hri. set_solver.
Qed.

Lemma merge_diffs_spec rest : ∀ first : gmap string (list DiffEntry),
  match merge_diffs first rest with
  | inr result =>
      keys_covered first rest
      ∧ ∀ ty, result !! ty
              = (fun l => (l ++ entries_of ty rest)%list) <$> first !! ty
  | inl e => e = KeyError ∧ ¬ keys_covered first rest
  end.
Proof.
  unfold keys_covered, entries_of.
  induction rest as [|d rest IH]; intros first; simpl.
  { split; [constructor|]. intros ty.
    destruct (first !! ty); simpl; [|done]. by rewrite app_nil_r. }
  pose proof (merge_diff_spec first d) as Hd.
  destruct (merge_diff first d) as [e|r].
  { destruct Hd as [-> Hn]. split; [done|]. by intros [? _]%Forall_cons. }
  destruct Hd as [Hsub Hlk]. specialize (IH r).
  assert (dom r = dom first) as Hdom.
  { apply set_eq. intros ty. rewrite !elem_of_dom, Hlk.
    destruct (first !! ty); simpl; split; intros [? ?]; done || eauto. }
  rewrite Hdom in IH.
  destruct (merge_diffs r rest) as [e|r'].
  - destruct IH as [-> Hn]. split; [done|]. by intros [_ ?]%Forall_cons.
  - destruct IH as [Hall Hlk']. split; [by constructor|].
    intros ty. rewrite Hlk', Hlk.
    destruct (first !! ty); simpl; [|done]. by rewrite app_assoc.
Qed.

(** [merge_and_sort_diffs] returns exactly on the non-empty lists whose
    later diffs bring no element type the first one lacks. *)
Lemma merge_and_sort_diffs_returns diffs :
  (∃ result, merge_and_sort_diffs diffs = inr result)
  ↔ ∃ first rest, diffs = first :: rest ∧ keys_covered first rest.
Proof.
  destruct diffs as [|first rest]; simpl.
  { split; [intros [? ?]; done | intros (? & ? & ? & _); done]. }
  pose proof (merge_diffs_spec rest first) as H.
  destruct (merge_diffs first rest) as [e|r].
  - destruct H as [_ Hn]. split; [intros [? ?]; done|].
    intros (? & ? & [= <- <-] & ?). done.
  - destruct H as [Hc _]. split; eauto.
Qed.

Lemma merge_and_sort_diffs_lookup first rest :
  keys_covered first rest →
  ∃ result, merge_and_sort_diffs (first :: rest) = inr result
    ∧ dom result = dom first
    ∧ ∀ ty, ty ∈ dom first →
        result !! ty = Some (sorted_newest_first (entries_of ty (first :: rest))).
Proof.
  intros Hc. simpl. pose proof (merge_diffs_spec rest first) as H.
  destruct (merge_diffs first rest) as [e|r]; [by destruct H|].
  destruct H as [_ Hlk]. eexists. split; [done|]. split.
  - rewrite dom_fmap_L. apply set_eq. intros ty. rewrite !elem_of_dom, Hlk.
    destruct (first !! ty); simpl; split; intros [? ?]; done || eauto.
  - intros ty [l Hl]%elem_of_dom. rewrite lookup_fmap, Hlk, Hl. simpl.
    unfold entries_of. simpl. by rewrite Hl.
Qed.

(** ** Runs of [main] *)

Section Runs.

Context {Json Element OsmChange : Type}.

Abbreviation M := (@M Json Element).
Abbreviation event := (event Json Element).

(** *** Sequencing *)

Lemma trace_bind {A B} (m : M A) (f : A → M B) :
  trace (m ≫= f)
  = (trace m ++ match result m with
                | Normal a => trace (f a)
                | _ => []
                end)%list.
Proof.
  destruct m as [tr [a|c|e]]; simpl; rewrite ?app_nil_r; try done.
  unfold trace. by destruct (f a).
Qed.

Lemma result_bind {A B} (m : M A) (f : A → M B) :
  result (m ≫= f)
  = match result m with
    | Normal a => result (f a)
    | Return c => Return c
    | Raise e => Raise e
    end.
Proof.
  destruct m as [tr [a|c|e]]; simpl; try done.
  unfold result. by destruct (f a).
Qed.

Lemma bind_assoc {A B C} (m : M A) (f : A → M B) (g : B → M C) :
  (m ≫= f) ≫= g = m ≫= (fun a => f a ≫= g).
Proof.
  destruct m as [tr [a|c|e]]; simpl; try done.
  destruct (f a) as [tr' [b|c|e]]; simpl; try done.
  destruct (g b) as [tr'' o]. by rewrite app_assoc.
Qed.

Lemma ret_bind {A B} (a : A) (f : A → M B) : mret a ≫= f = f a.
Proof. unfold mret, M_ret, ret. simpl. by destruct (f a). Qed.

Lemma M_eta {A} (m : M A) : m = (trace m, result m).
Proof. by destruct m. Qed.

Lemma trace_print_bind {B} msg (f : unit → M B) :
  trace (print msg ≫= f) = Print msg :: trace (f tt).
Proof. by rewrite trace_bind. Qed.

Lemma result_print_bind {B} msg (f : unit → M B) :
  result (print msg ≫= f) = result (f tt).
Proof. by rewrite result_bind. Qed.

Lemma trace_prints_bind {B} msgs (f : unit → M B) :
  trace (prints msgs ≫= f) = (map Print msgs ++ trace (f tt))%list.
Proof. by rewrite trace_bind. Qed.

Lemma result_prints_bind {B} msgs (f : unit → M B) :
  result (prints msgs ≫= f) = result (f tt).
Proof. by rewrite result_bind. Qed.

Lemma trace_call_bind {A B} ev (answer : exn + A) (f : A → M B) :
  trace (call ev answer ≫= f)
  = ev :: match answer with inr a => trace (f a) | inl _ => [] end.
Proof. rewrite trace_bind. by destruct answer. Qed.

Lemma result_call_bind {A B} ev (answer : exn + A) (f : A → M B) :
  result (call ev answer ≫= f)
  = match answer with inr a => result (f a) | inl e => Raise e end.
Proof. rewrite result_bind. by destruct answer. Qed.

Lemma trace_lift_bind {A B} (r : exn + A) (f : A → M B) :
  trace (lift r ≫= f) = match r with inr a => trace (f a) | inl _ => [] end.
Proof. rewrite trace_bind. by destruct r. Qed.

Lemma result_lift_bind {A B} (r : exn + A) (f : A → M B) :
  result (lift r ≫= f)
  = match r with inr a => result (f a) | inl e => Raise e end.
Proof. rewrite result_bind. by destruct r. Qed.

Lemma trace_assert_bind {B} b msg (f : unit → M B) :
  trace (assert b msg ≫= f) = if b then trace (f tt) else [].
Proof. rewrite trace_bind. by destruct b. Qed.

Lemma result_assert_bind {B} b msg (f : unit → M B) :
  result (assert b msg ≫= f)
  = if b then result (f tt) else Raise (AssertionError msg).
Proof. rewrite result_bind. by destruct b. Qed.

Lemma trace_when_bind {B} b (m : M unit) (f : unit → M B) :
  trace (when b m ≫= f) = if b then trace (m ≫= f) else trace (f tt).
Proof. destruct b; [done|]. by rewrite trace_bind. Qed.

Lemma result_when_bind {B} b (m : M unit) (f : unit → M B) :
  result (when b m ≫= f) = if b then result (m ≫= f) else result (f tt).
Proof. destruct b; [done|]. by rewrite result_bind. Qed.

(** *** Events a piece of the body is confined to *)

Lemma only_bind {A B} (P : event → Prop) (m : M A) (f : A → M B) :
  only P m → (∀ a, only P (f a)) → only P (m ≫= f).
Proof.
  unfold only. intros Hm Hf. rewrite trace_bind. apply Forall_app.
  split; [done|]. destruct (result m); [apply Hf | constructor..].
Qed.

Lemma only_nil {A} (P : event → Prop) (o : outcome A) :
  only P (([], o) : M A).
Proof. constructor. Qed.

Lemma only_print (P : event → Prop) msg : P (Print msg) → only P (print msg).
Proof. intros. by repeat constructor. Qed.

Lemma only_prints (P : event → Prop) msgs :
  (∀ msg, P (Print msg)) → only P (prints msgs).
Proof.
  intros H. unfold only. simpl. apply Forall_forall.
  intros ev (msg & -> & _)%list_elem_of_fmap. apply H.
Qed.

Lemma only_call {A} (P : event → Prop) ev (answer : exn + A) : P ev → only P (call ev answer).
Proof. intros. by repeat constructor. Qed.

Lemma only_lift {A} (P : event → Prop) (r : exn + A) : only P (lift r).
Proof. constructor. Qed.

Lemma only_when (P : event → Prop) b (m : M unit) : only P m → only P (when b m).
Proof. destruct b; [done|]. intros _. constructor. Qed.

Lemma only_assert (P : event → Prop) b msg : only P (assert b msg).
Proof. destruct b; constructor. Qed.

Lemma only_prepend {A} (P : event → Prop) tr (m : M A) :
  Forall P tr → only P m → only P (prepend tr m).
Proof. intros. by apply Forall_app. Qed.

Lemma only_elem_of {A} (P : event → Prop) (m : M A) ev : only P m → ev ∈ trace m → P ev.
Proof. unfold only. rewrite Forall_forall. auto. Qed.

Lemma only_impl {A} (P Q : event → Prop) (m : M A) :
  only P m → (∀ ev, P ev → Q ev) → only Q m.
Proof. unfold only. intros. by eapply Forall_impl. Qed.

Lemma in_kinds_weaken ks ks' (ev : event) :
  ks ⊆ ks' → in_kinds ks ev → in_kinds ks' ev.
Proof. unfold in_kinds. set_solver. Qed.

Lemma early_in_kinds (ev : event) :
  early ev →
  in_kinds [KPrint; KOsmApi; KAuthorizedUser; KGetChangeset; KGetUser; KHistory] ev.
Proof. by intros [? _]. Qed.

End Runs.

Ltac kind_elem := repeat constructor.

(** Splits a membership in an explicit list into its cases. *)
Ltac elem_inv H :=
  repeat (apply elem_of_cons in H as [H|H]; [try discriminate H; simplify_eq|]);
  try (by apply elem_of_nil in H).

(** Decides that an event is one a piece of the body is confined to. *)
Ltac event_ok :=
  first
    [ by (unfold in_kinds; simpl; repeat constructor)
    | by (split; [simpl; repeat constructor | split; congruence]) ].

(** Walks through a piece of the body, one bind at a time. *)
Ltac only_step :=
  first
    [ apply only_bind; [|intros]
    | apply only_print; event_ok
    | apply only_prints; intros; event_ok
    | apply only_call; event_ok
    | apply only_lift
    | apply only_assert
    | apply only_when
    | apply only_nil
    | match goal with
      | |- only _ (if ?b then _ else _) => destruct b
      | |- only _ (match ?x with _ => _ end) => destruct x
      | |- only _ (let '(_, _) := ?x in _) => destruct x
      end ].

Section MainPhases.

Context {Json Element OsmChange : Type}.
Variable env : Env Json Element OsmChange.
Variable args : Args.

Lemma only_prelude : only early (prelude env args).
Proof. unfold prelude, validate_ids, login, check_limits. repeat only_step. Qed.

Lemma only_prelude_kinds :
  only (in_kinds [KPrint; KOsmApi; KAuthorizedUser]) (prelude env args).
Proof. unfold prelude, validate_ids, login, check_limits. repeat only_step. Qed.

Lemma only_check_moderator ue um cs : only early (check_moderator env ue um cs).
Proof. unfold check_moderator. repeat only_step. Qed.

Lemma only_retrieve cs diffs : only early (retrieve env args cs diffs).
Proof. unfold retrieve. repeat only_step. Qed.

Lemma only_download_one ue um id diffs :
  only early (download_one env args ue um id diffs).
Proof.
  unfold download_one.
  repeat first [apply only_check_moderator | apply only_retrieve | only_step].
Qed.

Lemma only_download ue um ids : ∀ diffs,
  only early (download env args ue um ids diffs).
Proof.
  induction ids as [|id ids IH]; intros diffs; cbn [download];
    [apply only_nil|].
  apply only_bind; [apply only_download_one | done].
Qed.

Lemma only_download_kinds ue um ids : ∀ diffs,
  only (in_kinds [KPrint; KGetChangeset; KGetUser; KHistory])
       (download env args ue um ids diffs).
Proof.
  induction ids as [|id ids IH]; intros diffs; cbn [download];
    [apply only_nil|].
  apply only_bind; [|done].
  unfold download_one, check_moderator, retrieve. repeat only_step.
Qed.

Lemma only_discuss ids : ∀ i total text,
  only (in_kinds [KPrint; KDiscuss]) (discuss env i total ids text).
Proof.
  induction ids as [|id ids IH]; intros i total text; cbn [discuss];
    [apply only_nil|].
  repeat first [apply IH | only_step].
Qed.

Lemma only_save inv w n :
  only (in_kinds [KPrint; KBuild; KWrite]) (save env args inv w n).
Proof. unfold save, print_warn_elements. repeat only_step. Qed.

Lemma only_after_upload ids w cid :
  only (in_kinds [KPrint; KDiscuss]) (after_upload env args ids w cid).
Proof.
  unfold after_upload, print_warn_elements, filter_discussion_changesets.
  repeat first [apply only_discuss | only_step].
Qed.

Lemma only_upload ids ue inv w st n :
  only (in_kinds [KPrint; KMaxSize; KUpload; KDiscuss])
       (upload env args ids ue inv w st n).
Proof.
  unfold upload. repeat only_step.
  eapply only_impl; [apply only_after_upload|].
  intros ev. apply in_kinds_weaken. set_solver.
Qed.

(** *** The stages of [finish] and [upload], written out *)

Lemma conclude_run ids ue inv w st :
  conclude env args ids ue inv w st
  = if invert_size inv =? 0 then ([Print MsgNothingToRevert], Return 0)
    else if truthy_str (osc_file args) || default false (print_osc args)
    then save env args inv w (invert_size inv)
    else upload env args ids ue inv w st (invert_size inv).
Proof. unfold conclude. cbv zeta. by repeat case_match. Qed.

Lemma finish_run ids tags ue diffs :
  finish env args ids tags ue diffs
  = match merge_and_sort_diffs diffs with
    | inl e => ([Print MsgGenerating], Raise e)
    | inr merged =>
        match invert_diff env tags merged with
        | inl e => ([Print MsgGenerating; Call_invert_diff tags merged], Raise e)
        | inr (inv, w, st) =>
            match update_parents env inv with
            | inl e => ([Print MsgGenerating; Call_invert_diff tags merged;
                         Call_update_parents inv], Raise e)
            | inr (p, inv') =>
                prepend ([Print MsgGenerating; Call_invert_diff tags merged;
                          Call_update_parents inv]
                         ++ if p =? 0 then [] else [Print (MsgFixingParents p)])
                        (conclude env args ids ue inv' w st)
            end
        end
    end.
Proof.
  unfold finish, prepend.
  rewrite (M_eta (_ ≫= _)).
  rewrite trace_print_bind, result_print_bind, trace_lift_bind, result_lift_bind.
  destruct (merge_and_sort_diffs diffs) as [e|merged]; [done|].
  rewrite trace_call_bind, result_call_bind.
  destruct (invert_diff env tags merged) as [e|[[inv w] st]]; [done|].
  rewrite trace_call_bind, result_call_bind.
  destruct (update_parents env inv) as [e|[p inv']]; [done|].
  rewrite trace_when_bind, result_when_bind.
  rewrite trace_print_bind, result_print_bind.
  by destruct (p =? 0).
Qed.

Lemma upload_run ids ue inv w st n :
  upload env args ids ue inv w st n
  = match get_changeset_max_size env with
    | inl e => ([Call_get_changeset_max_size], Raise e)
    | inr cap =>
        if cap <? n
        then ((Call_get_changeset_max_size :: Print (MsgTooBig n cap)
               :: if 1 <? Z.of_nat (length ids) then [Print MsgHintReduce] else [])%list,
              Return (-1))
        else
          let extra := st ∪ extra_args_of env args ids ue in
          match upload_diff env inv (comment args) extra with
          | inl e => ([Call_get_changeset_max_size; Print (MsgUploading n);
                       Call_upload_diff inv (comment args) extra], Raise e)
          | inr cid =>
              prepend [Call_get_changeset_max_size; Print (MsgUploading n);
                       Call_upload_diff inv (comment args) extra]
                      (after_upload env args ids w cid)
          end
    end.
Proof.
  unfold upload, prepend.
  rewrite (M_eta (_ ≫= _)), trace_call_bind, result_call_bind.
  destruct (get_changeset_max_size env) as [e|cap]; [done|].
  destruct (cap <? n).
  - rewrite trace_print_bind, result_print_bind, trace_when_bind, result_when_bind.
    by destruct (1 <? Z.of_nat (length ids)).
  - rewrite trace_print_bind, result_print_bind, trace_call_bind, result_call_bind.
    cbv zeta. by destruct (upload_diff env inv (comment args) _).
Qed.

Lemma only_conclude ids ue inv w st :
  only (in_kinds [KPrint; KBuild; KWrite; KMaxSize; KUpload; KDiscuss])
       (conclude env args ids ue inv w st).
Proof.
  rewrite conclude_run. repeat case_match.
  - by repeat constructor.
  - eapply only_impl; [apply only_save|].
    intros ev. apply in_kinds_weaken. set_solver.
  - eapply only_impl; [apply only_upload|].
    intros ev. apply in_kinds_weaken. set_solver.
Qed.

Lemma only_finish ids tags ue diffs :
  only (in_kinds [KPrint; KInvert; KParents; KBuild; KWrite; KMaxSize;
                  KUpload; KDiscuss])
       (finish env args ids tags ue diffs).
Proof.
  rewrite finish_run. repeat case_match; try by repeat constructor.
  all: apply only_prepend; [simpl; repeat (constructor; [event_ok|]); constructor|].
  all: eapply only_impl; [apply only_conclude|].
  all: intros ev; apply in_kinds_weaken; set_solver.
Qed.

(** *** The three phases of [main] *)

Lemma main_trace :
  trace (main env args)
  = (trace (prelude env args)
     ++ match result (prelude env args) with
        | Normal (ids, tags, ue, um) =>
            trace (download env args ue um ids [])
            ++ match result (download env args ue um ids []) with
               | Normal diffs => trace (finish env args ids tags ue diffs)
               | _ => []
               end
        | _ => []
        end)%list.
Proof.
  unfold main. rewrite trace_bind.
  destruct (result (prelude env args)) as [[[[ids tags] ue] um]|c|e]; [|done..].
  by rewrite trace_bind.
Qed.

Lemma main_result :
  result (main env args)
  = match result (prelude env args) with
    | Normal (ids, tags, ue, um) =>
        match result (download env args ue um ids []) with
        | Normal diffs => result (finish env args ids tags ue diffs)
        | Return c => Return c
        | Raise e => Raise e
        end
    | Return c => Return c
    | Raise e => Raise e
    end.
Proof.
  unfold main. rewrite result_bind.
  destruct (result (prelude env args)) as [[[[ids tags] ue] um]|c|e]; [|done..].
  by rewrite result_bind.
Qed.

(** An event of the log-in in a run of [main]. *)
Lemma main_prelude_event ev :
  ev ∈ trace (main env args) →
  kind_of ev ∈ [KOsmApi; KAuthorizedUser] →
  ev ∈ trace (prelude env args).
Proof.
  rewrite main_trace. intros [Hin|Hin]%elem_of_app Hk; [done|].
  destruct (result (prelude env args)) as [[[[ids tags] ue] um]|c|e];
    [|by apply elem_of_nil in Hin..].
  apply elem_of_app in Hin as [Hin|Hin].
  { apply (only_elem_of _ _ _ (only_download_kinds _ _ _ _)) in Hin.
    unfold in_kinds in Hin.
    exfalso. destruct (kind_of ev); set_solver. }
  destruct (result (download env args ue um ids [])) as [diffs|c|e];
    [|by apply elem_of_nil in Hin..].
  apply (only_elem_of _ _ _ (only_finish _ _ _ _)) in Hin.
  exfalso. unfold in_kinds in Hin. destruct (kind_of ev); set_solver.
Qed.

(** An event of the download loop in a run of [main]. *)
Lemma main_download_event ev :
  ev ∈ trace (main env args) →
  kind_of ev ∈ [KGetChangeset; KGetUser; KHistory] →
  ∃ ids tags ue um,
    result (prelude env args) = Normal (ids, tags, ue, um)
    ∧ ev ∈ trace (download env args ue um ids []).
Proof.
  rewrite main_trace. intros [Hin|Hin]%elem_of_app Hk.
  { apply (only_elem_of _ _ _ only_prelude_kinds) in Hin.
    unfold in_kinds in Hin. destruct (kind_of ev); set_solver. }
  destruct (result (prelude env args)) as [[[[ids tags] ue] um]|c|e];
    [|by apply elem_of_nil in Hin..].
  exists ids, tags, ue, um. split; [done|].
  apply elem_of_app in Hin as [Hin|Hin]; [done|].
  destruct (result (download env args ue um ids [])) as [diffs|c|e];
    [|by apply elem_of_nil in Hin..].
  apply (only_elem_of _ _ _ (only_finish _ _ _ _)) in Hin.
  unfold in_kinds in Hin. destruct (kind_of ev); set_solver.
Qed.

(** An event of the last phase in a run of [main]. *)
Lemma main_finish_event ev :
  ev ∈ trace (main env args) →
  kind_of ev ∈ [KInvert; KParents; KBuild; KWrite; KMaxSize; KUpload; KDiscuss] →
  ∃ ids tags ue um diffs,
    result (prelude env args) = Normal (ids, tags, ue, um)
    ∧ result (download env args ue um ids []) = Normal diffs
    ∧ ev ∈ trace (finish env args ids tags ue diffs)
    ∧ trace (main env args)
      = (trace (prelude env args) ++ trace (download env args ue um ids [])
         ++ trace (finish env args ids tags ue diffs))%list
    ∧ result (main env args) = result (finish env args ids tags ue diffs).
Proof.
  rewrite main_trace, main_result. intros [Hin|Hin]%elem_of_app Hk.
  { apply (only_elem_of _ _ _ only_prelude) in Hin as [Hin _].
    destruct (kind_of ev); set_solver. }
  destruct (result (prelude env args)) as [[[[ids tags] ue] um]|c|e];
    [|by apply elem_of_nil in Hin..].
  exists ids, tags, ue, um.
  apply elem_of_app in Hin as [Hin|Hin].
  { apply (only_elem_of _ _ _ (only_download _ _ _ _)) in Hin as [Hin _].
    destruct (kind_of ev); set_solver. }
  destruct (result (download env args ue um ids [])) as [diffs|c|e];
    [|by apply elem_of_nil in Hin..].
  by exists diffs.
Qed.

(** *** Validation, log-in and limits, written out *)

Lemma validate_ids_trace : trace (validate_ids (Json:=Json) (Element:=Element) args) = [].
Proof.
  unfold validate_ids. cbv zeta.
  rewrite trace_assert_bind. case_match; [|done].
  rewrite trace_assert_bind. by case_match.
Qed.

Lemma validate_ids_result :
  result (validate_ids (Json:=Json) (Element:=Element) args)
  = let ids := normalize_ids (changeset_ids args) in
    if bool_decide (ids = []) then Raise (AssertionError "Missing changeset id")
    else if forallb PyStr.isnumeric ids then Normal ids
    else Raise (AssertionError "Changeset ids must be numeric").
Proof.
  unfold validate_ids. cbv zeta.
  rewrite result_assert_bind. case_bool_decide; [done|]. cbn [negb].
  rewrite result_assert_bind. by case_match.
Qed.

Lemma login_run :
  login env args
  = let '(u, p) :=
      if negb (truthy_str (username args)) && negb (truthy_str (password args))
      then (getenv env "OSM_USERNAME", getenv env "OSM_PASSWORD")
      else (username args, password args) in
    match parse_oauth_token env args with
    | inl e => ([], Raise e)
    | inr tok =>
        match OsmApi env u p tok with
        | inl e => ([Print MsgLoggingIn; Call_OsmApi u p tok], Raise e)
        | inr _ =>
            match get_authorized_user env with
            | inl e => ([Print MsgLoggingIn; Call_OsmApi u p tok;
                         Call_get_authorized_user], Raise e)
            | inr user =>
                ([Print MsgLoggingIn; Call_OsmApi u p tok;
                  Call_get_authorized_user;
                  Print (MsgWelcome (display_name user)
                           (is_osm_moderator env (roles user)))],
                 Normal user)
            end
        end
    end.
Proof.
  unfold login. case_match.
  rewrite (M_eta (_ ≫= _)), trace_lift_bind, result_lift_bind.
  destruct (parse_oauth_token env args) as [e|tok]; [done|].
  rewrite trace_print_bind, result_print_bind, trace_call_bind, result_call_bind.
  destruct (OsmApi env _ _ tok) as [e|[]]; [done|].
  rewrite trace_call_bind, result_call_bind.
  destruct (get_authorized_user env) as [e|user]; [done|].
  by rewrite trace_print_bind, result_print_bind.
Qed.

(** A run of [main] that has fetched the user has passed the validation
    and goes on with the limits of that user. *)
Lemma prelude_user_event user :
  Call_get_authorized_user ∈ trace (prelude env args) →
  get_authorized_user env = inr user →
  ∃ pre,
    Forall (in_kinds [KPrint; KOsmApi; KAuthorizedUser]) pre
    ∧ prelude env args
      = prepend pre
          (check_limits env (normalize_ids (changeset_ids args)) user ≫= fun _ =>
           mret (normalize_ids (changeset_ids args),
                 normalize_tags (only_tags args), changesets_count user,
                 is_osm_moderator env (roles user))).
Proof.
  unfold prelude. intros Hin Hauth.
  rewrite trace_bind, validate_ids_trace in Hin.
  rewrite (M_eta (_ ≫= _)), trace_bind, result_bind, validate_ids_trace.
  rewrite validate_ids_result in *. cbv zeta in *.
  case_bool_decide; [by apply elem_of_nil in Hin|].
  destruct (forallb PyStr.isnumeric _); [|by apply elem_of_nil in Hin].
  simpl in Hin. simpl.
  rewrite trace_bind in Hin. rewrite trace_bind, result_bind.
  rewrite login_run in *.
  destruct (if negb (truthy_str (username args)) && negb (truthy_str (password args))
            then _ else _) as [u p].
  destruct (parse_oauth_token env args) as [e|tok]; [by apply elem_of_nil in Hin|].
  destruct (OsmApi env u p tok) as [e|[]]; [by elem_inv Hin|].
  rewrite Hauth in *.
  exists [Print MsgLoggingIn; Call_OsmApi u p tok; Call_get_authorized_user;
          Print (MsgWelcome (display_name user)
                   (is_osm_moderator env (roles user)))].
  split; [|reflexivity].
  repeat (constructor; [unfold in_kinds; simpl; kind_elem|]). constructor.
Qed.

Lemma check_limits_zero ids user config k :
  limit_config_of env user = inr config →
  changesets_limit_of config (changesets_count user) = inr 0 →
  min_edits_of config = inr k →
  check_limits (Json:=Json) (Element:=Element) env ids user
  = ([Print (MsgNeedEdits k)], Return (-1)).
Proof.
  unfold check_limits. intros H1 H2 H3.
  rewrite H1. simpl. rewrite H2. simpl. by rewrite H3.
Qed.

Lemma check_limits_exceeded ids user config limit :
  limit_config_of env user = inr config →
  changesets_limit_of config (changesets_count user) = inr limit →
  limit ≠ 0 → limit < Z.of_nat (length ids) →
  ∃ hint,
    Forall (in_kinds [KPrint]) hint
    ∧ check_limits (Json:=Json) (Element:=Element) env ids user
      = (Print (MsgChangesetsLimit limit) :: hint, Return (-1)).
Proof.
  unfold check_limits. intros H1 H2 Hne Hlt.
  rewrite H1. simpl. rewrite H2. simpl.
  destruct (Z.eqb_spec limit 0); [done|].
  destruct (Z.ltb_spec limit (Z.of_nat (length ids))); [|lia].
  destruct (limit_increase_of config (changesets_count user)) as [inc|];
    [destruct (negb (inc =? 0))|]; simpl; eexists; (split; [|reflexivity]).
  all: repeat (constructor; [unfold in_kinds; simpl; kind_elem|]); constructor.
Qed.

(** *** One iteration of the download loop, written out *)

Lemma only_check_moderator_kinds ue um cs :
  only (in_kinds [KPrint; KGetUser; KHistory]) (check_moderator env ue um cs).
Proof. unfold check_moderator. repeat only_step. Qed.

Lemma only_retrieve_kinds cs diffs :
  only (in_kinds [KPrint; KGetUser; KHistory]) (retrieve env args cs diffs).
Proof. unfold retrieve. repeat only_step. Qed.

Lemma download_one_run ue um id diffs :
  download_one env args ue um id diffs
  = match PyStr.int id with
    | inl e => ([], Raise e)
    | inr n =>
        match get_changeset env n with
        | inl e => ([Print (MsgDownloading n); Print MsgOsmStart;
                     Call_get_changeset n], Raise e)
        | inr cs =>
            prepend [Print (MsgDownloading n); Print MsgOsmStart;
                     Call_get_changeset n]
              (check_moderator env ue um cs ≫= fun _ =>
               print (MsgOsmSize (partition_count cs + 1) (changeset_size cs))
               ≫= fun _ => retrieve env args cs diffs)
        end
    end.
Proof.
  unfold download_one, prepend.
  rewrite (M_eta (_ ≫= _)), trace_lift_bind, result_lift_bind.
  destruct (PyStr.int id) as [e|n]; [done|].
  rewrite !trace_print_bind, !result_print_bind, trace_call_bind, result_call_bind.
  by destruct (get_changeset env n) as [e|cs].
Qed.

Lemma check_moderator_hit ue cs u :
  ue < CHANGESETS_LIMIT_MODERATOR_REVERT env →
  get_user env (uid cs) = inr (Some u) →
  is_osm_moderator env (roles u) = true →
  check_moderator env ue false cs
  = ([Call_get_user (uid cs); Print MsgModeratorsChangesets], Return (-1)).
Proof.
  unfold check_moderator. intros Hlt Hu Hmod.
  destruct (Z.ltb_spec ue (CHANGESETS_LIMIT_MODERATOR_REVERT env)); [|lia].
  simpl. rewrite Hu. simpl. by rewrite Hmod.
Qed.

Lemma retrieve_zero cs diffs :
  changeset_size cs = 0 → retrieve env args cs diffs = ([], Normal diffs).
Proof. unfold retrieve. by intros ->. Qed.

(** The changesets that declare no element add nothing to [diffs]. *)
Lemma download_one_zero ue um id diffs diffs' :
  result (download_one env args ue um id diffs) = Normal diffs' →
  (∀ n cs, Call_get_changeset n ∈ trace (download_one env args ue um id diffs) →
           get_changeset env n = inr cs → changeset_size cs = 0) →
  diffs' = diffs.
Proof.
  rewrite download_one_run.
  destruct (PyStr.int id) as [e|n]; [done|].
  destruct (get_changeset env n) as [e|cs] eqn:Hcs; [done|].
  unfold prepend. simpl. intros Hres Hzero.
  rewrite retrieve_zero in Hres.
  2:{ apply (Hzero n); [|done]. repeat constructor. }
  rewrite !result_bind in Hres.
  destruct (result (check_moderator env ue um cs)); simpl in Hres; congruence.
Qed.

Lemma download_zero ue um ids : ∀ diffs diffs',
  result (download env args ue um ids diffs) = Normal diffs' →
  (∀ n cs, Call_get_changeset n ∈ trace (download env args ue um ids diffs) →
           get_changeset env n = inr cs → changeset_size cs = 0) →
  diffs' = diffs.
Proof.
  induction ids as [|id ids IH]; intros diffs diffs'; cbn [download].
  { by intros [= ->]. }
  rewrite result_bind, trace_bind.
  destruct (result (download_one env args ue um id diffs)) as [d1|c|e] eqn:H1;
    [|done..].
  intros Hres Hzero.
  assert (d1 = diffs) as ->.
  { eapply download_one_zero; [done|]. intros n cs Hin.
    apply Hzero, elem_of_app. by left. }
  apply IH; [done|]. intros n cs Hin. apply Hzero, elem_of_app. by right.
Qed.

(** A changeset of a moderator, fetched for a user below the moderator
    limit who is no moderator, ends the loop at once. *)
Lemma download_one_moderator ue id diffs n cs u :
  Call_get_changeset n ∈ trace (download_one env args ue false id diffs) →
  get_changeset env n = inr cs →
  ue < CHANGESETS_LIMIT_MODERATOR_REVERT env →
  get_user env (uid cs) = inr (Some u) →
  is_osm_moderator env (roles u) = true →
  result (download_one env args ue false id diffs) = Return (-1)
  ∧ last (trace (download_one env args ue false id diffs))
    = Some (Print MsgModeratorsChangesets).
Proof.
  rewrite download_one_run. intros Hin Hcs Hlt Hu Hmod.
  destruct (PyStr.int id) as [e|n0]; [by apply elem_of_nil in Hin|].
  assert (n0 = n) as ->.
  { destruct (get_changeset env n0) as [e|cs0]; [by elem_inv Hin|].
    unfold prepend in Hin. simpl in Hin.
    repeat (apply elem_of_cons in Hin as [Hin|Hin]; [by simplify_eq|]).
    assert (only (in_kinds [KPrint; KGetUser; KHistory])
              (check_moderator env ue false cs0 ≫= fun _ =>
               print (MsgOsmSize (partition_count cs0 + 1) (changeset_size cs0))
               ≫= fun _ => retrieve env args cs0 diffs)) as Hk.
    { apply only_bind; [apply only_check_moderator_kinds|intros _].
      apply only_bind; [by apply only_print; event_ok|intros _].
      apply only_retrieve_kinds. }
    apply (only_elem_of _ _ _ Hk) in Hin.
    unfold in_kinds in Hin. simpl in Hin. set_solver. }
  rewrite Hcs, (check_moderator_hit ue cs u) by done. done.
Qed.

Lemma download_moderator ue ids : ∀ diffs n cs u,
  Call_get_changeset n ∈ trace (download env args ue false ids diffs) →
  get_changeset env n = inr cs →
  ue < CHANGESETS_LIMIT_MODERATOR_REVERT env →
  get_user env (uid cs) = inr (Some u) →
  is_osm_moderator env (roles u) = true →
  result (download env args ue false ids diffs) = Return (-1)
  ∧ last (trace (download env args ue false ids diffs))
    = Some (Print MsgModeratorsChangesets).
Proof.
  induction ids as [|id ids IH]; intros diffs n cs u; cbn [download].
  { by intros ?%elem_of_nil. }
  rewrite trace_bind, result_bind. intros Hin Hcs Hlt Hu Hmod.
  apply elem_of_app in Hin as [Hin|Hin].
  - destruct (download_one_moderator _ _ _ _ _ _ Hin Hcs Hlt Hu Hmod)
      as [Hres Hlast].
    rewrite Hres, app_nil_r. done.
  - destruct (result (download_one env args ue false id diffs)) as [d1|c|e];
      [|by apply elem_of_nil in Hin..].
    destruct (IH _ _ _ _ Hin Hcs Hlt Hu Hmod) as [Hres Hlast].
    split; [done|]. by rewrite last_app, Hlast.
Qed.

Lemma main_timer_code (m : @M Json Element Empty_set) :
  snd (main_timer m)
  = match result m with
    | Return c => c
    | Raise _ => -2
    | Normal none => match none with end
    end.
Proof. by destruct m as [tr [[]|c|e]]. Qed.

(** The call of [update_parents] in the last phase is the one on the
    inverted diff that [invert_diff] answered. *)
Lemma finish_parents_event ids tags ue diffs inv :
  Call_update_parents inv ∈ trace (finish env args ids tags ue diffs) →
  ∃ merged w st,
    merge_and_sort_diffs diffs = inr merged
    ∧ invert_diff env tags merged = inr (inv, w, st)
    ∧ finish env args ids tags ue diffs
      = match update_parents env inv with
        | inl e => ([Print MsgGenerating; Call_invert_diff tags merged;
                     Call_update_parents inv], Raise e)
        | inr (p, inv') =>
            prepend ([Print MsgGenerating; Call_invert_diff tags merged;
                      Call_update_parents inv]
                     ++ if p =? 0 then [] else [Print (MsgFixingParents p)])
                    (conclude env args ids ue inv' w st)
        end.
Proof.
  rewrite finish_run.
  destruct (merge_and_sort_diffs diffs) as [e|merged].
  { intros Hin. elem_inv Hin. }
  destruct (invert_diff env tags merged) as [e|[[inv0 w] st]] eqn:Hinv.
  { intros Hin. elem_inv Hin. }
  intros Hin. assert (inv = inv0) as ->; [|by exists merged, w, st].
  destruct (update_parents env inv0) as [e|[p inv']].
  { elem_inv Hin. done. }
  unfold prepend in Hin. simpl in Hin.
  repeat (apply elem_of_cons in Hin as [Hin|Hin]; [by simplify_eq|]).
  apply elem_of_app in Hin as [Hin|Hin].
  { destruct (p =? 0); elem_inv Hin. }
  apply (only_elem_of _ _ _ (only_conclude _ _ _ _ _)) in Hin.
  unfold in_kinds in Hin. simpl in Hin. set_solver.
Qed.

(** An event of the saving or upload stage in the last phase. *)
Lemma finish_conclude_event ids tags ue diffs ev :
  ev ∈ trace (finish env args ids tags ue diffs) →
  kind_of ev ∈ [KBuild; KWrite; KMaxSize; KUpload; KDiscuss] →
  ∃ merged inv w st p inv',
    merge_and_sort_diffs diffs = inr merged
    ∧ invert_diff env tags merged = inr (inv, w, st)
    ∧ update_parents env inv = inr (p, inv')
    ∧ ev ∈ trace (conclude env args ids ue inv' w st)
    ∧ finish env args ids tags ue diffs
      = prepend ([Print MsgGenerating; Call_invert_diff tags merged;
                  Call_update_parents inv]
                 ++ if p =? 0 then [] else [Print (MsgFixingParents p)])
                (conclude env args ids ue inv' w st).
Proof.
  rewrite finish_run. intros Hin Hk.
  destruct (merge_and_sort_diffs diffs) as [e|merged].
  { elem_inv Hin. simpl in Hk. set_solver. }
  destruct (invert_diff env tags merged) as [e|[[inv w] st]] eqn:Hinv.
  { elem_inv Hin; simpl in Hk; set_solver. }
  destruct (update_parents env inv) as [e|[p inv']] eqn:Hup.
  { elem_inv Hin; simpl in Hk; set_solver. }
  exists merged, inv, w, st, p, inv'. repeat (split; [done|]).
  split; [|done]. unfold prepend in Hin. simpl in Hin.
  repeat (apply elem_of_cons in Hin as [->|Hin]; [simpl in Hk; set_solver|]).
  apply elem_of_app in Hin as [Hin|Hin]; [|done].
  destruct (p =? 0); elem_inv Hin. simpl in Hk. set_solver.
Qed.

(** The call of [upload_diff]: the cap was fetched and not exceeded. *)
Lemma conclude_upload_event ids ue inv' w st inv c x :
  Call_upload_diff inv c x ∈ trace (conclude env args ids ue inv' w st) →
  inv = inv' ∧ c = comment args ∧ x = st ∪ extra_args_of env args ids ue
  ∧ ∃ cap, get_changeset_max_size env = inr cap
      ∧ invert_size inv' <= cap
      ∧ conclude env args ids ue inv' w st
        = match upload_diff env inv' (comment args) x with
          | inl e => ([Call_get_changeset_max_size;
                       Print (MsgUploading (invert_size inv'));
                       Call_upload_diff inv' (comment args) x], Raise e)
          | inr cid =>
              prepend [Call_get_changeset_max_size;
                       Print (MsgUploading (invert_size inv'));
                       Call_upload_diff inv' (comment args) x]
                      (after_upload env args ids w cid)
          end.
Proof.
  rewrite conclude_run.
  destruct (invert_size inv' =? 0); [intros Hin; elem_inv Hin|].
  destruct (truthy_str (osc_file args) || default false (print_osc args)).
  { intros Hin. apply (only_elem_of _ _ _ (only_save _ _ _)) in Hin.
    unfold in_kinds in Hin. simpl in Hin. set_solver. }
  rewrite upload_run.
  destruct (get_changeset_max_size env) as [e|cap]; [intros Hin; elem_inv Hin|].
  destruct (Z.ltb_spec cap (invert_size inv')) as [Hlt|Hle].
  { intros Hin. repeat (apply elem_of_cons in Hin as [Hin|Hin]; [done|]).
    case_match; elem_inv Hin. }
  cbv zeta. intros Hin.
  assert (@Call_upload_diff Json Element inv c x
          = Call_upload_diff inv' (comment args)
              (st ∪ extra_args_of env args ids ue)) as [= -> -> ->].
  { destruct (upload_diff env inv' (comment args) _) as [e|cid].
    - by elem_inv Hin.
    - unfold prepend in Hin. simpl in Hin.
      repeat (apply elem_of_cons in Hin as [Hin|Hin]; [by simplify_eq|]).
      apply (only_elem_of _ _ _ (only_after_upload _ _ _)) in Hin.
      unfold in_kinds in Hin. simpl in Hin. set_solver. }
  repeat (split; [done|]). by exists cap.
Qed.

Lemma after_upload_none ids w cid :
  truthy_str cid = true → discussion args = None →
  after_upload env args ids w cid = ([], Raise AttributeError).
Proof. unfold after_upload. by intros -> ->. Qed.

Lemma after_upload_short ids w cid text :
  truthy_str cid = true → discussion args = Some text →
  (String.length (PyStr.strip text) < 4)%nat →
  after_upload env args ids w cid
  = ((trace (print_warn_elements (Json:=Json) (Element:=Element) w)
      ++ [Print MsgSuccess;
          Print (MsgChangesetUrl ("https://www.openstreetmap.org/changeset/"
                                  ++ default "" cid))])%list,
     Return 0).
Proof.
  unfold after_upload. intros -> -> Hlen. rewrite ret_bind.
  destruct (Z.leb_spec 4 (Z.of_nat (String.length (PyStr.strip text))));
    [lia|].
  rewrite (M_eta (_ ≫= _)). unfold print_warn_elements.
  by rewrite !trace_bind, !result_bind.
Qed.

(** The run of [main] up to and including a call of [upload_diff]. *)
Lemma main_upload_event inv c x :
  Call_upload_diff inv c x ∈ trace (main env args) →
  ∃ ids w pre,
    (∀ ev, ev ∈ pre → kind_of ev ∉ [KUpload; KDiscuss])
    ∧ main env args
      = match upload_diff env inv c x with
        | inl e => ((pre ++ [Call_upload_diff inv c x])%list, Raise e)
        | inr cid =>
            prepend (pre ++ [Call_upload_diff inv c x])
                    (after_upload env args ids w cid)
        end.
Proof.
  intros Hin.
  destruct (main_finish_event _ Hin ltac:(simpl; kind_elem))
    as (ids & tags & ue & um & diffs & Hpre & Hdl & Hfin & Htr & Hres).
  destruct (finish_conclude_event _ _ _ _ _ Hfin ltac:(simpl; kind_elem))
    as (merged & inv0 & w & st & p & inv' & _ & _ & _ & Hcon & Hrun).
  apply conclude_upload_event in Hcon
    as (-> & -> & Hx & cap & _ & _ & Hcon).
  exists ids, w.
  exists (trace (prelude env args) ++ trace (download env args ue um ids [])
          ++ ([Print MsgGenerating; Call_invert_diff tags merged;
               Call_update_parents inv0]
              ++ (if p =? 0 then [] else [Print (MsgFixingParents p)]))
          ++ [Call_get_changeset_max_size;
              Print (MsgUploading (invert_size inv'))])%list.
  split.
  - intros ev [Hev|[Hev|[Hev|Hev]%elem_of_app]%elem_of_app]%elem_of_app.
    + apply (only_elem_of _ _ _ only_prelude_kinds) in Hev.
      unfold in_kinds in Hev. destruct (kind_of ev); set_solver.
    + apply (only_elem_of _ _ _ (only_download _ _ _ _)) in Hev as [Hev _].
      destruct (kind_of ev); set_solver.
    + repeat (apply elem_of_cons in Hev as [->|Hev]; [simpl; set_solver|]).
      destruct (p =? 0); elem_inv Hev. simpl; set_solver.
    + elem_inv Hev; simpl; set_solver.
  - rewrite (M_eta (main env args)), Htr, Hres, Hrun, Hcon.
    unfold prepend. simpl.
    destruct (upload_diff env inv' (comment args) x) as [e|cid]; simpl.
    + f_equal. rewrite <- !app_assoc. simpl. by rewrite <- !app_assoc.
    + f_equal. rewrite <- !app_assoc. simpl. by rewrite <- !app_assoc.
Qed.

End MainPhases.

(** ** The size check of the download loop *)

Section SizeCheck.

Context {Json Element OsmChange : Type}.
Variable env : Env Json Element OsmChange.
Variable args : Args.

Abbreviation M := (@M Json Element).
Abbreviation event := (event Json Element).

Lemma changeset_size_nonneg cs : 0 <= changeset_size cs.
Proof.
  unfold changeset_size. induction (concat (partition cs)) as [|v l IH]; simpl; lia.
Qed.

(** A diff larger than the changeset has an entry, so it is not falsy. *)
Lemma larger_diff_not_empty cs (diff : gmap string (list DiffEntry)) :
  changeset_size cs < diff_size diff → diff ≠ ∅.
Proof.
  intros Hlt ->. unfold diff_size in Hlt. rewrite map_fold_empty in Hlt.
  pose proof (changeset_size_nonneg cs). lia.
Qed.

Lemma proceeds_not_oversized (ev : event) :
  proceeds env ev → oversized env ev → False.
Proof.
  destruct ev; simpl; try done.
  intros (d & Hd & _ & Hle) (d' & Hd' & _ & Hlt).
  rewrite Hd in Hd'. injection Hd' as <-. lia.
Qed.

Lemma Forall_removelast {A} (P : A → Prop) (l : list A) :
  Forall P l → Forall P (removelast l).
Proof.
  induction 1 as [|x l Hx Hl IH]; simpl; [constructor|].
  destruct l; [constructor | by constructor].
Qed.

Lemma elem_of_removelast_or_last {A} (l : list A) x :
  x ∈ l → x ∈ removelast l ∨ last l = Some x.
Proof.
  destruct l as [|y l _] using rev_ind; [by intros ?%elem_of_nil|].
  rewrite removelast_last, last_snoc, elem_of_app, list_elem_of_singleton.
  naive_solver.
Qed.

Lemma safe_bind {A B} (m : M A) (f : A → M B) :
  safe env m → (∀ a, safe env (f a)) → safe env (m ≫= f).
Proof.
  intros (Hinit & Hnormal & Hover) Hf. unfold safe.
  rewrite trace_bind, result_bind.
  destruct (result m) as [a|c|e] eqn:Hres.
  - specialize (Hnormal a eq_refl).
    destruct (Hf a) as (Hinit' & Hnormal' & Hover'). split; [|split].
    + destruct (trace (f a)) as [|ev tr] eqn:Htr.
      * rewrite app_nil_r. by apply Forall_removelast.
      * rewrite removelast_app by done. apply Forall_app. by split.
    + intros b Hb. apply Forall_app. split; [done|]. by eapply Hnormal'.
    + intros ev [Hev|Hev]%elem_of_app Hbig; [|by eapply Hover'].
      rewrite Forall_forall in Hnormal.
      destruct (proceeds_not_oversized ev); auto.
  - rewrite app_nil_r. split; [done|]. split; [done|].
    intros ev Hev Hbig. destruct (Hover ev Hev Hbig) as [? ?]. congruence.
  - rewrite app_nil_r. split; [done|]. split; [done|].
    intros ev Hev Hbig. destruct (Hover ev Hev Hbig) as [msg ?].
    exists msg. congruence.
Qed.

(** A piece that never calls the history client is safe. *)
Lemma only_safe {A} (m : M A) :
  only (fun ev => kind_of ev ≠ KHistory) m → safe env m.
Proof.
  unfold only. intros Hall.
  assert (Forall (proceeds env) (trace m)) as Hp.
  { eapply Forall_impl; [exact Hall|]. by intros []. }
  split; [by apply Forall_removelast|]. split; [done|].
  intros ev Hev Hbig. rewrite Forall_forall in Hall.
  specialize (Hall ev Hev). by destruct ev.
Qed.

Lemma safe_retrieve cs diffs : safe env (retrieve env args cs diffs).
Proof.
  unfold retrieve. cbv zeta.
  destruct (negb (changeset_size cs =? 0)).
  2:{ apply only_safe. constructor. }
  unfold safe.
  rewrite trace_print_bind, result_print_bind, trace_call_bind, result_call_bind.
  set (steps := partition_count cs + 1).
  destruct (get_changeset_elements_history env cs steps (query_filter args))
    as [e|diff] eqn:Hdiff.
  { split; [by repeat constructor|]. split; [done|].
    intros ev Hev. elem_inv Hev; simpl; [done|].
    intros (d & Hd & _). congruence. }
  destruct (truthy_diff diff) eqn:Htruthy; cbn [negb].
  2:{ split; [by repeat constructor|]. split; [done|].
      intros ev Hev. elem_inv Hev; simpl; [done|].
      intros (d & Hd & Hne & _).
      rewrite Hdiff in Hd. injection Hd as ->. simpl in Htruthy.
      by rewrite bool_decide_false in Htruthy. }
  destruct diff as [d|]; [|done]. simpl in Htruthy.
  apply negb_true_iff, bool_decide_eq_false in Htruthy. cbn [from_option id].
  rewrite trace_assert_bind, result_assert_bind.
  destruct (Z.leb_spec (diff_size d) (changeset_size cs)) as [Hle|Hgt].
  - assert (proceeds env (Call_get_changeset_elements_history
                            cs steps (query_filter args))) as Hp.
    { simpl. by exists d. }
    rewrite trace_print_bind, result_print_bind. simpl.
    split; [by repeat constructor|]. split; [by repeat constructor|].
    intros ev Hev Hbig. elem_inv Hev; try done.
    destruct (proceeds_not_oversized _ Hp Hbig).
  - split; [by repeat constructor|]. split; [done|]. eauto.
Qed.

Lemma safe_download_one ue um id diffs :
  safe env (download_one env args ue um id diffs).
Proof.
  unfold download_one.
  apply safe_bind; [apply only_safe, only_lift|intros n].
  apply safe_bind; [by apply only_safe, only_print|intros _].
  apply safe_bind; [by apply only_safe, only_print|intros _].
  apply safe_bind; [by apply only_safe, only_call|intros cs].
  apply safe_bind.
  { apply only_safe. unfold check_moderator. repeat only_step. }
  intros _. apply safe_bind; [by apply only_safe, only_print|intros _].
  apply safe_retrieve.
Qed.

Lemma safe_download ue um ids : ∀ diffs,
  safe env (download env args ue um ids diffs).
Proof.
  induction ids as [|id ids IH]; intros diffs; cbn [download].
  - apply only_safe. constructor.
  - apply safe_bind; [apply safe_download_one | done].
Qed.

End SizeCheck.

(** * The claims *)

Section Claims.

Context {Json Element OsmChange : Type}.
Variable env : Env Json Element OsmChange.
Variable args : Args.

(** C7.  When the inverted diff that [update_parents] leaves has no
    element, [main] prints "Nothing to revert" as its last event and
    returns 0; the run builds no change document, writes no file and
    uploads nothing. *)
Theorem nothing_to_revert_returns_success inv p inv' :
  Call_update_parents inv ∈ trace (main env args) →
  update_parents env inv = inr (p, inv') →
  invert_size inv' = 0 →
  result (main env args) = Return 0
  ∧ snd (main_timer (main env args)) = 0
  ∧ last (trace (main env args)) = Some (Print MsgNothingToRevert)
  ∧ ∀ ev, ev ∈ trace (main env args) →
      kind_of ev ∉ [KBuild; KWrite; KMaxSize; KUpload; KDiscuss].
Proof.
  intros Hin Hup Hsize.
  destruct (main_finish_event env args _ Hin ltac:(simpl; kind_elem))
    as (ids & tags & ue & um & diffs & Hpre & Hdl & Hfin & Htr & Hres).
  destruct (finish_parents_event env args _ _ _ _ _ Hfin)
    as (merged & w & st & _ & _ & Hrun).
  rewrite Hup, conclude_run, Hsize in Hrun. simpl in Hrun.
  rewrite main_timer_code, Hres, Htr, Hrun. unfold prepend. simpl.
  split; [done|]. split; [done|]. split.
  - rewrite !app_comm_cons, !app_assoc. apply last_snoc.
  - intros ev [Hev|[Hev|Hev]%elem_of_app]%elem_of_app.
    + apply (only_elem_of _ _ _ (only_prelude_kinds env args)) in Hev.
      unfold in_kinds in Hev. destruct (kind_of ev); set_solver.
    + apply (only_elem_of _ _ _ (only_download env args _ _ _ _)) in Hev as [Hev _].
      destruct (kind_of ev); set_solver.
    + repeat (apply elem_of_cons in Hev as [->|Hev]; [simpl; set_solver|]).
      apply elem_of_app in Hev as [Hev|Hev].
      * destruct (p =? 0); elem_inv Hev. simpl; set_solver.
      * elem_inv Hev. simpl; set_solver.
Qed.

(** C4.  In upload mode, [upload_diff] is only ever called on an
    inverted diff whose size is within the cap that
    [get_changeset_max_size] answered; and when the inverted diff is
    larger than the cap, [main] reports it, returns -1 and the run has no
    call of [upload_diff]. *)
Theorem upload_respects_cap :
  truthy_str (osc_file args) = false →
  default false (print_osc args) = false →
  (∀ inv c x, Call_upload_diff inv c x ∈ trace (main env args) →
     ∃ cap, get_changeset_max_size env = inr cap ∧ invert_size inv <= cap)
  ∧ (∀ inv p inv' cap,
       Call_update_parents inv ∈ trace (main env args) →
       update_parents env inv = inr (p, inv') →
       get_changeset_max_size env = inr cap →
       0 <= cap → cap < invert_size inv' →
       result (main env args) = Return (-1)
       ∧ snd (main_timer (main env args)) = -1
       ∧ Print (MsgTooBig (invert_size inv') cap) ∈ trace (main env args)
       ∧ ∀ ev, ev ∈ trace (main env args) → kind_of ev ≠ KUpload).
Proof.
  intros Hosc Hprint. split.
  - intros inv c x Hin.
    destruct (main_finish_event env args _ Hin ltac:(simpl; kind_elem))
      as (ids & tags & ue & um & diffs & _ & _ & Hfin & _ & _).
    destruct (finish_conclude_event env args _ _ _ _ _ Hfin
                ltac:(simpl; kind_elem))
      as (merged & inv0 & w & st & p & inv' & _ & _ & _ & Hcon & _).
    apply conclude_upload_event in Hcon as (-> & _ & _ & cap & ? & ? & _).
    by exists cap.
  - intros inv p inv' cap Hin Hup Hcap Hpos Hbig.
    destruct (main_finish_event env args _ Hin ltac:(simpl; kind_elem))
      as (ids & tags & ue & um & diffs & Hpre & Hdl & Hfin & Htr & Hres).
    destruct (finish_parents_event env args _ _ _ _ _ Hfin)
      as (merged & w & st & _ & _ & Hrun).
    rewrite Hup, conclude_run, Hosc, Hprint, upload_run, Hcap in Hrun.
    destruct (Z.eqb_spec (invert_size inv') 0) as [?|_]; [lia|].
    destruct (Z.ltb_spec cap (invert_size inv')) as [_|?]; [|lia].
    simpl in Hrun.
    rewrite main_timer_code, Hres, Htr, Hrun. unfold prepend. simpl.
    split; [done|]. split; [done|]. split.
    + rewrite !elem_of_app. right. right.
      repeat (apply elem_of_cons; right). apply elem_of_app. right.
      apply elem_of_cons. right. apply elem_of_cons. by left.
    + intros ev [Hev|[Hev|Hev]%elem_of_app]%elem_of_app.
      * apply (only_elem_of _ _ _ (only_prelude_kinds env args)) in Hev.
        unfold in_kinds in Hev. destruct (kind_of ev); set_solver.
      * apply (only_elem_of _ _ _ (only_download env args _ _ _ _)) in Hev
          as [Hev _].
        destruct (kind_of ev); set_solver.
      * repeat (apply elem_of_cons in Hev as [->|Hev]; [done|]).
        apply elem_of_app in Hev as [Hev|Hev].
        { destruct (p =? 0); elem_inv Hev. done. }
        repeat (apply elem_of_cons in Hev as [->|Hev]; [done|]).
        case_match; elem_inv Hev. done.
Qed.

(** C10.  When [upload_diff] has answered a changeset id and no
    discussion text was given, the [strip] of [None] raises: the call of
    [upload_diff] is the last event of [main], which ends with
    [AttributeError], and [main_timer] exits with -2. *)
Theorem upload_then_strip_of_none inv c x cid :
  discussion args = None →
  Call_upload_diff inv c x ∈ trace (main env args) →
  upload_diff env inv c x = inr cid → truthy_str cid = true →
  result (main env args) = Raise AttributeError
  ∧ last (trace (main env args)) = Some (Call_upload_diff inv c x)
  ∧ snd (main_timer (main env args)) = -2.
Proof.
  intros Hnone Hin Hup Hcid.
  destruct (main_upload_event env args _ _ _ Hin) as (ids & w & pre & _ & Hrun).
  rewrite Hup, after_upload_none in Hrun by done.
  rewrite main_timer_code, Hrun. unfold prepend. simpl.
  split; [done|]. split; [|done]. rewrite app_nil_r. apply last_snoc.
Qed.

(** C1.  A call of the history client that answers a diff larger than
    the changeset is the last event of [main]: the assertion fails, the
    exit code is -2, and no event of the run belongs to the inversion,
    the saving or the upload.  Conversely every call of the history
    client that is followed by another event answered a diff that is
    not larger than the changeset. *)
Theorem diff_size_checked :
  (∀ cs steps f diff,
     Call_get_changeset_elements_history cs steps f ∈ trace (main env args) →
     get_changeset_elements_history env cs steps f = inr (Some diff) →
     changeset_size cs < diff_size diff →
     (∃ msg, result (main env args) = Raise (AssertionError msg))
     ∧ snd (main_timer (main env args)) = -2
     ∧ last (trace (main env args))
       = Some (Call_get_changeset_elements_history cs steps f)
     ∧ ∀ ev, ev ∈ trace (main env args) → early ev)
  ∧ (∀ pre cs steps f post,
       trace (main env args)
       = (pre ++ Call_get_changeset_elements_history cs steps f :: post)%list →
       post ≠ [] →
       ∃ diff,
         get_changeset_elements_history env cs steps f = inr (Some diff)
         ∧ diff ≠ ∅ ∧ diff_size diff <= changeset_size cs).
Proof.
  assert (safe env (main env args)) as (Hinit & _ & Hover).
  { unfold main. apply safe_bind.
    { apply only_safe. eapply only_impl; [apply only_prelude_kinds|].
      unfold in_kinds. intros ev Hev Heq. rewrite Heq in Hev. set_solver. }
    intros [[[ids tags] ue] um]. apply safe_bind; [apply safe_download|].
    intros diffs. apply only_safe. eapply only_impl; [apply only_finish|].
    unfold in_kinds. intros ev Hev Heq. rewrite Heq in Hev. set_solver. }
  split.
  - intros cs steps f diff Hin Hdiff Hbig.
    pose proof (larger_diff_not_empty cs diff Hbig) as Hne.
    set (ev := Call_get_changeset_elements_history cs steps f) in *.
    assert (oversized env ev) as Hev by (simpl; eauto).
    destruct (Hover ev Hin Hev) as [msg Hres].
    split; [eauto|]. split; [by rewrite main_timer_code, Hres|]. split.
    + apply elem_of_removelast_or_last in Hin as [Hin|?]; [|done].
      rewrite Forall_forall in Hinit.
      destruct (proceeds_not_oversized env ev); auto.
    + destruct (main_download_event env args ev Hin ltac:(simpl; kind_elem))
        as (ids & tags & ue & um & Hpre & Hdl).
      destruct (safe_download env args ue um ids []) as (_ & Hnormal & _).
      intros ev'. rewrite main_trace, Hpre.
      destruct (result (download env args ue um ids [])) as [diffs|c|e].
      { specialize (Hnormal diffs eq_refl). rewrite Forall_forall in Hnormal.
        destruct (proceeds_not_oversized env ev); auto. }
      all: rewrite app_nil_r; intros [Hev'|Hev']%elem_of_app.
      all: first [ by apply (only_elem_of _ _ _ (only_prelude env args))
                 | by apply (only_elem_of _ _ _ (only_download env args ue um ids [])) ].
  - intros pre cs steps f post Htr Hpost. rewrite Htr in Hinit.
    rewrite removelast_app in Hinit by done.
    apply Forall_app in Hinit as [_ Hinit]. simpl in Hinit.
    destruct post; [done|]. by apply Forall_cons in Hinit as [Hp _].
Qed.

(** C9.  [merge_and_sort_diffs] of the empty list raises [IndexError];
    and a run of [main] that gets to generating the revert while every
    changeset it fetched declares no element ends there with that
    exception and exit code -2, and never prints "Nothing to revert". *)
Theorem merge_of_nothing_raises :
  merge_and_sort_diffs [] = inl IndexError
  ∧ (Print MsgGenerating ∈ trace (main env args) →
     (∀ n cs, Call_get_changeset n ∈ trace (main env args) →
              get_changeset env n = inr cs → changeset_size cs = 0) →
     result (main env args) = Raise IndexError
     ∧ snd (main_timer (main env args)) = -2
     ∧ last (trace (main env args)) = Some (Print MsgGenerating)
     ∧ Print MsgNothingToRevert ∉ trace (main env args)).
Proof.
  split; [done|]. rewrite main_timer_code, main_trace, main_result.
  intros Hin Hzero.
  pose proof (only_prelude env args) as Hpre.
  apply elem_of_app in Hin as [Hin|Hin].
  { apply (only_elem_of _ _ _ Hpre) in Hin as (_ & ? & _). done. }
  destruct (result (prelude env args)) as [[[[ids tags] ue] um]|c|e];
    [|by apply elem_of_nil in Hin..].
  pose proof (only_download env args ue um ids []) as Hdl.
  apply elem_of_app in Hin as [Hin|Hin].
  { apply (only_elem_of _ _ _ Hdl) in Hin as (_ & ? & _). done. }
  destruct (result (download env args ue um ids [])) as [diffs|c|e] eqn:Hres;
    [|by apply elem_of_nil in Hin..].
  assert (diffs = []) as ->.
  { eapply download_zero; [done|]. intros n cs Hn. apply Hzero.
    apply elem_of_app. right. apply elem_of_app. by left. }
  rewrite finish_run. simpl.
  split; [done|]. split; [done|]. split.
  - rewrite app_assoc. apply last_snoc.
  - intros [Hn|[Hn|Hn]%elem_of_app]%elem_of_app.
    + apply (only_elem_of _ _ _ Hpre) in Hn as (_ & _ & ?). done.
    + apply (only_elem_of _ _ _ Hdl) in Hn as (_ & _ & ?). done.
    + by elem_inv Hn.
Qed.

(** C8 as the code has it.  Once the user is fetched: a limit of 0
    makes [main] print the number of edits needed and return -1; a limit
    below the number of changeset ids makes it print the limit and
    return -1; in both cases the run has no event after the log-in
    phase.  And a fetched changeset whose author is a moderator, while
    the user is no moderator and has fewer than
    [CHANGESETS_LIMIT_MODERATOR_REVERT] edits, makes [main] print that
    and return -1 before anything is generated or uploaded. *)
Theorem policy_limits_abort user config limit :
  Call_get_authorized_user ∈ trace (main env args) →
  get_authorized_user env = inr user →
  limit_config_of env user = inr config →
  changesets_limit_of config (changesets_count user) = inr limit →
  (limit = 0 → ∀ k, min_edits_of config = inr k →
     result (main env args) = Return (-1)
     ∧ last (trace (main env args)) = Some (Print (MsgNeedEdits k))
     ∧ ∀ ev, ev ∈ trace (main env args) →
         in_kinds [KPrint; KOsmApi; KAuthorizedUser] ev)
  ∧ (limit ≠ 0 →
     limit < Z.of_nat (length (normalize_ids (changeset_ids args))) →
     result (main env args) = Return (-1)
     ∧ Print (MsgChangesetsLimit limit) ∈ trace (main env args)
     ∧ ∀ ev, ev ∈ trace (main env args) →
         in_kinds [KPrint; KOsmApi; KAuthorizedUser] ev)
  ∧ (∀ n cs u,
       Call_get_changeset n ∈ trace (main env args) →
       get_changeset env n = inr cs →
       is_osm_moderator env (roles user) = false →
       changesets_count user < CHANGESETS_LIMIT_MODERATOR_REVERT env →
       get_user env (uid cs) = inr (Some u) →
       is_osm_moderator env (roles u) = true →
       result (main env args) = Return (-1)
       ∧ last (trace (main env args)) = Some (Print MsgModeratorsChangesets)
       ∧ ∀ ev, ev ∈ trace (main env args) → early ev).
Proof.
  intros Hin Hauth Hconfig Hlimit.
  apply main_prelude_event in Hin; [|simpl; kind_elem].
  destruct (prelude_user_event env args user Hin Hauth) as (pre & Hkinds & Hrun).
  pose proof (only_prelude_kinds env args) as Hpre.
  split; [|split].
  - intros -> k Hk.
    rewrite (check_limits_zero env _ _ _ _ Hconfig Hlimit Hk) in Hrun.
    rewrite main_trace, main_result, Hrun. unfold prepend. simpl.
    rewrite !app_nil_r. split; [done|]. split; [apply last_snoc|].
    intros ev Hev. apply (only_elem_of _ _ _ Hpre).
    rewrite Hrun. unfold prepend. by simpl.
  - intros Hne Hlt.
    destruct (check_limits_exceeded env _ _ _ _ Hconfig Hlimit Hne Hlt)
      as (hint & _ & Hcheck).
    rewrite Hcheck in Hrun.
    rewrite main_trace, main_result, Hrun. unfold prepend. simpl.
    rewrite !app_nil_r. split; [done|]. split.
    + apply elem_of_app. right. apply list_elem_of_here.
    + intros ev Hev. apply (only_elem_of _ _ _ Hpre).
      rewrite Hrun. unfold prepend. by simpl.
  - intros n cs u Hn Hcs Hnomod Hedits Hu Hmod.
    destruct (main_download_event env args _ Hn ltac:(simpl; kind_elem))
      as (ids & tags & ue & um & Hres & Hdl).
    assert (ue = changesets_count user ∧ um = false) as [-> ->].
    (* the loop runs with the count and the role of the fetched user *)
    { rewrite Hrun in Hres. unfold prepend in Hres. simpl in Hres.
      rewrite result_bind in Hres.
      destruct (result (check_limits env _ user)); simpl in Hres;
        [|done..].
      injection Hres as _ _ <- <-. by rewrite Hnomod. }
    destruct (download_moderator env args _ _ _ _ _ _ Hdl Hcs Hedits Hu Hmod)
      as [Hret Hlast].
    rewrite main_trace, main_result, Hres, Hret, app_nil_r.
    split; [done|]. split; [by rewrite last_app, Hlast|].
    intros ev [Hev|Hev]%elem_of_app.
    + by apply (only_elem_of _ _ _ (only_prelude env args)).
    + by apply (only_elem_of _ _ _
                  (only_download env args (changesets_count user) false ids [])).
Qed.

(** C5 as the code has it.  Changeset ids that are missing or not
    numeric end [main] with an assertion error before any event, so
    before any call; a token of the element filter that denotes nothing
    makes [build_element_ids_dict] raise; a discussion text shorter
    than four characters is not rejected: after an upload that gave a
    changeset id, [main] posts no discussion comment and returns 0. *)
Theorem validation_before_network :
  (normalize_ids (changeset_ids args) = []
   ∨ forallb PyStr.isnumeric (normalize_ids (changeset_ids args)) = false →
   trace (main env args) = []
   ∧ (∃ msg, result (main env args) = Raise (AssertionError msg))
   ∧ snd (main_timer (main env args)) = -2)
  ∧ (∀ toks tok, tok ∈ toks → (∀ sign ty id, ¬ denotes tok sign ty id) →
     ∃ msg, build_element_ids_dict toks = inl (Exception msg))
  ∧ (∀ inv c x cid text,
       discussion args = Some text →
       (String.length (PyStr.strip text) < 4)%nat →
       Call_upload_diff inv c x ∈ trace (main env args) →
       upload_diff env inv c x = inr cid → truthy_str cid = true →
       result (main env args) = Return 0
       ∧ ∀ ev, ev ∈ trace (main env args) → kind_of ev ≠ KDiscuss).
Proof.
  split; [|split].
  - intros Hbad. rewrite main_timer_code, main_trace, main_result.
    assert (trace (prelude env args) = []
            ∧ ∃ msg, result (prelude env args) = Raise (AssertionError msg))
      as [-> [msg ->]]; [|by eauto].
    unfold prelude. rewrite trace_bind, result_bind.
    rewrite validate_ids_trace, validate_ids_result. cbv zeta.
    destruct Hbad as [->| ->]; [by eauto|].
    case_bool_decide; by eauto.
  - intros toks tok Hin Hbad. unfold build_element_ids_dict.
    pose proof (parse_tokens_spec toks _ well_keyed_empty) as Hspec.
    destruct (parse_tokens empty_element_ids toks) as [e|d].
    + destruct Hspec as (_ & t & _ & _ & _ & _ & Hc).
      apply classify_raises in Hc as [msg ->]. eauto.
    + destruct Hspec as (_ & Hall & _).
      destruct (Hall tok Hin) as (sign & ty & id & Hd). by destruct (Hbad sign ty id).
  - intros inv c x cid text Htext Hshort Hin Hup Hcid.
    destruct (main_upload_event env args _ _ _ Hin)
      as (ids & w & pre & Hpre & Hrun).
    rewrite Hup, (after_upload_short env args _ _ _ text) in Hrun by done.
    rewrite Hrun. unfold prepend. simpl. split; [done|].
    intros ev [[Hev|Hev]%elem_of_app|Hev]%elem_of_app.
    + intros Hk. apply (Hpre ev Hev). rewrite Hk. set_solver.
    + by elem_inv Hev.
    + apply elem_of_app in Hev as [Hev|Hev]; [|by elem_inv Hev].
      unfold print_warn_elements, prints in Hev. simpl in Hev.
      apply list_elem_of_fmap in Hev as (msg & -> & _). done.
Qed.

End Claims.

(** ** The claims on the two pure functions *)

Lemma entries_of_length ty diffs :
  length (entries_of ty diffs)
  = sum_list_with (fun d : gmap string (list DiffEntry) =>
                     length (default [] (d !! ty))) diffs.
Proof.
  unfold entries_of. induction diffs as [|d diffs IH]; simpl; [done|].
  by rewrite length_app, IH.
Qed.

Lemma entries_of_uncovered ty first rest :
  keys_covered first rest → first !! ty = None →
  entries_of ty (first :: rest) = [].
Proof.
  unfold keys_covered, entries_of. intros Hc Hty. simpl. rewrite Hty. simpl.
  induction Hc as [|d rest Hd Hc IH]; simpl; [done|].
  rewrite IH, app_nil_r.
  destruct (d !! ty) eqn:Hd'; [|done].
  apply elem_of_dom_2, Hd, elem_of_dom in Hd' as [? ?]. congruence.
Qed.


(** The merge on dictionaries given by value: [merge_and_sort_diffs]
    returns exactly when the list has a first diff and the later ones
    bring no further element type, and then the list it holds for each
    element type has as many entries as the inputs have for that type, is
    a rearrangement of them, and is in time order, newest first.
    Otherwise it raises: [IndexError] on the empty list, [KeyError] on an
    element type the first diff lacks. *)
Lemma merge_by_value_keeps_every_entry diffs :
  match merge_and_sort_diffs diffs with
  | inr result =>
      (∃ first rest, diffs = first :: rest ∧ keys_covered first rest)
      ∧ ∀ ty,
          length (default [] (result !! ty))
          = sum_list_with (fun d : gmap string (list DiffEntry) =>
                             length (default [] (d !! ty))) diffs
          ∧ default [] (result !! ty) ≡ₚ entries_of ty diffs
          ∧ StronglySorted not_older (default [] (result !! ty))
  | inl e =>
      (diffs = [] ∧ e = IndexError)
      ∨ (∃ first rest,
           diffs = first :: rest ∧ ¬ keys_covered first rest ∧ e = KeyError)
  end.
Proof.
  destruct diffs as [|first rest]; [by left|].
  destruct (decide (keys_covered first rest)) as [Hc|Hn].
  - destruct (merge_and_sort_diffs_lookup first rest Hc)
      as (result & -> & Hdom & Hlk).
    split; [by exists first, rest|]. intros ty.
    assert (default [] (result !! ty)
            = sorted_newest_first (entries_of ty (first :: rest))) as ->.
    { destruct (first !! ty) as [l|] eqn:Hty.
      - rewrite Hlk; [done|]. by eapply elem_of_dom_2.
      - rewrite entries_of_uncovered by done.
        apply not_elem_of_dom in Hty. rewrite <- Hdom in Hty.
        apply not_elem_of_dom in Hty. by rewrite Hty. }
    split; [|split].
    + by rewrite sorted_newest_first_perm, entries_of_length.
    + apply sorted_newest_first_perm.
    + apply sorted_newest_first_sorted.
  - simpl. pose proof (merge_diffs_spec rest first) as Hspec.
    destruct (merge_diffs first rest) as [e|r].
    + destruct Hspec as [-> _]. right. by exists first, rest.
    + by destruct Hspec as [? _].
Qed.

(** [build_element_ids_dict] by the table of the code: it returns when
    every token has a reading by [denotes], with the ids that the tokens
    denote, and raises at the first token that has none. *)
Lemma build_element_ids_dict_by_table toks :
  match build_element_ids_dict toks with
  | inr d =>
      (∀ tok, tok ∈ toks → ∃ sign ty id, denotes tok sign ty id)
      ∧ (∀ sign ty id, id ∈ ids_of d sign ty ↔
           ∃ tok, tok ∈ toks ∧ denotes tok sign ty id)
  | inl e =>
      ∃ pre tok post msg,
        toks = (pre ++ tok :: post)%list
        ∧ (∀ t, t ∈ pre → ∃ sign ty id, denotes t sign ty id)
        ∧ (∀ sign ty id, ¬ denotes tok sign ty id)
        ∧ e = Exception msg
        ∧ build_element_ids_dict (pre ++ [tok]) = inl e
  end.
Proof.
  unfold build_element_ids_dict.
  pose proof (parse_tokens_spec toks _ well_keyed_empty) as Hspec.
  destruct (parse_tokens empty_element_ids toks) as [e|d] eqn:Hrun.
  - destruct Hspec as (pre & tok & post & -> & Hpre & Hbad & Hc).
    destruct (classify_raises _ _ Hc) as [msg ->].
    exists pre, tok, post, msg. repeat (split; [done|]).
    pose proof (parse_tokens_spec (pre ++ [tok]) _ well_keyed_empty) as Hspec'.
    destruct (parse_tokens empty_element_ids (pre ++ [tok])) as [e'|d'].
    + destruct Hspec' as (pre' & tok' & post' & Heq & Hpre' & Hbad' & Hc').
      assert (tok' = tok) as ->; [|congruence].
      assert (tok' ∈ (pre ++ [tok])%list) as Hin.
      { rewrite Heq. apply elem_of_app. right. apply list_elem_of_here. }
      apply elem_of_app in Hin as [Hin|Hin%list_elem_of_singleton]; [|done].
      destruct (Hpre tok' Hin) as (sg & ty & id & Hd). by destruct (Hbad' sg ty id).
    + destruct Hspec' as (_ & Hall & _).
      destruct (Hall tok) as (sg & ty & id & Hd).
      { apply elem_of_app. right. apply list_elem_of_here. }
      by destruct (Hbad sg ty id).
  - destruct Hspec as (_ & Hall & Hmem). split; [done|].
    intros sign ty id. rewrite Hmem, ids_of_empty. set_solver.
Qed.

(** ** The claims at sample inputs *)

Example build_element_ids_dict_example :
  ∃ d, build_element_ids_dict ["n123"; " -Way: 5 "; "+relations;7"; "--r9"] = inr d
       ∧ ids_of d "include" "node" = {["123"]}
       ∧ ids_of d "exclude" "way" = {["5"]}
       ∧ ids_of d "include" "relation" = {["7"]}
       ∧ ids_of d "exclude" "relation" = {["9"]}.
Proof. eexists. split; [reflexivity|]. repeat split; by vm_compute. Qed.



(** A merge of two changesets that both edit node 7, computed: the entry
    at time 10 is there twice. *)
Example merge_keeps_every_entry_example :
  ∃ result,
    merge_and_sort_diffs
      [Sample.diff [Sample.entry 10 1; Sample.entry 30 2];
       Sample.diff [Sample.entry 20 2; Sample.entry 10 1]] = inr result
    ∧ result !! "node"
      = Some [Sample.entry 30 2; Sample.entry 20 2; Sample.entry 10 1;
              Sample.entry 10 1].
Proof. eexists. split; [reflexivity|]. by vm_compute. Qed.

(** C5, as stated, fails: with the discussion text "hi", shorter than the
    minimum of four characters, nothing is rejected; the run reaches the
    network, uploads the revert and returns 0. *)
Lemma short_discussion_is_not_rejected :
  (String.length (PyStr.strip "hi") < 4)%nat
  ∧ result (main Sample.env_upload (Sample.args [PInt 123] (Some "hi"))) = Return 0
  ∧ existsb is_network_call
      (trace (main Sample.env_upload (Sample.args [PInt 123] (Some "hi")))) = true
  ∧ existsb Sample.is_upload
      (trace (main Sample.env_upload (Sample.args [PInt 123] (Some "hi")))) = true.
Proof. split; [simpl; lia|]. repeat split; by vm_compute. Qed.

(** C8, as stated, fails: a user with 5000 edits, no moderator, reverts
    the changeset of a moderator; the author is not even looked up, the
    revert is uploaded and [main] returns 0. *)
Lemma veteran_reverts_moderator :
  is_osm_moderator Sample.env_veteran (roles (Sample.mapper 5000)) = false
  ∧ get_user Sample.env_veteran "7" = inr (Some Sample.moderator)
  ∧ is_osm_moderator Sample.env_veteran (roles Sample.moderator) = true
  ∧ result (main Sample.env_veteran (Sample.args [PInt 123] (Some ""))) = Return 0
  ∧ existsb Sample.is_get_user
      (trace (main Sample.env_veteran (Sample.args [PInt 123] (Some "")))) = false
  ∧ existsb Sample.is_upload
      (trace (main Sample.env_veteran (Sample.args [PInt 123] (Some "")))) = true.
Proof. repeat split; by vm_compute. Qed.

Lemma nothing_to_revert_returns_success_witness :
  @Call_update_parents unit unit (Sample.inverted [])
    ∈ trace (main Sample.env_nothing (Sample.args [PInt 123] None))
  ∧ update_parents Sample.env_nothing (Sample.inverted [])
    = inr (0, Sample.inverted [])
  ∧ invert_size (Sample.inverted []) = 0
  ∧ result (main Sample.env_nothing (Sample.args [PInt 123] None)) = Return 0.
Proof.
  assert (@Call_update_parents unit unit (Sample.inverted [])
            ∈ trace (main Sample.env_nothing (Sample.args [PInt 123] None))) as Hin.
  { vm_compute. repeat constructor. }
  assert (invert_size (Sample.inverted []) = 0) as Hsize by (by vm_compute).
  split; [exact Hin|]. split; [reflexivity|]. split; [exact Hsize|].
  exact (proj1 (nothing_to_revert_returns_success
                  Sample.env_nothing (Sample.args [PInt 123] None)
                  (Sample.inverted []) 0 (Sample.inverted []) Hin eq_refl Hsize)).
Defined.

Lemma upload_respects_cap_witness :
  truthy_str (osc_file (Sample.args [PInt 123] None)) = false
  ∧ default false (print_osc (Sample.args [PInt 123] None)) = false
  ∧ @Call_update_parents unit unit (Sample.inverted [tt; tt])
      ∈ trace (main Sample.env_small_cap (Sample.args [PInt 123] None))
  ∧ 1 < invert_size (Sample.inverted [tt; tt])
  ∧ result (main Sample.env_small_cap (Sample.args [PInt 123] None)) = Return (-1).
Proof.
  assert (@Call_update_parents unit unit (Sample.inverted [tt; tt])
            ∈ trace (main Sample.env_small_cap (Sample.args [PInt 123] None))) as Hin.
  { vm_compute. repeat constructor. }
  assert (1 < invert_size (Sample.inverted [tt; tt])) as Hbig by (by vm_compute).
  split; [reflexivity|]. split; [reflexivity|]. split; [exact Hin|].
  split; [exact Hbig|].
  exact (proj1 (proj2 (upload_respects_cap
                         Sample.env_small_cap (Sample.args [PInt 123] None)
                         eq_refl eq_refl)
                  (Sample.inverted [tt; tt]) 0 (Sample.inverted [tt; tt]) 1
                  Hin eq_refl eq_refl ltac:(lia) Hbig)).
Defined.

Lemma upload_then_strip_of_none_witness :
  discussion (Sample.args [PInt 123] None) = None
  ∧ @Call_upload_diff unit unit (Sample.inverted [tt]) "revert"
      (∅ ∪ extra_args_of Sample.env_upload (Sample.args [PInt 123] None) ["123"] 500)
      ∈ trace (main Sample.env_upload (Sample.args [PInt 123] None))
  ∧ snd (main_timer (main Sample.env_upload (Sample.args [PInt 123] None))) = -2.
Proof.
  assert (@Call_upload_diff unit unit (Sample.inverted [tt]) "revert"
            (∅ ∪ extra_args_of Sample.env_upload (Sample.args [PInt 123] None)
                   ["123"] 500)
            ∈ trace (main Sample.env_upload (Sample.args [PInt 123] None))) as Hin.
  { vm_compute. repeat constructor. }
  split; [reflexivity|]. split; [exact Hin|].
  exact (proj2 (proj2 (upload_then_strip_of_none
                         Sample.env_upload (Sample.args [PInt 123] None)
                         _ _ _ (Some "4242") eq_refl Hin eq_refl eq_refl))).
Defined.

Lemma diff_size_checked_witness :
  @Call_get_changeset_elements_history unit unit (Sample.changeset 2) 2 ""
    ∈ trace (main Sample.env_oversized (Sample.args [PInt 123] None))
  ∧ changeset_size (Sample.changeset 2)
    < diff_size (Sample.diff [Sample.entry 10 1; Sample.entry 20 1; Sample.entry 30 1])
  ∧ snd (main_timer (main Sample.env_oversized (Sample.args [PInt 123] None))) = -2.
Proof.
  assert (@Call_get_changeset_elements_history unit unit (Sample.changeset 2) 2 ""
            ∈ trace (main Sample.env_oversized (Sample.args [PInt 123] None))) as Hin.
  { vm_compute. repeat constructor. }
  assert (changeset_size (Sample.changeset 2)
          < diff_size (Sample.diff [Sample.entry 10 1; Sample.entry 20 1;
                                    Sample.entry 30 1])) as Hbig by (by vm_compute).
  split; [exact Hin|]. split; [exact Hbig|].
  exact (proj1 (proj2 (proj1 (diff_size_checked
                                Sample.env_oversized (Sample.args [PInt 123] None))
                         _ _ _ _ Hin eq_refl Hbig))).
Defined.

Lemma merge_of_nothing_raises_witness :
  @Print unit unit MsgGenerating
    ∈ trace (main Sample.env_no_elements (Sample.args [PInt 123] None))
  ∧ (∀ n cs, get_changeset Sample.env_no_elements n = inr cs → changeset_size cs = 0)
  ∧ result (main Sample.env_no_elements (Sample.args [PInt 123] None))
    = Raise IndexError.
Proof.
  assert (@Print unit unit MsgGenerating
            ∈ trace (main Sample.env_no_elements (Sample.args [PInt 123] None))) as Hin.
  { vm_compute. repeat constructor. }
  assert (∀ n cs, get_changeset Sample.env_no_elements n = inr cs →
                  changeset_size cs = 0) as Hzero.
  { intros n cs [= <-]. reflexivity. }
  split; [exact Hin|]. split; [exact Hzero|].
  exact (proj1 (proj2 (merge_of_nothing_raises
                         Sample.env_no_elements (Sample.args [PInt 123] None))
                  Hin (fun n cs _ => Hzero n cs))).
Defined.

Lemma policy_limits_abort_witness :
  @Call_get_authorized_user unit unit
    ∈ trace (main Sample.env_newcomer (Sample.args [PInt 123] None))
  ∧ limit_config_of Sample.env_newcomer (Sample.mapper 5) = inr Sample.config
  ∧ changesets_limit_of Sample.config 5 = inr 0
  ∧ min_edits_of Sample.config = inr 10
  ∧ result (main Sample.env_newcomer (Sample.args [PInt 123] None)) = Return (-1).
Proof.
  assert (@Call_get_authorized_user unit unit
            ∈ trace (main Sample.env_newcomer (Sample.args [PInt 123] None))) as Hin.
  { vm_compute. repeat constructor. }
  assert (limit_config_of Sample.env_newcomer (Sample.mapper 5) = inr Sample.config)
    as Hconfig by (by vm_compute).
  assert (changesets_limit_of Sample.config 5 = inr 0) as Hlimit by (by vm_compute).
  assert (min_edits_of Sample.config = inr 10) as Hmin by (by vm_compute).
  split; [exact Hin|]. split; [exact Hconfig|]. split; [exact Hlimit|].
  split; [exact Hmin|].
  exact (proj1 (proj1 (policy_limits_abort
                         Sample.env_newcomer (Sample.args [PInt 123] None)
                         (Sample.mapper 5) Sample.config 0
                         Hin eq_refl Hconfig Hlimit)
                  eq_refl 10 Hmin)).
Defined.

(** The third case of the theorem at a sample: a user with 500 edits and
    the changeset of a moderator. *)
Example moderator_changeset_is_protected :
  result (main Sample.env_protected (Sample.args [PInt 123] None)) = Return (-1)
  ∧ last (trace (main Sample.env_protected (Sample.args [PInt 123] None)))
    = Some (Print MsgModeratorsChangesets).
Proof. split; by vm_compute. Qed.

Lemma validation_before_network_witness :
  forallb PyStr.isnumeric
    (normalize_ids (changeset_ids (Sample.args [PStr "12a"] None))) = false
  ∧ trace (main Sample.env_upload (Sample.args [PStr "12a"] None)) = [].
Proof.
  assert (forallb PyStr.isnumeric
            (normalize_ids (changeset_ids (Sample.args [PStr "12a"] None))) = false)
    as Hbad by (by vm_compute).
  split; [exact Hbad|].
  exact (proj1 (proj1 (validation_before_network
                         Sample.env_upload (Sample.args [PStr "12a"] None))
                  (or_intror Hbad))).
Defined.

(** * Further properties of the code *)

(** ** The sort of [merge_and_sort_diffs] *)

Lemma sorted_newest_first_fixed l :
  StronglySorted not_older l → sorted_newest_first l = l.
Proof.
  induction 1 as [|x l Hl IH Hx]; simpl; [done|].
  rewrite IH. destruct l as [|y l']; simpl; [done|].
  apply Forall_cons in Hx as [Hy _]. unfold not_older in Hy.
  destruct (Z.ltb_spec (timestamp x) (timestamp y)); [lia|done].
Qed.

Lemma filter_timestamp_elem (l : list DiffEntry) e :
  e ∈ l → e ∈ filter (fun e' => timestamp e' = timestamp e) l.
Proof. intros. by apply list_elem_of_filter. Qed.

(** Two newest-first lists with the same entries at each timestamp, in the
    same order, are equal. *)
Lemma stable_sorted_unique l1 : ∀ l2,
  StronglySorted not_older l1 → StronglySorted not_older l2 →
  (∀ t, filter (fun e => timestamp e = t) l1
        = filter (fun e => timestamp e = t) l2) →
  l1 = l2.
Proof.
  induction l1 as [|x l1 IH]; intros l2 Hs1 Hs2 Hf.
  { destruct l2 as [|y l2]; [done|].
    specialize (Hf (timestamp y)). rewrite filter_nil, filter_cons_True in Hf; done. }
  destruct l2 as [|y l2].
  { specialize (Hf (timestamp x)). rewrite filter_nil, filter_cons_True in Hf; done. }
  apply StronglySorted_inv in Hs1 as [Hs1 Hx].
  apply StronglySorted_inv in Hs2 as [Hs2 Hy].
  rewrite Forall_forall in Hx, Hy.
  assert (timestamp y <= timestamp x) as Hyx.
  { assert (y ∈ x :: l1) as Hin.
    { eapply (list_elem_of_filter (fun e => timestamp e = timestamp y)).
      rewrite Hf. apply list_elem_of_filter. split; [done|left]. }
    apply elem_of_cons in Hin as [->|Hin]; [lia|]. apply (Hx _ Hin). }
  assert (timestamp x <= timestamp y) as Hxy.
  { assert (x ∈ y :: l2) as Hin.
    { eapply (list_elem_of_filter (fun e => timestamp e = timestamp x)).
      rewrite <- Hf. apply list_elem_of_filter. split; [done|left]. }
    apply elem_of_cons in Hin as [->|Hin]; [lia|]. apply (Hy _ Hin). }
  assert (x = y) as ->.
  { specialize (Hf (timestamp x)).
    rewrite !filter_cons_True in Hf by lia. congruence. }
  f_equal. apply IH; [done..|]. intros t. specialize (Hf t).
  rewrite !filter_cons in Hf. case_decide; congruence.
Qed.

(** On dictionaries given by value, the list that [merge_and_sort_diffs]
    returns for an element type is the only arrangement of the merged
    entries that is newest first and keeps the entries of one timestamp
    in the order of the inputs. *)
Lemma stable_arrangement_by_value diffs result ty l l' :
  merge_and_sort_diffs diffs = inr result →
  result !! ty = Some l →
  StronglySorted not_older l' →
  (∀ t, filter (fun e => timestamp e = t) l'
        = filter (fun e => timestamp e = t) (entries_of ty diffs)) →
  l' = l.
Proof.
  intros Hm Hl Hs Hf.
  destruct (proj1 (merge_and_sort_diffs_returns diffs) (ex_intro _ _ Hm))
    as (first & rest & -> & Hc).
  destruct (merge_and_sort_diffs_lookup first rest Hc) as (r & Hm' & Hdom & Hlk).
  rewrite Hm in Hm'. injection Hm' as <-.
  assert (ty ∈ dom first) as Hty by (rewrite <- Hdom; by eapply elem_of_dom_2).
  rewrite (Hlk ty Hty) in Hl. injection Hl as <-.
  apply stable_sorted_unique; [done|apply sorted_newest_first_sorted|].
  intros t. by rewrite Hf, sorted_newest_first_stable.
Qed.

(** X2.  Merging is idempotent: the dictionary that
    [merge_and_sort_diffs] returns, merged again on its own, comes back
    unchanged. *)
Theorem merge_of_merged_is_unchanged diffs result :
  merge_and_sort_diffs diffs = inr result →
  merge_and_sort_diffs [result] = inr result.
Proof.
  intros Hm. simpl. f_equal. apply map_eq. intros ty. rewrite lookup_fmap.
  destruct (result !! ty) as [l|] eqn:Hl; simpl; [|done].
  f_equal. apply sorted_newest_first_fixed.
  destruct (proj1 (merge_and_sort_diffs_returns diffs) (ex_intro _ _ Hm))
    as (first & rest & -> & Hc).
  destruct (merge_and_sort_diffs_lookup first rest Hc) as (r & Hm' & Hdom & Hlk).
  rewrite Hm in Hm'. injection Hm' as <-.
  assert (ty ∈ dom first) as Hty by (rewrite <- Hdom; by eapply elem_of_dom_2).
  rewrite (Hlk ty Hty) in Hl. injection Hl as <-.
  apply sorted_newest_first_sorted.
Qed.

(** ** The dictionary of [build_element_ids_dict] *)

(** The keys of the result: the two targets, and under each the three
    element types. *)
Lemma exact_keys_empty : exact_keys empty_element_ids.
Proof.
  split; [by vm_compute|]. intros sign m.
  unfold empty_element_ids.
  destruct (decide (sign = "include")) as [->|?];
    [|destruct (decide (sign = "exclude")) as [->|?]].
  - rewrite lookup_insert_eq. intros [= <-]. by vm_compute.
  - rewrite lookup_insert_ne, lookup_insert_eq by done. intros [= <-]. by vm_compute.
  - by rewrite !lookup_insert_ne, lookup_empty by done.
Qed.

Lemma exact_keys_add_id result sign ty id :
  exact_keys result → exact_keys (add_id sign ty id result).
Proof.
  intros [Hdom Hin]. unfold add_id. split.
  - by rewrite dom_alter_L.
  - intros sg m. destruct (decide (sg = sign)) as [->|Hne].
    + rewrite lookup_alter_eq. destruct (result !! sign) as [m0|] eqn:Hm0; [|done].
      simpl. intros [= <-]. rewrite dom_alter_L. by apply (Hin sign).
    + rewrite lookup_alter_ne by done. apply Hin.
Qed.

Lemma exact_keys_parse_tokens toks : ∀ result d,
  exact_keys result → parse_tokens result toks = inr d → exact_keys d.
Proof.
  induction toks as [|tok toks IH]; intros result d Hk; simpl.
  { by intros [= <-]. }
  unfold parse_token. destruct (classify tok) as [e|[[sign ty] id]]; [done|].
  apply IH. by apply exact_keys_add_id.
Qed.

Lemma denotes_numeric tok sign ty id :
  denotes tok sign ty id → PyStr.isnumeric id = true.
Proof. by intros (_ & ? & _). Qed.

(** X3.  Whatever the tokens, a dictionary that
    [build_element_ids_dict] returns has exactly the keys ['include'] and
    ['exclude'], each with exactly the keys ['node'], ['way'] and
    ['relation'], and every id in its sets is a non-empty string of
    numeric characters. *)
Theorem build_element_ids_dict_shape toks d :
  build_element_ids_dict toks = inr d →
  dom d = {["include"; "exclude"]}
  ∧ (∀ sign m, d !! sign = Some m → dom m = {["node"; "way"; "relation"]})
  ∧ ∀ sign ty id, id ∈ ids_of d sign ty →
      id ≠ "" ∧ PyStr.all_chars PyStr.isnumeric_char id = true.
Proof.
  unfold build_element_ids_dict. intros Hrun.
  destruct (exact_keys_parse_tokens _ _ _ exact_keys_empty Hrun) as [Hdom Hin].
  split; [done|]. split; [done|].
  pose proof (parse_tokens_spec toks _ well_keyed_empty) as Hspec.
  rewrite Hrun in Hspec. destruct Hspec as (_ & _ & Hmem).
  intros sign ty id [Hid|(tok & _ & Hd)]%Hmem.
  { rewrite ids_of_empty in Hid. set_solver. }
  apply denotes_numeric in Hd. unfold PyStr.isnumeric in Hd.
  by destruct id.
Qed.

Lemma parse_tokens_app toks1 toks2 : ∀ result,
  parse_tokens result (toks1 ++ toks2)
  = match parse_tokens result toks1 with
    | inl e => inl e
    | inr result1 => parse_tokens result1 toks2
    end.
Proof.
  induction toks1 as [|tok toks1 IH]; intros result; simpl; [done|].
  destruct (parse_token result tok); [done | apply IH].
Qed.

(** Whether the loop raises, and what, does not depend on the dictionary
    it starts from. *)
Lemma parse_tokens_error toks : ∀ result result',
  match parse_tokens result toks, parse_tokens result' toks with
  | inl e, inl e' => e = e'
  | inr _, inr _ => True
  | _, _ => False
  end.
Proof.
  induction toks as [|tok toks IH]; intros result result'; simpl; [done|].
  unfold parse_token. destruct (classify tok) as [e|[[sign ty] id]]; [done|].
  apply IH.
Qed.

(** X4.  The result of [build_element_ids_dict] on two lists of tokens put
    together holds, for each target and element type, the ids of the one
    and of the other; it raises when one of the two does, the first list
    first. *)
Theorem build_element_ids_dict_app toks1 toks2 :
  match build_element_ids_dict (toks1 ++ toks2) with
  | inr d =>
      ∃ d1 d2,
        build_element_ids_dict toks1 = inr d1
        ∧ build_element_ids_dict toks2 = inr d2
        ∧ ∀ sign ty, ids_of d sign ty = ids_of d1 sign ty ∪ ids_of d2 sign ty
  | inl e =>
      build_element_ids_dict toks1 = inl e
      ∨ ((∃ d1, build_element_ids_dict toks1 = inr d1)
         ∧ build_element_ids_dict toks2 = inl e)
  end.
Proof.
  unfold build_element_ids_dict. rewrite parse_tokens_app.
  pose proof (parse_tokens_spec toks1 _ well_keyed_empty) as H1.
  destruct (parse_tokens empty_element_ids toks1) as [e1|d1]; [by left|].
  destruct H1 as (Hwk1 & _ & _).
  pose proof (parse_tokens_error toks2 d1 empty_element_ids) as Herr.
  pose proof (parse_tokens_spec toks2 _ Hwk1) as H12.
  pose proof (parse_tokens_spec toks2 _ well_keyed_empty) as H2.
  destruct (parse_tokens d1 toks2) as [e|d],
           (parse_tokens empty_element_ids toks2) as [e2|d2]; try done.
  - subst e2. right. eauto.
  - destruct H12 as (_ & _ & Hmem), H2 as (_ & _ & Hmem2).
    exists d1, d2. repeat (split; [done|]).
    intros sign ty. apply set_eq. intros id.
    rewrite elem_of_union, Hmem, Hmem2, ids_of_empty. set_solver.
Qed.

(** ** Upper case and blanks in a token *)

Lemma lower_char_idem c : PyStr.lower_char (PyStr.lower_char c) = PyStr.lower_char c.
Proof. destruct c as [[] [] [] [] [] [] [] []]; by vm_compute. Qed.

Lemma isspace_lower_char c :
  PyStr.isspace_char (PyStr.lower_char c) = PyStr.isspace_char c.
Proof. destruct c as [[] [] [] [] [] [] [] []]; by vm_compute. Qed.

Lemma lower_idem s : PyStr.lower (PyStr.lower s) = PyStr.lower s.
Proof. induction s as [|c s IH]; simpl; [done|]. by rewrite lower_char_idem, IH. Qed.

Lemma lstrip_lower s :
  PyStr.lstrip_by PyStr.isspace_char (PyStr.lower s)
  = PyStr.lower (PyStr.lstrip_by PyStr.isspace_char s).
Proof.
  induction s as [|c s IH]; simpl; [done|].
  rewrite isspace_lower_char. by destruct (PyStr.isspace_char c).
Qed.

Lemma rstrip_lower s :
  PyStr.rstrip_by PyStr.isspace_char (PyStr.lower s)
  = PyStr.lower (PyStr.rstrip_by PyStr.isspace_char s).
Proof.
  induction s as [|c s IH]; simpl; [done|].
  rewrite IH, isspace_lower_char.
  destruct (PyStr.rstrip_by PyStr.isspace_char s); simpl; [|done].
  by destruct (PyStr.isspace_char c).
Qed.

Lemma strip_lower s : PyStr.strip (PyStr.lower s) = PyStr.lower (PyStr.strip s).
Proof. unfold PyStr.strip. by rewrite lstrip_lower, rstrip_lower. Qed.

Lemma rstrip_idem p s :
  PyStr.rstrip_by p (PyStr.rstrip_by p s) = PyStr.rstrip_by p s.
Proof.
  induction s as [|c s IH]; simpl; [done|].
  destruct (PyStr.rstrip_by p s) as [|d r] eqn:Hr.
  - destruct (p c) eqn:Hc; simpl; [done|]. by rewrite Hc.
  - simpl in *. by rewrite IH.
Qed.

(** A string that is empty or starts with a character that [p] refuses. *)
Lemma lstrip_fixed p s :
  match s with EmptyString => True | String c _ => p c = false end →
  PyStr.lstrip_by p s = s.
Proof. destruct s as [|c s]; simpl; [done|]. by intros ->. Qed.

Lemma lstrip_head p s :
  match PyStr.lstrip_by p s with
  | EmptyString => True
  | String c _ => p c = false
  end.
Proof.
  induction s as [|c s IH]; simpl; [done|].
  destruct (p c) eqn:Hc; [done|]. done.
Qed.

Lemma rstrip_head p s :
  match s with EmptyString => True | String c _ => p c = false end →
  match PyStr.rstrip_by p s with
  | EmptyString => True
  | String c _ => p c = false
  end.
Proof.
  destruct s as [|c s]; simpl; [done|]. intros Hc.
  destruct (PyStr.rstrip_by p s); [by rewrite Hc|done].
Qed.

Lemma strip_idem s : PyStr.strip (PyStr.strip s) = PyStr.strip s.
Proof.
  unfold PyStr.strip.
  rewrite (lstrip_fixed _ (PyStr.rstrip_by _ _)).
  - apply rstrip_idem.
  - apply rstrip_head, lstrip_head.
Qed.

Lemma normal_form_idem tok :
  PyStr.lower (PyStr.strip (PyStr.lower (PyStr.strip tok)))
  = PyStr.lower (PyStr.strip tok).
Proof. by rewrite strip_lower, strip_idem, lower_idem. Qed.

Lemma classify_normal_form tok tok' :
  PyStr.lower (PyStr.strip tok) = PyStr.lower (PyStr.strip tok') →
  classify tok = classify tok'.
Proof. unfold classify, split_sign. by intros ->. Qed.

Lemma parse_tokens_normal_form toks toks' : ∀ result,
  Forall2 (fun tok tok' =>
             PyStr.lower (PyStr.strip tok') = PyStr.lower (PyStr.strip tok))
          toks toks' →
  parse_tokens result toks' = parse_tokens result toks.
Proof.
  intros result Hall. revert result.
  induction Hall as [|tok tok' toks toks' Htok Hall IH]; intros result; simpl; [done|].
  unfold parse_token. rewrite (classify_normal_form tok' tok Htok).
  destruct (classify tok) as [e|[[sign ty] id]]; [done|]. apply IH.
Qed.

(** X5.  Upper case and the blanks around a token do not matter:
    [build_element_ids_dict] answers the same on two lists whose tokens
    agree once trimmed and put in lower case, and so the same on a list
    and on its tokens trimmed and put in lower case. *)
Theorem build_element_ids_dict_ignores_case toks toks' :
  Forall2 (fun tok tok' =>
             PyStr.lower (PyStr.strip tok') = PyStr.lower (PyStr.strip tok))
          toks toks' →
  build_element_ids_dict toks' = build_element_ids_dict toks
  ∧ build_element_ids_dict (map (fun tok => PyStr.lower (PyStr.strip tok)) toks)
    = build_element_ids_dict toks.
Proof.
  intros Hall. unfold build_element_ids_dict.
  split; [by apply parse_tokens_normal_form|].
  apply parse_tokens_normal_form. clear. induction toks as [|tok toks IH]; simpl.
  - constructor.
  - constructor; [apply normal_form_idem | done].
Qed.

(** ** The changeset ids after normalisation *)

Lemma str_lt_gt a b : String.compare a b = Gt → str_lt b a.
Proof.
  unfold str_lt. intros H. rewrite String.compare_antisym, H. done.
Qed.

Lemma str_lt_irrefl a : ¬ str_lt a a.
Proof.
  unfold str_lt. intros H.
  pose proof (String.compare_antisym a a) as Ha. rewrite H in Ha. done.
Qed.

Lemma str_lt_le a b : str_lt a b → String.le a b.
Proof. unfold str_lt, String.le, String.leb. by intros ->. Qed.

Lemma str_lt_trans a b c : str_lt a b → str_lt b c → str_lt a c.
Proof.
  intros Hab Hbc.
  assert (String.le a c) as Hac.
  { etrans; by apply str_lt_le. }
  unfold String.le, String.leb in Hac. unfold str_lt.
  destruct (String.compare a c) eqn:Hc; [|done..].
  apply String.compare_eq_iff in Hc as ->.
  unfold str_lt in Hab, Hbc. rewrite String.compare_antisym, Hbc in Hab. done.
Qed.

Lemma insert_sorted_elem x l y : y ∈ insert_sorted x l → y = x ∨ y ∈ l.
Proof.
  induction l as [|z l IH]; simpl.
  { intros ->%list_elem_of_singleton. by left. }
  destruct (String.compare x z) eqn:Hc.
  - by right.
  - intros [->|?]%elem_of_cons; [by left | by right].
  - intros [->|Hin]%elem_of_cons; [right; left|].
    destruct (IH Hin) as [->|?]; [by left | right; by right].
Qed.

Lemma elem_insert_sorted x l y : y = x ∨ y ∈ l → y ∈ insert_sorted x l.
Proof.
  induction l as [|z l IH]; simpl.
  { intros [->|?%elem_of_nil]; [left | done]. }
  destruct (String.compare x z) eqn:Hc.
  - apply String.compare_eq_iff in Hc as ->. intros [->|?]; [left | done].
  - intros [->|?]; [left | by right].
  - intros [->|[->|?]%elem_of_cons]; [right; apply IH; by left | left |].
    right. apply IH. by right.
Qed.

Lemma insert_sorted_sorted x l :
  StronglySorted str_lt l → StronglySorted str_lt (insert_sorted x l).
Proof.
  induction 1 as [|z l Hl IH Hz]; simpl; [repeat constructor|].
  destruct (String.compare x z) eqn:Hc.
  - by constructor.
  - constructor; [by constructor|]. constructor; [done|].
    eapply Forall_impl; [exact Hz|]. intros y. by apply str_lt_trans.
  - constructor; [done|]. apply Forall_forall. intros y Hy.
    apply insert_sorted_elem in Hy as [->|Hy]; [by apply str_lt_gt|].
    rewrite Forall_forall in Hz. by apply Hz.
Qed.

Lemma sorted_set_sorted l : StronglySorted str_lt (sorted_set l).
Proof.
  induction l; simpl; [constructor | by apply insert_sorted_sorted].
Qed.

Lemma sorted_set_elem l y : y ∈ sorted_set l ↔ y ∈ l.
Proof.
  induction l as [|x l IH]; simpl; [done|]. split.
  - intros [->|?]%insert_sorted_elem; [left | right; by apply IH].
  - intros [->|?]%elem_of_cons; apply elem_insert_sorted; [by left|].
    right. by apply IH.
Qed.

Lemma str_lt_sorted_NoDup l : StronglySorted str_lt l → NoDup l.
Proof.
  induction 1 as [|x l Hl IH Hx]; constructor; [|done].
  intros Hin. rewrite Forall_forall in Hx. by apply (str_lt_irrefl x), Hx.
Qed.

(** X6.  The changeset ids that [main] works on are in strictly ascending
    order of Python's string comparison, hence without repetition, and
    they are exactly the trimmed string forms of the truthy values given:
    0 and the empty string are dropped, repeated ids are kept once. *)
Theorem normalize_ids_sorted_set values :
  StronglySorted str_lt (normalize_ids values)
  ∧ NoDup (normalize_ids values)
  ∧ ∀ s, s ∈ normalize_ids values ↔
         ∃ v, v ∈ values ∧ truthy v = true ∧ s = PyStr.strip (str v).
Proof.
  unfold normalize_ids. split; [apply sorted_set_sorted|].
  split; [apply str_lt_sorted_NoDup, sorted_set_sorted|].
  intros s. rewrite sorted_set_elem, list_elem_of_In, in_map_iff. split.
  - intros (v & <- & [Hv Ht]%filter_In). exists v.
    by rewrite list_elem_of_In.
  - intros (v & Hv & Ht & ->). exists v. split; [done|].
    apply filter_In. by rewrite <- list_elem_of_In.
Qed.

Lemma sorted_last_greatest l c :
  StronglySorted str_lt l → last l = Some c →
  ∀ x, x ∈ l → x = c ∨ str_lt x c.
Proof.
  induction 1 as [|y l Hl IH Hy]; [done|].
  rewrite last_cons. destruct (last l) as [c'|] eqn:Hlast.
  - intros [= ->] x [->|Hx]%elem_of_cons; [|by apply IH].
    right. rewrite Forall_forall in Hy. by apply Hy, last_Some_elem_of.
  - apply last_None in Hlast as ->.
    intros [= ->] x [->|?%elem_of_nil]%elem_of_cons; [by left | done].
Qed.

(** ** Events that stop the run *)

Section Halting.

Context {Json Element OsmChange : Type}.
Variable halts : event Json Element → option (Z + exn).

Abbreviation M := (@M Json Element).
Abbreviation event := (event Json Element).

Lemma Forall_removelast' {A} (P : A → Prop) (l : list A) :
  Forall P l → Forall P (removelast l).
Proof.
  induction 1 as [|x l Hx Hl IH]; simpl; [constructor|].
  destruct l; [constructor | by constructor].
Qed.

Lemma elem_of_removelast_or_last' {A} (l : list A) x :
  x ∈ l → x ∈ removelast l ∨ last l = Some x.
Proof.
  destruct l as [|y l _] using rev_ind; [by intros ?%elem_of_nil|].
  rewrite removelast_last, last_snoc, elem_of_app, list_elem_of_singleton.
  naive_solver.
Qed.

Lemma halting_bind {A B} (m : M A) (f : A → M B) :
  halting halts m → (∀ a, halting halts (f a)) → halting halts (m ≫= f).
Proof.
  intros (Hinit & Hnormal & Hstop) Hf. unfold halting.
  rewrite trace_bind, result_bind.
  destruct (result m) as [a|c|e] eqn:Hres.
  - specialize (Hnormal a eq_refl).
    destruct (Hf a) as (Hinit' & Hnormal' & Hstop'). split; [|split].
    + destruct (trace (f a)) as [|ev tr] eqn:Htr.
      * rewrite app_nil_r. by apply Forall_removelast'.
      * rewrite removelast_app by done. apply Forall_app. by split.
    + intros b Hb. apply Forall_app. split; [done|]. by eapply Hnormal'.
    + intros ev h [Hev|Hev]%elem_of_app Hh; [|by eapply Hstop'].
      rewrite Forall_forall in Hnormal. rewrite (Hnormal ev Hev) in Hh. done.
  - rewrite app_nil_r. split; [done|]. split; [done|].
    intros ev h Hev Hh. pose proof (Hstop ev h Hev Hh) as Heq.
    destruct h; simpl in *; congruence.
  - rewrite app_nil_r. split; [done|]. split; [done|].
    intros ev h Hev Hh. pose proof (Hstop ev h Hev Hh) as Heq.
    destruct h; simpl in *; congruence.
Qed.

(** A piece none of whose events stops the body. *)
Lemma halting_quiet {A} (m : M A) :
  only (fun ev => halts ev = None) m → halting halts m.
Proof.
  unfold only. intros Hall.
  split; [by apply Forall_removelast'|]. split; [done|].
  intros ev h Hev Hh. rewrite Forall_forall in Hall.
  rewrite (Hall ev Hev) in Hh. done.
Qed.

Lemma halting_nil {A} (o : outcome A) : halting halts (([], o) : M A).
Proof. apply halting_quiet. constructor. Qed.

Lemma halting_print msg : halts (Print msg) = None → halting halts (print msg).
Proof. intros. apply halting_quiet. by repeat constructor. Qed.

Lemma halting_prints msgs :
  (∀ msg, halts (Print msg) = None) → halting halts (prints msgs).
Proof. intros. apply halting_quiet. by apply only_prints. Qed.

Lemma halting_when b (m : M unit) : halting halts m → halting halts (when b m).
Proof. destruct b; [done|]. intros _. apply halting_nil. Qed.

(** A call whose exception, and nothing else, stops the body. *)
Lemma halting_call {A} ev (answer : exn + A) :
  halts ev = inr <$> failure answer → halting halts (call ev answer).
Proof.
  intros Hev. unfold halting, call. simpl.
  destruct answer as [e|a]; simpl in Hev.
  - split; [constructor|]. split; [done|].
    intros ev' h ->%list_elem_of_singleton. rewrite Hev. by intros [= <-].
  - split; [constructor|]. split; [by repeat constructor|].
    intros ev' h ->%list_elem_of_singleton. by rewrite Hev.
Qed.

(** A call that does not stop the body, whatever its answer. *)
Lemma halting_call_quiet {A} ev (answer : exn + A) :
  halts ev = None → halting halts (call ev answer).
Proof. intros. apply halting_quiet. by apply only_call. Qed.

(** A call after whose answer the body decides to stop. *)
Lemma halting_call_bind {A B} ev (answer : exn + A) (f : A → M B) :
  (∀ a, halting halts (f a)) →
  (∀ h, halts ev = Some h →
     ∃ a, answer = inr a ∧ f a = (([], stopped h) : M B)) →
  halting halts (call ev answer ≫= f).
Proof.
  intros Hf Hstop. destruct (halts ev) as [h|] eqn:Hh.
  - destruct (Hstop h eq_refl) as (a & -> & Ha).
    rewrite (M_eta (_ ≫= _)), trace_call_bind, result_call_bind, Ha. simpl.
    split; [constructor|]. split.
    + intros b Hb. destruct h; discriminate.
    + intros ev' h' ->%list_elem_of_singleton. rewrite Hh. by intros [= <-].
  - apply halting_bind; [|done]. by apply halting_call_quiet.
Qed.

(** The event that stops a piece is its last. *)
Lemma halting_last {A} (m : M A) ev h :
  halting halts m → ev ∈ trace m → halts ev = Some h →
  result m = stopped h ∧ last (trace m) = Some ev.
Proof.
  intros (Hinit & _ & Hstop) Hev Hh. split; [by eapply Hstop|].
  apply elem_of_removelast_or_last' in Hev as [Hev|?]; [|done].
  rewrite Forall_forall in Hinit. rewrite (Hinit ev Hev) in Hh. done.
Qed.

End Halting.

(** Walks through a piece of the body for [halting]; [side] settles what
    [halts] says of one event. *)
Ltac halting_step side :=
  first
    [ apply halting_bind; [|intros]
    | apply halting_print; side
    | apply halting_prints; intros; side
    | apply halting_call; side
    | apply halting_call_quiet; side
    | apply halting_when
    | apply halting_nil
    | match goal with
      | |- halting _ (if ?b then _ else _) => destruct b
      | |- halting _ (match ?x with _ => _ end) => destruct x
      | |- halting _ (let '(_, _) := ?x in _) => destruct x
      end ].

Section CollaboratorRaises.

Context {Json Element OsmChange : Type}.
Variable env : Env Json Element OsmChange.
Variable args : Args.

Lemma halting_raise_lift {A} (r : exn + A) :
  halting (halts_raise env) (lift (Json:=Json) (Element:=Element) r).
Proof. apply halting_nil. Qed.

Lemma halting_raise_assert b msg :
  halting (halts_raise env) (assert (Json:=Json) (Element:=Element) b msg).
Proof. destruct b; apply halting_nil. Qed.

Lemma halting_raise_download ue um ids : ∀ diffs,
  halting (halts_raise env) (download env args ue um ids diffs).
Proof.
  induction ids as [|id ids IH]; intros diffs; cbn [download];
    [apply halting_nil|].
  apply halting_bind; [|done].
  unfold download_one, check_moderator, retrieve.
  repeat first [ apply halting_raise_lift | apply halting_raise_assert
               | halting_step ltac:(reflexivity) ].
Qed.

Lemma halting_raise_discuss ids : ∀ i total text,
  halting (halts_raise env) (discuss env i total ids text).
Proof.
  induction ids as [|id ids IH]; intros i total text; cbn [discuss];
    [apply halting_nil|].
  repeat first [ apply IH | apply halting_raise_lift
               | halting_step ltac:(reflexivity) ].
Qed.

Lemma halting_raise_main : halting (halts_raise env) (main env args).
Proof.
  unfold main. apply halting_bind.
  { unfold prelude, validate_ids, login, check_limits.
    repeat first [ apply halting_raise_lift | apply halting_raise_assert
                 | halting_step ltac:(reflexivity) ]. }
  intros [[[ids tags] ue] um].
  apply halting_bind; [apply halting_raise_download|]. intros diffs.
  unfold finish, conclude, save, upload, after_upload, print_warn_elements,
    filter_discussion_changesets.
  repeat first [ apply halting_raise_discuss | apply halting_raise_lift
               | apply halting_raise_assert
               | halting_step ltac:(reflexivity) ].
Qed.

(** X7.  No exception of a collaborator is swallowed or retried: the
    call that a collaborator answers with an exception is the last event
    of [main], which ends with that exception, and [main_timer] exits
    with -2. *)
Theorem collaborator_exception_is_fatal ev e :
  ev ∈ trace (main env args) → raised env ev = Some e →
  result (main env args) = Raise e
  ∧ last (trace (main env args)) = Some ev
  ∧ snd (main_timer (main env args)) = -2.
Proof.
  intros Hev He.
  destruct (halting_last (halts_raise env) _ ev (inr e) halting_raise_main Hev)
    as [Hres Hlast].
  { unfold halts_raise. by rewrite He. }
  rewrite main_timer_code, Hres. done.
Qed.

End CollaboratorRaises.

Section FalsyAnswers.

Context {Json Element OsmChange : Type}.
Variable env : Env Json Element OsmChange.
Variable args : Args.

Lemma halting_falsy_lift {A} (r : exn + A) :
  halting (halts_falsy_diff env) (lift (Json:=Json) (Element:=Element) r).
Proof. apply halting_nil. Qed.

Lemma halting_falsy_assert b msg :
  halting (halts_falsy_diff env) (assert (Json:=Json) (Element:=Element) b msg).
Proof. destruct b; apply halting_nil. Qed.

Lemma halting_falsy_kinds {A} ks (m : @M Json Element A) :
  KHistory ∉ ks → only (in_kinds ks) m → halting (halts_falsy_diff env) m.
Proof.
  intros Hks Hm. apply halting_quiet. eapply Forall_impl; [exact Hm|].
  intros ev Hev. unfold halts_falsy_diff.
  destruct ev; try reflexivity. by destruct Hks.
Qed.

Lemma halting_falsy_retrieve cs diffs :
  halting (halts_falsy_diff env) (retrieve env args cs diffs).
Proof.
  unfold retrieve. destruct (negb _); [|apply halting_nil].
  apply halting_bind; [by apply halting_print|]. intros _.
  apply halting_call_bind.
  - intros diff.
    repeat first [ apply halting_falsy_assert
                 | halting_step ltac:(reflexivity) ].
  - intros h. unfold halts_falsy_diff. simpl.
    destruct (get_changeset_elements_history env _ _ _) as [e|diff]; [done|].
    destruct (negb (truthy_diff diff)) eqn:Hdiff; [|done].
    intros [= <-]. exists diff. by rewrite Hdiff.
Qed.

Lemma halting_falsy_download ue um ids : ∀ diffs,
  halting (halts_falsy_diff env) (download env args ue um ids diffs).
Proof.
  induction ids as [|id ids IH]; intros diffs; cbn [download];
    [apply halting_nil|].
  apply halting_bind; [|done].
  unfold download_one, check_moderator.
  repeat first [ apply halting_falsy_retrieve | apply halting_falsy_lift
               | halting_step ltac:(reflexivity) ].
Qed.

Lemma halting_falsy_main : halting (halts_falsy_diff env) (main env args).
Proof.
  unfold main. apply halting_bind.
  { eapply halting_falsy_kinds; [|apply only_prelude_kinds]. set_solver. }
  intros [[[ids tags] ue] um].
  apply halting_bind; [apply halting_falsy_download|]. intros diffs.
  eapply halting_falsy_kinds; [|apply only_finish]. set_solver.
Qed.

(** X8.  When the history client answers a falsy diff ([None] or a
    dictionary without keys), [main] returns -1 at once: the call is its
    last event, nothing is printed, and the exit code is -1. *)
Theorem falsy_diff_ends_the_run cs steps f diff :
  Call_get_changeset_elements_history cs steps f ∈ trace (main env args) →
  get_changeset_elements_history env cs steps f = inr diff →
  truthy_diff diff = false →
  result (main env args) = Return (-1)
  ∧ last (trace (main env args))
    = Some (Call_get_changeset_elements_history cs steps f)
  ∧ snd (main_timer (main env args)) = -1.
Proof.
  intros Hev Hanswer Hdiff.
  destruct (halting_last (halts_falsy_diff env) _ _ (inl (-1)) halting_falsy_main Hev)
    as [Hres Hlast].
  { unfold halts_falsy_diff. simpl. by rewrite Hanswer, Hdiff. }
  rewrite main_timer_code, Hres. done.
Qed.

(** X9.  When [upload_diff] answers a falsy changeset id ([None] or the
    empty string), [main] returns -1 at once: the upload is its last
    event, no success is reported and no comment is posted. *)
Theorem falsy_upload_id_ends_the_run inv c x cid :
  Call_upload_diff inv c x ∈ trace (main env args) →
  upload_diff env inv c x = inr cid →
  truthy_str cid = false →
  result (main env args) = Return (-1)
  ∧ last (trace (main env args)) = Some (Call_upload_diff inv c x)
  ∧ snd (main_timer (main env args)) = -1.
Proof.
  intros Hev Hanswer Hcid.
  destruct (main_upload_event env args inv c x Hev) as (ids & w & pre & _ & Hmain).
  rewrite Hanswer in Hmain. unfold after_upload in Hmain.
  rewrite Hcid in Hmain. rewrite main_timer_code, Hmain.
  unfold prepend. simpl. rewrite app_nil_r, last_snoc. done.
Qed.

End FalsyAnswers.

(** ** The exit code *)

Section ExitCode.

Context {Json Element OsmChange : Type}.
Variable env : Env Json Element OsmChange.
Variable args : Args.

Lemma exits_cleanly_bind {A B} (m : @M Json Element A) (f : A → @M Json Element B) :
  exits_cleanly m → (∀ a, exits_cleanly (f a)) → exits_cleanly (m ≫= f).
Proof.
  intros Hm Hf code. rewrite trace_bind, result_bind.
  destruct (result m) as [a|c|e] eqn:Hres.
  - intros Hcode. destruct (Hf a code Hcode) as [?|(-> & ev & Hlast & Hev)];
      [by left|].
    right. split; [done|]. exists ev. split; [|done].
    destruct (trace (f a)) as [|ev' tr] eqn:Htr; [done|].
    rewrite last_app, Hlast. done.
  - intros [= ->]. rewrite app_nil_r. by apply Hm.
  - done.
Qed.

(** A piece that never returns from the function. *)
Lemma exits_cleanly_goes_on {A} (m : @M Json Element A) :
  (∀ code, result m ≠ Return code) → exits_cleanly m.
Proof. intros Hm code Hcode. by destruct (Hm code). Qed.

Lemma exits_cleanly_print msg : exits_cleanly (print (Json:=Json) (Element:=Element) msg).
Proof. by apply exits_cleanly_goes_on. Qed.

Lemma exits_cleanly_prints msgs :
  exits_cleanly (prints (Json:=Json) (Element:=Element) msgs).
Proof. by apply exits_cleanly_goes_on. Qed.

Lemma exits_cleanly_call {A} ev (answer : exn + A) :
  exits_cleanly (call (Json:=Json) (Element:=Element) ev answer).
Proof. apply exits_cleanly_goes_on. by destruct answer. Qed.

Lemma exits_cleanly_lift {A} (r : exn + A) :
  exits_cleanly (lift (Json:=Json) (Element:=Element) r).
Proof. apply exits_cleanly_goes_on. by destruct r. Qed.

Lemma exits_cleanly_assert b msg :
  exits_cleanly (assert (Json:=Json) (Element:=Element) b msg).
Proof. apply exits_cleanly_goes_on. by destruct b. Qed.

Lemma exits_cleanly_when b (m : @M Json Element unit) :
  exits_cleanly m → exits_cleanly (when b m).
Proof. destruct b; [done|]. intros _. by apply exits_cleanly_goes_on. Qed.

Lemma exits_cleanly_ret {A} (a : A) :
  exits_cleanly (mret a : @M Json Element A).
Proof. by apply exits_cleanly_goes_on. Qed.

Lemma exits_cleanly_raise {A} e :
  exits_cleanly (raise (Json:=Json) (Element:=Element) (A:=A) e).
Proof. by apply exits_cleanly_goes_on. Qed.

Lemma exits_cleanly_refuses {A} :
  exits_cleanly (returns (Json:=Json) (Element:=Element) (A:=A) (-1)).
Proof. intros code [= <-]. by left. Qed.

(** The message of a success, then [return 0]. *)
Lemma exits_cleanly_success {A} msg :
  reports_success (Print msg : event Json Element) →
  exits_cleanly (print (Json:=Json) (Element:=Element) msg ≫= fun _ => returns (A:=A) 0).
Proof. intros Hmsg code [= <-]. right. split; [done|]. by eexists. Qed.

End ExitCode.

(** Walks through a piece of the body for [exits_cleanly]. *)
Ltac exits_step :=
  first
    [ by apply exits_cleanly_success
    | apply exits_cleanly_bind; [|intros]
    | apply exits_cleanly_print
    | apply exits_cleanly_prints
    | apply exits_cleanly_call
    | apply exits_cleanly_lift
    | apply exits_cleanly_assert
    | apply exits_cleanly_when
    | apply exits_cleanly_ret
    | apply exits_cleanly_raise
    | apply exits_cleanly_refuses
    | match goal with
      | |- exits_cleanly (if ?b then _ else _) => destruct b
      | |- exits_cleanly (match ?x with _ => _ end) => destruct x
      | |- exits_cleanly (let '(_, _) := ?x in _) => destruct x
      end ].

Section ExitCodeOfMain.

Context {Json Element OsmChange : Type}.
Variable env : Env Json Element OsmChange.
Variable args : Args.

Lemma exits_cleanly_download ue um ids : ∀ diffs,
  exits_cleanly (download env args ue um ids diffs).
Proof.
  induction ids as [|id ids IH]; intros diffs; cbn [download];
    [apply exits_cleanly_ret|].
  apply exits_cleanly_bind; [|done].
  unfold download_one, check_moderator, retrieve. repeat exits_step.
Qed.

Lemma exits_cleanly_discuss ids : ∀ i total text,
  exits_cleanly (discuss env i total ids text).
Proof.
  induction ids as [|id ids IH]; intros i total text; cbn [discuss];
    [apply exits_cleanly_ret|].
  repeat first [apply IH | exits_step].
Qed.

Lemma exits_cleanly_main : exits_cleanly (main env args).
Proof.
  unfold main. apply exits_cleanly_bind.
  { unfold prelude, validate_ids, login, check_limits. repeat exits_step. }
  intros [[[ids tags] ue] um].
  apply exits_cleanly_bind; [apply exits_cleanly_download|]. intros diffs.
  unfold finish, conclude, save, upload, after_upload, print_warn_elements,
    filter_discussion_changesets.
  repeat first [apply exits_cleanly_discuss | exits_step].
Qed.

(** X10.  The exit code of the program is 0, -1 or -2: it is -2 exactly
    when [main] raised an exception, and 0 only when the last thing
    [main] did was to report a success ("Nothing to revert", "Success"
    or the URL of the new changeset). *)
Theorem exit_code_of_main :
  snd (main_timer (main env args)) ∈ [0; -1; -2]
  ∧ (snd (main_timer (main env args)) = -2
     ↔ ∃ e, result (main env args) = Raise e)
  ∧ (snd (main_timer (main env args)) = 0 →
     ∃ ev, last (trace (main env args)) = Some ev ∧ reports_success ev).
Proof.
  rewrite main_timer_code. pose proof exits_cleanly_main as Hmain.
  unfold exits_cleanly in Hmain.
  destruct (result (main env args)) as [[]|code|e].
  - destruct (Hmain code eq_refl) as [->|(-> & Hev)].
    + split; [set_solver|]. split; [|done]. split; [done|]. by intros [e ?].
    + split; [set_solver|]. split; [|done]. split; [done|]. by intros [e ?].
  - split; [set_solver|]. split; [|done]. split; [by exists e|done].
Qed.

End ExitCodeOfMain.

(** ** What reaches the collaborators *)

Section Reaches.

Context {Json Element OsmChange : Type}.
Variable env : Env Json Element OsmChange.
Variable args : Args.

(** What [main] knows when the first phase is over. *)
Lemma prelude_normal ids tags ue um :
  result (prelude env args) = Normal (ids, tags, ue, um) →
  ids = normalize_ids (changeset_ids args)
  ∧ ids ≠ [] ∧ forallb PyStr.isnumeric ids = true
  ∧ tags = normalize_tags (only_tags args)
  ∧ ∃ user config limit,
      get_authorized_user env = inr user
      ∧ ue = changesets_count user
      ∧ um = is_osm_moderator env (roles user)
      ∧ limit_config_of env user = inr config
      ∧ changesets_limit_of config ue = inr limit
      ∧ limit ≠ 0 ∧ Z.of_nat (length ids) <= limit.
Proof.
  unfold prelude. rewrite result_bind, validate_ids_result. cbv zeta.
  destruct (bool_decide _) eqn:Hnil; [done|].
  destruct (forallb _ _) eqn:Hnum; [|done].
  rewrite result_bind, login_run.
  destruct (if _ && _ then _ else _) as [u p].
  destruct (parse_oauth_token env args) as [?|tok]; [done|].
  destruct (OsmApi env u p tok) as [?|[]]; [done|].
  destruct (get_authorized_user env) as [?|user]; [done|].
  cbn [result snd]. rewrite result_bind. unfold check_limits.
  rewrite result_lift_bind.
  destruct (limit_config_of env user) as [?|config] eqn:Hconfig; [done|].
  rewrite result_lift_bind.
  destruct (changesets_limit_of config (changesets_count user))
    as [?|limit] eqn:Hlimit; [done|].
  destruct (limit =? 0) eqn:Hzero.
  { rewrite result_lift_bind. by destruct (min_edits_of config). }
  destruct (limit <? _) eqn:Hmany.
  { rewrite result_print_bind, result_bind.
    by destruct (limit_increase_of _ _) as [k|]; [destruct (negb _)|]. }
  intros [= <- <- <- <-].
  apply bool_decide_eq_false in Hnil.
  split; [done|]. split; [done|]. split; [done|]. split; [done|].
  exists user, config, limit. repeat split; try done; lia.
Qed.

(** The events of [main] after the first phase. *)
Lemma main_later_event ev :
  ev ∈ trace (main env args) →
  kind_of ev ∉ [KPrint; KOsmApi; KAuthorizedUser] →
  ∃ ids tags ue um,
    result (prelude env args) = Normal (ids, tags, ue, um)
    ∧ (ev ∈ trace (download env args ue um ids [])
       ∨ ∃ diffs, result (download env args ue um ids []) = Normal diffs
                  ∧ ev ∈ trace (finish env args ids tags ue diffs)).
Proof.
  rewrite main_trace. intros [Hev|Hev]%elem_of_app Hkind.
  { pose proof only_prelude_kinds env args as Hpre.
    unfold only in Hpre. rewrite Forall_forall in Hpre.
    destruct Hkind. apply (Hpre ev Hev). }
  destruct (result (prelude env args)) as [[[[ids tags] ue] um]|c|e];
    [|by apply elem_of_nil in Hev..].
  exists ids, tags, ue, um. split; [done|].
  apply elem_of_app in Hev as [Hev|Hev]; [by left|]. right.
  destruct (result (download env args ue um ids [])) as [diffs|c|e];
    [|by apply elem_of_nil in Hev..].
  by exists diffs.
Qed.

(** X11.  Nothing is downloaded, inverted, saved or uploaded unless the
    changeset ids are valid and within the limit of the account: there
    is at least one id, every id is numeric, and their number is at most
    the limit that the configuration gives to the logged-in user, which
    is not 0. *)
Theorem work_only_within_limits ev :
  ev ∈ trace (main env args) →
  kind_of ev ∉ [KPrint; KOsmApi; KAuthorizedUser] →
  normalize_ids (changeset_ids args) ≠ []
  ∧ forallb PyStr.isnumeric (normalize_ids (changeset_ids args)) = true
  ∧ ∃ user config limit,
      get_authorized_user env = inr user
      ∧ limit_config_of env user = inr config
      ∧ changesets_limit_of config (changesets_count user) = inr limit
      ∧ limit ≠ 0
      ∧ Z.of_nat (length (normalize_ids (changeset_ids args))) <= limit.
Proof.
  intros Hev Hkind.
  destruct (main_later_event ev Hev Hkind) as (ids & tags & ue & um & Hpre & _).
  apply prelude_normal in Hpre
    as (-> & Hnil & Hnum & _ & user & config & limit & Huser & -> & _ & ? & ? & ? & ?).
  split; [done|]. split; [done|]. by exists user, config, limit.
Qed.

Lemma only_loop_call_download ue um ids : ∀ diffs,
  only (loop_call env args ue um) (download env args ue um ids diffs).
Proof.
  induction ids as [|id ids IH]; intros diffs; cbn [download];
    [apply only_nil|].
  apply only_bind; [|done]. rewrite download_one_run.
  destruct (PyStr.int id) as [?|n]; [apply only_nil|].
  destruct (get_changeset env n) as [?|cs] eqn:Hcs; [by repeat constructor|].
  apply only_prepend; [by repeat constructor|].
  apply only_bind.
  { unfold check_moderator.
    destruct (_ && _) eqn:Hguard; [|apply only_nil].
    apply andb_true_iff in Hguard as [Hue Hum].
    apply only_bind.
    - apply only_call. simpl. split; [lia|]. split; [by destruct um|]. eauto.
    - intros [u|]; [|apply only_nil].
      destruct (is_osm_moderator env (roles u)); [|apply only_nil].
      by repeat constructor. }
  intros _. apply only_bind; [by repeat constructor|]. intros _.
  unfold retrieve.
  destruct (negb (changeset_size cs =? 0)) eqn:Hsize; [|apply only_nil].
  apply only_bind; [by repeat constructor|]. intros _.
  apply only_bind.
  - apply only_call. simpl. split; [|eauto].
    apply negb_true_iff in Hsize. lia.
  - intros diff. destruct (negb (truthy_diff diff)); [apply only_nil|].
    apply only_bind; [apply only_assert|]. intros _.
    apply only_bind; [by repeat constructor|]. intros _. apply only_nil.
Qed.

Lemma main_loop_call ev :
  ev ∈ trace (main env args) → kind_of ev ∈ [KGetUser; KHistory] →
  ∃ user, get_authorized_user env = inr user
    ∧ loop_call env args (changesets_count user) (is_osm_moderator env (roles user)) ev.
Proof.
  intros Hev Hkind.
  destruct (main_download_event env args ev Hev) as (ids & tags & ue & um & Hpre & Hev').
  { set_solver. }
  apply prelude_normal in Hpre
    as (_ & _ & _ & _ & user & _ & _ & Huser & -> & -> & _).
  exists user. split; [done|].
  pose proof (only_loop_call_download (changesets_count user)
                (is_osm_moderator env (roles user)) ids []) as Hall.
  unfold only in Hall. rewrite Forall_forall in Hall. by apply Hall.
Qed.

(** X12.  The user of a changeset is looked up only for a logged-in user
    who is no moderator and has fewer edits than
    [CHANGESETS_LIMIT_MODERATOR_REVERT], and the user looked up is the
    author ([@uid]) of a changeset that the service answered. *)
Theorem get_user_only_for_newer_users user_id :
  Call_get_user user_id ∈ trace (main env args) →
  ∃ user changeset_id changeset,
    get_authorized_user env = inr user
    ∧ changesets_count user < CHANGESETS_LIMIT_MODERATOR_REVERT env
    ∧ is_osm_moderator env (roles user) = false
    ∧ get_changeset env changeset_id = inr changeset
    ∧ user_id = uid changeset.
Proof.
  intros Hev. destruct (main_loop_call _ Hev) as (user & Huser & Hcall).
  { simpl. set_solver. }
  destruct Hcall as (? & ? & n & cs & ? & ?). by exists user, n, cs.
Qed.

(** X13.  The history client is asked only about a changeset that the
    service answered and that declares at least one element, with one
    step more than the changeset has partitions and with the
    [query_filter] of the command line. *)
Theorem history_only_of_nonempty_changesets changeset steps filter :
  Call_get_changeset_elements_history changeset steps filter
    ∈ trace (main env args) →
  changeset_size changeset ≠ 0
  ∧ steps = partition_count changeset + 1
  ∧ filter = query_filter args
  ∧ ∃ changeset_id, get_changeset env changeset_id = inr changeset.
Proof.
  intros Hev. destruct (main_loop_call _ Hev) as (user & Huser & Hcall).
  { simpl. set_solver. }
  exact Hcall.
Qed.

End Reaches.

(** ** Saving, uploading and discussing *)

(** An event cannot be of two kinds. *)
Ltac kinds_clash H1 H2 :=
  unfold in_kinds in *; simpl in H1, H2;
  match type of H1 with
  | ?k ∈ _ => destruct k; first [by elem_inv H1 | by elem_inv H2]
  end.

Section Modes.

Context {Json Element OsmChange : Type}.
Variable env : Env Json Element OsmChange.
Variable args : Args.

(** Where an event of the last steps of [main] comes from. *)
Lemma main_conclude_event ev :
  ev ∈ trace (main env args) →
  kind_of ev ∈ [KBuild; KWrite; KMaxSize; KUpload; KDiscuss] →
  ∃ user diffs merged inv w st p inv',
    get_authorized_user env = inr user
    ∧ merge_and_sort_diffs diffs = inr merged
    ∧ invert_diff env (normalize_tags (only_tags args)) merged = inr (inv, w, st)
    ∧ update_parents env inv = inr (p, inv')
    ∧ invert_size inv' ≠ 0
    ∧ ev ∈ trace (conclude env args (normalize_ids (changeset_ids args))
                    (changesets_count user) inv' w st)
    ∧ ∃ pre,
        Forall (in_kinds [KPrint; KOsmApi; KAuthorizedUser; KGetChangeset;
                          KGetUser; KHistory; KInvert; KParents]) pre
        ∧ main env args
          = prepend pre (conclude env args (normalize_ids (changeset_ids args))
                           (changesets_count user) inv' w st).
Proof.
  intros Hev Hkind.
  destruct (main_finish_event env args ev Hev)
    as (ids & tags & ue & um & diffs & Hpre & Hdown & Hev' & Htrace & Hres).
  { set_solver. }
  destruct (finish_conclude_event env args ids tags ue diffs ev Hev' Hkind)
    as (merged & inv & w & st & p & inv' & Hmerged & Hinv & Hparents & Hev'' & Hfinish).
  apply prelude_normal in Hpre
    as (-> & _ & _ & -> & user & _ & _ & Huser & -> & -> & _).
  exists user, diffs, merged, inv, w, st, p, inv'.
  repeat (split; [done|]). split.
  { intros Hzero. rewrite conclude_run, Hzero in Hev''. simpl in Hev''.
    apply list_elem_of_singleton in Hev'' as ->. simpl in Hkind. set_solver. }
  split; [done|].
  exists (trace (prelude env args)
          ++ trace (download env args (changesets_count user)
                      (is_osm_moderator env (roles user))
                      (normalize_ids (changeset_ids args)) [])
          ++ [Print MsgGenerating;
              Call_invert_diff (normalize_tags (only_tags args)) merged;
              Call_update_parents inv]
          ++ if p =? 0 then [] else [Print (MsgFixingParents p)])%list.
  split; cycle 1.
  { rewrite (M_eta (main env args)), Htrace, Hres, Hfinish. unfold prepend.
    cbn [trace result fst snd]. f_equal. by rewrite <- !app_assoc. }
  apply Forall_app. split.
  { eapply Forall_impl; [apply only_prelude_kinds|].
    intros ev0. unfold in_kinds. set_solver. }
  apply Forall_app. split.
  { eapply Forall_impl; [apply only_download_kinds|].
    intros ev0. unfold in_kinds. set_solver. }
  apply Forall_app. split; [by repeat constructor|].
  destruct (p =? 0); by repeat constructor.
Qed.

(** X14.  Saving and uploading exclude each other: with [osc_file] or
    [print_osc] set, the size limit of the service is never asked for,
    nothing is uploaded and no comment is posted; with neither set, no
    change document is built and no file is written. *)
Theorem saving_excludes_uploading :
  (truthy_str (osc_file args) || default false (print_osc args) = true →
   ∀ ev, ev ∈ trace (main env args) →
     kind_of ev ∉ [KMaxSize; KUpload; KDiscuss])
  ∧ (truthy_str (osc_file args) || default false (print_osc args) = false →
     ∀ ev, ev ∈ trace (main env args) → kind_of ev ∉ [KBuild; KWrite]).
Proof.
  split; intros Hmode ev Hev Hkind.
  - destruct (main_conclude_event ev Hev)
      as (user & diffs & merged & inv & w & st & p & inv' & _ & _ & _ & _
          & Hsize & Hev' & _).
    { set_solver. }
    rewrite conclude_run in Hev'. apply Z.eqb_neq in Hsize.
    rewrite Hsize, Hmode in Hev'.
    pose proof (only_elem_of _ _ _ (only_save env args inv' w _) Hev') as Hin.
    kinds_clash Hkind Hin.
  - destruct (main_conclude_event ev Hev)
      as (user & diffs & merged & inv & w & st & p & inv' & _ & _ & _ & _
          & Hsize & Hev' & _).
    { set_solver. }
    rewrite conclude_run in Hev'. apply Z.eqb_neq in Hsize.
    rewrite Hsize, Hmode in Hev'.
    pose proof (only_elem_of _ _ _ (only_upload env args _ _ inv' w st _) Hev')
      as Hin.
    kinds_clash Hkind Hin.
Qed.

(** X15.  The only file [main] writes is [osc_file], and what it writes
    there is the serialisation of the change document that
    [build_osm_change] made of the inverted diff as [update_parents]
    left it. *)
Theorem written_file_is_the_change_document path content :
  Call_write_file path content ∈ trace (main env args) →
  osc_file args = Some path ∧ path ≠ ""
  ∧ ∃ inv p inv' osm_change,
      update_parents env inv = inr (p, inv')
      ∧ build_osm_change env inv' = inr osm_change
      ∧ unparse env osm_change = inr content.
Proof.
  intros Hev.
  destruct (main_conclude_event _ Hev)
    as (user & diffs & merged & inv & w & st & p & inv' & _ & _ & _ & Hparents
        & Hsize & Hev' & _).
  { simpl. set_solver. }
  rewrite conclude_run in Hev'. apply Z.eqb_neq in Hsize. rewrite Hsize in Hev'.
  destruct (_ || _); cycle 1.
  { pose proof (only_elem_of _ _ _ (only_upload env args _ _ inv' w st _) Hev')
      as Hin.
    unfold in_kinds in Hin. simpl in Hin. set_solver. }
  unfold save in Hev'. rewrite trace_print_bind, trace_call_bind in Hev'.
  apply elem_of_cons in Hev' as [?|Hev']; [done|].
  apply elem_of_cons in Hev' as [?|Hev']; [done|].
  destruct (build_osm_change env inv') as [?|osm_change] eqn:Hbuild;
    [by apply elem_of_nil in Hev'|].
  rewrite trace_lift_bind in Hev'.
  destruct (unparse env osm_change) as [?|xml] eqn:Hxml;
    [by apply elem_of_nil in Hev'|].
  rewrite trace_bind in Hev'. apply elem_of_app in Hev' as [Hev'|Hev'].
  - destruct (osc_file args) as [file|] eqn:Hfile; simpl in Hev';
      [|by apply elem_of_nil in Hev'].
    destruct (negb (file =? "")%string) eqn:Hempty;
      [|by apply elem_of_nil in Hev'].
    apply list_elem_of_singleton in Hev'. injection Hev' as -> ->.
    split; [done|]. split.
    { intros ->. done. }
    by exists inv, p, inv', osm_change.
  - destruct (result _); [|by apply elem_of_nil in Hev'..].
    assert (only (in_kinds [KPrint])
              (when (default false (print_osc args)) (print (MsgOsc xml))
               ≫= fun _ => print_warn_elements (Json:=Json) (Element:=Element) w
               ≫= fun _ => print MsgSuccess
               ≫= fun _ => returns (A:=Empty_set) 0)) as Hall.
    { unfold print_warn_elements. repeat only_step. }
    pose proof (only_elem_of _ _ _ Hall Hev') as Hin.
    unfold in_kinds in Hin. simpl in Hin. by elem_inv Hin.
Qed.

(** X16.  What is uploaded is the inverted diff as [update_parents] left
    it, with the comment of the command line; the tags of the new
    changeset are those of [extra_args], over which the statistics of
    the inverter take precedence. *)
Theorem upload_carries_the_reconciled_inversion inv' c x :
  Call_upload_diff inv' c x ∈ trace (main env args) →
  c = comment args
  ∧ ∃ user diffs merged inv w st p,
      get_authorized_user env = inr user
      ∧ merge_and_sort_diffs diffs = inr merged
      ∧ invert_diff env (normalize_tags (only_tags args)) merged = inr (inv, w, st)
      ∧ update_parents env inv = inr (p, inv')
      ∧ (∀ k, x !! k
              = match st !! k with
                | Some v => Some v
                | None => extra_args_of env args
                            (normalize_ids (changeset_ids args))
                            (changesets_count user) !! k
                end).
Proof.
  intros Hev.
  destruct (main_conclude_event _ Hev)
    as (user & diffs & merged & inv & w & st & p & inv0 & Huser & Hmerged
        & Hinv & Hparents & _ & Hev' & _).
  { simpl. set_solver. }
  apply conclude_upload_event in Hev' as (-> & -> & -> & _).
  split; [done|]. exists user, diffs, merged, inv, w, st, p.
  repeat (split; [done|]). intros k. rewrite lookup_union.
  destruct (st !! k), (extra_args_of _ _ _ _ !! k); done.
Qed.

End Modes.

Section Ids.

Context {Json Element OsmChange : Type}.
Variable env : Env Json Element OsmChange.
Variable args : Args.

Lemma download_unconvertible ue um id e ids : ∀ diffs diffs',
  id ∈ ids → PyStr.int id = inl e →
  result (download env args ue um ids diffs) ≠ Normal diffs'.
Proof.
  induction ids as [|id' ids IH]; intros diffs diffs' Hin Hint;
    [by apply elem_of_nil in Hin|].
  cbn [download]. rewrite result_bind.
  destruct (result (download_one env args ue um id' diffs)) as [d|c|e'] eqn:Hone;
    [|done..].
  apply elem_of_cons in Hin as [<-|Hin]; [|by apply IH].
  rewrite download_one_run, Hint in Hone. done.
Qed.

(** The first two phases report no success. *)
Lemma not_success_prelude :
  only (fun ev => ¬ reports_success ev) (prelude env args).
Proof.
  unfold prelude, validate_ids, login, check_limits.
  repeat first
    [ apply only_bind; [|intros] | apply only_print; simpl; tauto
    | apply only_call; simpl; tauto | apply only_lift | apply only_assert
    | apply only_when | apply only_nil
    | match goal with
      | |- only _ (if ?b then _ else _) => destruct b
      | |- only _ (match ?x with _ => _ end) => destruct x
      | |- only _ (let '(_, _) := ?x in _) => destruct x
      end ].
Qed.

Lemma not_success_download ue um ids : ∀ diffs,
  only (fun ev => ¬ reports_success ev) (download env args ue um ids diffs).
Proof.
  induction ids as [|id ids IH]; intros diffs; cbn [download];
    [apply only_nil|].
  apply only_bind; [|done].
  unfold download_one, check_moderator, retrieve.
  repeat first
    [ apply only_bind; [|intros] | apply only_print; simpl; tauto
    | apply only_call; simpl; tauto | apply only_lift | apply only_assert
    | apply only_when | apply only_nil
    | match goal with
      | |- only _ (if ?b then _ else _) => destruct b
      | |- only _ (match ?x with _ => _ end) => destruct x
      end ].
Qed.

(** X17.  A changeset id that [int] refuses stops the run in the loop
    that downloads the changesets, although it has passed the check of
    [isnumeric]: nothing is inverted, saved or uploaded, and the run
    does not return 0. *)
Theorem unconvertible_id_stops_the_run id e :
  id ∈ normalize_ids (changeset_ids args) → PyStr.int id = inl e →
  (∀ ev, ev ∈ trace (main env args) →
     kind_of ev ∉ [KInvert; KParents; KBuild; KWrite; KMaxSize; KUpload; KDiscuss])
  ∧ result (main env args) ≠ Return 0.
Proof.
  intros Hid Hint. split.
  - intros ev Hev Hkind.
    destruct (main_finish_event env args ev Hev Hkind)
      as (ids & tags & ue & um & diffs & Hpre & Hdown & _).
    apply prelude_normal in Hpre as (-> & _).
    by apply (download_unconvertible ue um id e _ [] diffs Hid Hint).
  - intros Hres. destruct (exits_cleanly_main env args 0 Hres)
      as [?|(_ & ev & Hlast & Hsuccess)]; [done|].
    apply last_Some_elem_of in Hlast. rewrite main_trace in Hlast.
    apply elem_of_app in Hlast as [Hev|Hev].
    { by apply (only_elem_of _ _ _ not_success_prelude Hev). }
    destruct (result (prelude env args)) as [[[[ids tags] ue] um]|c|e'] eqn:Hpre;
      [|by apply elem_of_nil in Hev..].
    apply elem_of_app in Hev as [Hev|Hev].
    { by apply (only_elem_of _ _ _ (not_success_download ue um ids []) Hev). }
    destruct (result (download env args ue um ids [])) as [diffs|c|e'] eqn:Hdown;
      [|by apply elem_of_nil in Hev..].
    apply prelude_normal in Hpre as (-> & _).
    by apply (download_unconvertible ue um id e _ [] diffs Hid Hint).
Qed.

End Ids.

Section Discussion.

Context {Json Element OsmChange : Type}.
Variable env : Env Json Element OsmChange.
Variable args : Args.

Lemma filter_discussion_none (tr : list (event Json Element)) :
  Forall (fun ev => kind_of ev ≠ KDiscuss) tr →
  List.filter is_discussion_call tr = [].
Proof.
  induction 1 as [|ev tr Hev _ IH]; [done|]. simpl. rewrite IH.
  by destruct ev.
Qed.

Lemma filter_discussion_prints (msgs : list message) :
  List.filter is_discussion_call (map (Print (Json:=Json) (Element:=Element)) msgs)
  = [].
Proof. by induction msgs. Qed.

Lemma filter_discussion_tail w url :
  List.filter is_discussion_call
    (trace (print_warn_elements (Json:=Json) (Element:=Element) w
            ≫= fun _ => print MsgSuccess
            ≫= fun _ => print (MsgChangesetUrl url)
            ≫= fun _ => returns (A:=Empty_set) 0))
  = [].
Proof.
  apply filter_discussion_none.
  assert (only (in_kinds [KPrint])
            (print_warn_elements (Json:=Json) (Element:=Element) w
             ≫= fun _ => print MsgSuccess
             ≫= fun _ => print (MsgChangesetUrl url)
             ≫= fun _ => returns (A:=Empty_set) 0)) as Hall.
  { unfold print_warn_elements. repeat only_step. }
  eapply Forall_impl; [exact Hall|]. intros ev Hkind Heq.
  unfold in_kinds in Hkind. rewrite Heq in Hkind. by elem_inv Hkind.
Qed.

(** The loop over the comments does not return from [main]. *)
Lemma discuss_goes_on ids : ∀ i total text code,
  result (discuss env i total ids text) ≠ Return code.
Proof.
  induction ids as [|id ids IH]; intros i total text code; cbn [discuss];
    [done|].
  rewrite result_lift_bind. destruct (PyStr.int id) as [?|n]; [done|].
  rewrite result_call_bind.
  destruct (post_discussion_comment env n text) as [?|status]; [done|].
  rewrite result_print_bind. apply IH.
Qed.

(** The comments of a loop that comes to its end. *)
Lemma discuss_posts ids : ∀ i total text,
  result (discuss env i total ids text) = Normal tt →
  ∃ ns,
    Forall2 (fun id n => PyStr.int id = inr n) ids ns
    ∧ List.filter is_discussion_call (trace (discuss env i total ids text))
      = map (fun n => Call_post_discussion_comment n text) ns.
Proof.
  induction ids as [|id ids IH]; intros i total text; cbn [discuss].
  { intros _. exists []. by split; [constructor|]. }
  rewrite result_lift_bind, trace_lift_bind.
  destruct (PyStr.int id) as [?|n] eqn:Hint; [done|].
  rewrite result_call_bind, trace_call_bind.
  destruct (post_discussion_comment env n text) as [?|status]; [done|].
  rewrite result_print_bind, trace_print_bind. intros Hres.
  destruct (IH _ _ _ Hres) as (ns & Hns & Htrace).
  exists (n :: ns). split; [by constructor|]. simpl. by rewrite Htrace.
Qed.

Lemma filter_discussion_changesets_run ids target :
  ∃ warning targets,
    filter_discussion_changesets (Json:=Json) (Element:=Element) ids target
    = (map Print warning, Normal targets).
Proof.
  unfold filter_discussion_changesets.
  destruct (bool_decide (target = Some "all")); [by exists [], ids|].
  destruct (bool_decide (target = Some "newest")); [by eexists [], _|].
  destruct (bool_decide (target = Some "oldest")); [by eexists [], _|].
  by exists [MsgUnknownTarget target], [].
Qed.

(** X18.  After an upload that [main] ends with 0, the comments posted
    are exactly these: none when the stripped discussion text has fewer
    than 4 characters, and else one for each changeset that
    [filter_discussion_changesets] selects, in their order, each with
    the stripped text, an empty line and the URL of the new
    changeset. *)
Theorem comments_posted inv c x cid text :
  result (main env args) = Return 0 →
  Call_upload_diff inv c x ∈ trace (main env args) →
  upload_diff env inv c x = inr cid →
  discussion args = Some text →
  ∃ targets ns,
    result (filter_discussion_changesets (Json:=Json) (Element:=Element)
              (normalize_ids (changeset_ids args)) (discussion_target args))
    = Normal targets
    ∧ Forall2 (fun id n => PyStr.int id = inr n)
        (if 4 <=? Z.of_nat (String.length (PyStr.strip text))
         then targets else [])
        ns
    ∧ List.filter is_discussion_call (trace (main env args))
      = map (fun n => Call_post_discussion_comment n
               (PyStr.strip text ++ String "010" (String "010" "")
                ++ "https://www.openstreetmap.org/changeset/"
                ++ default "" cid))
            ns.
Proof.
  intros Hres Hev Hanswer Htext.
  destruct (main_conclude_event env args _ Hev)
    as (user & diffs & merged & inv0 & w & st & p & inv' & _ & _ & _ & _ & _
        & Hev' & pre & Hpre & Hmain).
  { simpl. set_solver. }
  apply conclude_upload_event in Hev' as (-> & -> & -> & _ & _ & _ & Hconclude).
  rewrite Hanswer in Hconclude. rewrite Hconclude in Hmain. clear Hconclude.
  rewrite Hmain in Hres |- *. unfold prepend in *.
  cbn [trace result fst snd] in *.
  rewrite !List.filter_app, (filter_discussion_none pre), app_nil_l; cycle 1.
  { eapply Forall_impl; [exact Hpre|]. intros ev Hkind Heq.
    unfold in_kinds in Hkind. rewrite Heq in Hkind. by elem_inv Hkind. }
  simpl. revert Hres. unfold after_upload.
  destruct (truthy_str cid); [|done]. rewrite Htext, ret_bind.
  rewrite result_bind, trace_bind.
  destruct (filter_discussion_changesets_run
              (normalize_ids (changeset_ids args)) (discussion_target args))
    as (warning & targets & Hfilter).
  destruct (4 <=? Z.of_nat (String.length (PyStr.strip text))); cbn [when].
  - rewrite (M_eta (_ ≫= _)), trace_bind, result_bind, Hfilter.
    cbn [trace result fst snd].
    rewrite trace_print_bind, result_print_bind.
    set (comment := (PyStr.strip text ++ _)%string).
    destruct (result (discuss env 1 _ targets comment)) as [[]|?|?] eqn:Hloop;
      [|by apply discuss_goes_on in Hloop|done].
    intros _. destruct (discuss_posts _ _ _ _ Hloop) as (ns & Hns & Hposts).
    exists targets, ns. split; [done|]. split; [done|].
    rewrite !List.filter_app, filter_discussion_prints, filter_discussion_tail.
    simpl. by rewrite Hposts, app_nil_r.
  - intros _. exists targets, []. rewrite Hfilter.
    split; [done|]. split; [constructor|].
    unfold ret. cbn [trace result fst snd app].
    by rewrite filter_discussion_tail.
Qed.

End Discussion.

Section DiscussionTargets.

Context {Json Element OsmChange : Type}.
Variable env : Env Json Element OsmChange.
Variable args : Args.

Lemma after_upload_unknown ids w cid text :
  truthy_str cid = true → discussion args = Some text →
  4 <= Z.of_nat (String.length (PyStr.strip text)) →
  discussion_target args ∉ [Some "all"; Some "newest"; Some "oldest"] →
  after_upload env args ids w cid
  = ((Print (MsgUnknownTarget (discussion_target args))
      :: Print (MsgDiscussing 0)
      :: trace (print_warn_elements (Json:=Json) (Element:=Element) w)
      ++ [Print MsgSuccess;
          Print (MsgChangesetUrl ("https://www.openstreetmap.org/changeset/"
                                  ++ default "" cid))])%list,
     Return 0).
Proof.
  intros Hcid Htext Hlong Htarget. unfold after_upload.
  rewrite Hcid, Htext, ret_bind.
  replace (4 <=? _) with true by (symmetry; by apply Z.leb_le).
  cbn [when]. unfold filter_discussion_changesets.
  rewrite !bool_decide_eq_false_2 by (intros Heq; apply Htarget; rewrite Heq;
                                      repeat constructor).
  reflexivity.
Qed.

(** X19.  A discussion text of at least 4 characters with a
    [discussion_target] that is none of ['all'], ['newest'] and
    ['oldest'] (such as the default [None]) posts no comment: after the
    upload, [main] prints the warning of the unknown target and still
    returns 0. *)
Theorem unknown_target_posts_nothing inv c x cid text :
  Call_upload_diff inv c x ∈ trace (main env args) →
  upload_diff env inv c x = inr cid → truthy_str cid = true →
  discussion args = Some text →
  4 <= Z.of_nat (String.length (PyStr.strip text)) →
  discussion_target args ∉ [Some "all"; Some "newest"; Some "oldest"] →
  result (main env args) = Return 0
  ∧ Print (MsgUnknownTarget (discussion_target args)) ∈ trace (main env args)
  ∧ ∀ ev, ev ∈ trace (main env args) → kind_of ev ≠ KDiscuss.
Proof.
  intros Hev Hanswer Hcid Htext Hlong Htarget.
  destruct (main_upload_event env args inv c x Hev) as (ids & w & pre & Hpre & Hmain).
  rewrite Hanswer, (after_upload_unknown _ _ _ text) in Hmain by done.
  rewrite Hmain. unfold prepend. cbn [trace result fst snd].
  split; [done|]. split.
  { apply elem_of_app. right. by left. }
  intros ev [[Hin|Hin]%elem_of_app|Hin]%elem_of_app Hkind.
  - apply (Hpre ev Hin). rewrite Hkind. by repeat constructor.
  - apply list_elem_of_singleton in Hin as ->. done.
  - apply elem_of_cons in Hin as [->|Hin]; [done|].
    apply elem_of_cons in Hin as [->|Hin]; [done|].
    apply elem_of_app in Hin as [Hin|Hin].
    + unfold print_warn_elements, prints in Hin. cbn [trace fst] in Hin.
      apply list_elem_of_fmap in Hin as (msg & -> & _). done.
    + by elem_inv Hin.
Qed.

(** X20.  The ['newest'] and the ['oldest'] changeset of a discussion
    are the last and the first of the normalised ids, which are in the
    order of strings: the greatest and the least id as a string, not as
    a number. *)
Theorem discussion_targets_by_string_order values c :
  c ∈ normalize_ids values →
  ∃ newest oldest,
    filter_discussion_changesets (Json:=Json) (Element:=Element)
      (normalize_ids values) (Some "newest") = ([], Normal [newest])
    ∧ filter_discussion_changesets (Json:=Json) (Element:=Element)
        (normalize_ids values) (Some "oldest") = ([], Normal [oldest])
    ∧ newest ∈ normalize_ids values ∧ oldest ∈ normalize_ids values
    ∧ ∀ s, s ∈ normalize_ids values →
        (s = newest ∨ str_lt s newest) ∧ (s = oldest ∨ str_lt oldest s).
Proof.
  intros Hc.
  pose proof (sorted_set_sorted
                (map (fun v => PyStr.strip (str v)) (List.filter truthy values)))
    as Hsorted.
  fold (normalize_ids values) in Hsorted.
  destruct (normalize_ids values) as [|oldest ids] eqn:Hids;
    [by apply elem_of_nil in Hc|].
  destruct (last (oldest :: ids)) as [newest|] eqn:Hlast;
    [|by apply last_None in Hlast].
  exists newest, oldest. unfold filter_discussion_changesets.
  rewrite Hlast. simpl. split; [done|]. split; [done|].
  split; [by apply last_Some_elem_of|]. split; [by left|].
  intros s Hs. split; [by eapply sorted_last_greatest|].
  inversion Hsorted as [|? ? _ Hall]; subst.
  apply elem_of_cons in Hs as [->|Hs]; [by left|].
  right. rewrite Forall_forall in Hall. by apply Hall.
Qed.

End DiscussionTargets.

(** ** The warnings of the inverter *)

Section Warnings.

Context {Json Element OsmChange : Type}.
Variable env : Env Json Element OsmChange.
Variable args : Args.

Lemma warns_late_quiet {A} (m : @M Json Element A) :
  only (fun ev => ¬ is_warning ev) m → warns_late m.
Proof.
  intros Hm pre ev post Htrace Hev. unfold only in Hm.
  rewrite Htrace, Forall_app, Forall_cons in Hm. by destruct Hm as (_ & ? & _).
Qed.

Lemma warns_late_bind {A B} (m : @M Json Element A) (f : A → @M Json Element B) :
  only (fun ev => ¬ is_warning ev) m → (∀ a, warns_late (f a)) →
  warns_late (m ≫= f).
Proof.
  intros Hm Hf pre ev post. rewrite trace_bind, result_bind.
  unfold only in Hm. rewrite Forall_forall in Hm.
  destruct (result m) as [a|code|e].
  - intros Htrace Hev.
    apply app_eq_inv in Htrace as [(k & Hpre & Hk)|(k & Hpre & Hk)].
    + destruct k as [|ev' k]; simpl in Hk.
      * by apply (Hf a [] ev post).
      * injection Hk as <- ->. destruct (Hm ev); [|done].
        rewrite Hpre, elem_of_app, elem_of_cons. auto.
    + by apply (Hf a k ev post).
  - rewrite app_nil_r. intros Htrace Hev. destruct (Hm ev); [|done].
    rewrite Htrace, elem_of_app, elem_of_cons. auto.
  - rewrite app_nil_r. intros Htrace Hev. destruct (Hm ev); [|done].
    rewrite Htrace, elem_of_app, elem_of_cons. auto.
Qed.

(** A piece that only prints and returns 0. *)
Lemma warns_late_end {A} (m : @M Json Element A) :
  only (in_kinds [KPrint]) m → result m = Return 0 → warns_late m.
Proof.
  intros Hm Hres pre ev post Htrace _. split; [|done]. unfold only in Hm.
  rewrite Htrace, Forall_app, Forall_cons in Hm. by destruct Hm as (_ & _ & ?).
Qed.

End Warnings.

(** Walks through a piece of the body that prints no warning. *)
Ltac no_warning_step :=
  first
    [ apply only_bind; [|intros] | apply only_print; simpl; tauto
    | apply only_call; simpl; tauto | apply only_lift | apply only_assert
    | apply only_when | apply only_nil
    | match goal with
      | |- only _ (if ?b then _ else _) => destruct b
      | |- only _ (match ?x with _ => _ end) => destruct x
      | |- only _ (let '(_, _) := ?x in _) => destruct x
      end ].

Section WarningsOfMain.

Context {Json Element OsmChange : Type}.
Variable env : Env Json Element OsmChange.
Variable args : Args.

Lemma no_warning_download ue um ids : ∀ diffs,
  only (fun ev => ¬ is_warning ev) (download env args ue um ids diffs).
Proof.
  induction ids as [|id ids IH]; intros diffs; cbn [download];
    [apply only_nil|].
  apply only_bind; [|done].
  unfold download_one, check_moderator, retrieve. repeat no_warning_step.
Qed.

Lemma no_warning_discuss ids : ∀ i total text,
  only (fun ev => ¬ is_warning ev) (discuss env i total ids text).
Proof.
  induction ids as [|id ids IH]; intros i total text; cbn [discuss];
    [apply only_nil|].
  repeat first [apply IH | no_warning_step].
Qed.

Lemma warns_late_tail w (msgs : list message) :
  warns_late (print_warn_elements (Json:=Json) (Element:=Element) w
              ≫= fun _ => prints msgs ≫= fun _ => returns (A:=Empty_set) 0).
Proof.
  apply warns_late_end; [|done].
  unfold print_warn_elements. repeat only_step.
Qed.

Lemma warns_late_main : warns_late (main env args).
Proof.
  unfold main. apply warns_late_bind.
  { unfold prelude, validate_ids, login, check_limits. repeat no_warning_step. }
  intros [[[ids tags] ue] um].
  apply warns_late_bind; [apply no_warning_download|]. intros diffs.
  unfold finish.
  apply warns_late_bind; [repeat no_warning_step|]. intros _.
  apply warns_late_bind; [repeat no_warning_step|]. intros merged.
  apply warns_late_bind; [repeat no_warning_step|]. intros [[inv w] st].
  apply warns_late_bind; [repeat no_warning_step|]. intros [p inv'].
  apply warns_late_bind; [repeat no_warning_step|]. intros _.
  unfold conclude. destruct (_ =? 0).
  { apply warns_late_quiet. repeat no_warning_step. }
  destruct (_ || _).
  - unfold save.
    apply warns_late_bind; [repeat no_warning_step|]. intros _.
    apply warns_late_bind; [repeat no_warning_step|]. intros osm_change.
    apply warns_late_bind; [repeat no_warning_step|]. intros xml.
    apply warns_late_bind; [repeat no_warning_step|]. intros _.
    apply warns_late_bind; [repeat no_warning_step|]. intros _.
    apply (warns_late_tail w [MsgSuccess]).
  - unfold upload.
    apply warns_late_bind; [repeat no_warning_step|]. intros cap.
    destruct (cap <? _).
    { apply warns_late_quiet. repeat no_warning_step. }
    apply warns_late_bind; [repeat no_warning_step|]. intros _.
    apply warns_late_bind; [repeat no_warning_step|]. intros cid.
    unfold after_upload. destruct (truthy_str cid);
      [|apply warns_late_quiet; repeat no_warning_step].
    apply warns_late_bind; [repeat no_warning_step|]. intros text.
    apply warns_late_bind.
    { unfold filter_discussion_changesets.
      repeat first [apply no_warning_discuss | no_warning_step]. }
    intros _. apply (warns_late_tail w [MsgSuccess; MsgChangesetUrl _]).
Qed.

(** X21.  The warnings of the inverter surface only at the end of a run
    that succeeds: after the print of a warning, [main] calls no
    collaborator any more, it only prints, and it returns 0. *)
Theorem warnings_only_at_the_end pre element_type element_id post :
  trace (main env args)
  = (pre ++ Print (MsgVerify element_type element_id) :: post)%list →
  Forall (in_kinds [KPrint]) post
  ∧ result (main env args) = Return 0
  ∧ snd (main_timer (main env args)) = 0.
Proof.
  intros Htrace.
  destruct (warns_late_main pre _ post Htrace) as [Hpost Hres]; [done|].
  by rewrite main_timer_code, Hres.
Qed.

End WarningsOfMain.

(** ** Logging in *)

Section Login.

Context {Json Element OsmChange : Type}.
Variable env : Env Json Element OsmChange.
Variable args : Args.

(** X22.  [main] logs in with the credentials of the command line as
    soon as one of them is given, and with those of the environment
    only when neither is.  As [oauth_token] it passes on the argument
    itself when that is [None] or the empty string, and otherwise what
    [json.loads] made of it. *)
Theorem login_credentials u p tok :
  Call_OsmApi u p tok ∈ trace (main env args) →
  (truthy_str (username args) || truthy_str (password args) = true →
   u = username args ∧ p = password args)
  ∧ (truthy_str (username args) || truthy_str (password args) = false →
     u = getenv env "OSM_USERNAME" ∧ p = getenv env "OSM_PASSWORD")
  ∧ (oauth_token args = None → tok = None)
  ∧ (oauth_token args = Some "" → tok = Some (inl ""))
  ∧ (truthy_str (oauth_token args) = true →
     ∃ text token, oauth_token args = Some text
                   ∧ json_loads env text = inr token
                   ∧ tok = Some (inr token)).
Proof.
  intros Hev. apply main_prelude_event in Hev; [|simpl; set_solver].
  unfold prelude in Hev. rewrite trace_bind, validate_ids_trace in Hev.
  simpl in Hev. destruct (result _) as [ids| |]; [|by apply elem_of_nil in Hev..].
  rewrite trace_bind, login_run in Hev.
  apply elem_of_app in Hev as [Hev|Hev]; cycle 1.
  { exfalso. revert Hev.
    destruct (if _ && _ then _ else _) as [u' p'].
    destruct (parse_oauth_token env args) as [?|tok'];
      [by intros ?%elem_of_nil|].
    destruct (OsmApi env u' p' tok'); [by intros ?%elem_of_nil|].
    destruct (get_authorized_user env) as [?|user]; [by intros ?%elem_of_nil|].
    cbn [result snd]. intros Hev.
    assert (only (in_kinds [KPrint])
              (check_limits (Json:=Json) (Element:=Element) env ids user
               ≫= fun _ => mret (ids, normalize_tags (only_tags args),
                                 changesets_count user,
                                 is_osm_moderator env (roles user)))) as Hall.
    { unfold check_limits. repeat only_step. }
    pose proof (only_elem_of _ _ _ Hall Hev) as Hin.
    unfold in_kinds in Hin. simpl in Hin. by elem_inv Hin. }
  assert (∃ tok', parse_oauth_token env args = inr tok'
                  ∧ Call_OsmApi u p tok
                    = Call_OsmApi (Json:=Json) (Element:=Element)
                        (if truthy_str (username args) || truthy_str (password args)
                         then username args else getenv env "OSM_USERNAME")
                        (if truthy_str (username args) || truthy_str (password args)
                         then password args else getenv env "OSM_PASSWORD")
                        tok') as (tok' & Hparse & Hcall).
  { revert Hev.
    destruct (parse_oauth_token env args) as [?|tok'];
      [destruct (_ && _); by intros ?%elem_of_nil|].
    exists tok'. split; [done|]. revert Hev.
    destruct (truthy_str (username args)), (truthy_str (password args));
      cbn [negb andb orb];
      (destruct (OsmApi env _ _ _) as [?|[]];
       [|destruct (get_authorized_user env)]);
      intros Hev; by elem_inv Hev. }
  injection Hcall as -> -> ->.
  split; [by intros ->|]. split; [by intros ->|].
  unfold parse_oauth_token in Hparse.
  destruct (oauth_token args) as [text|]; cycle 1.
  { injection Hparse as <-. by repeat split. }
  destruct (truthy_str (Some text)) eqn:Htruthy.
  - destruct (json_loads env text) as [?|token] eqn:Hloads; [done|].
    injection Hparse as <-. split; [done|]. split.
    + intros [= ->]. done.
    + intros _. by exists text, token.
  - injection Hparse as <-. split; [done|]. split; [by intros [= ->]|done].
Qed.

End Login.

(** ** The diffs that are merged *)

Section Collected.

Context {Json Element OsmChange : Type}.
Variable env : Env Json Element OsmChange.
Variable args : Args.

Lemma history_answers_app (tr tr' : list (event Json Element)) :
  history_answers env (tr ++ tr') = (history_answers env tr ++ history_answers env tr')%list.
Proof. apply omap_app. Qed.

Lemma history_answers_none (tr : list (event Json Element)) :
  Forall (fun ev => kind_of ev ≠ KHistory) tr → history_answers env tr = [].
Proof.
  induction 1 as [|ev tr Hev _ IH]; [done|].
  change (ev :: tr) with ([ev] ++ tr)%list.
  rewrite history_answers_app, IH, app_nil_r. by destruct ev.
Qed.

Lemma not_history (ks : list kind) :
  forallb (fun k => match k with KHistory => false | _ => true end) ks = true →
  KHistory ∉ ks.
Proof.
  intros Hall Hin. rewrite forallb_forall in Hall.
  apply list_elem_of_In, Hall in Hin. done.
Qed.

Lemma history_answers_kinds {A} ks (m : @M Json Element A) :
  KHistory ∉ ks → only (in_kinds ks) m → history_answers env (trace m) = [].
Proof.
  intros Hks Hm. apply history_answers_none.
  eapply Forall_impl; [exact Hm|]. intros ev Hkind Heq.
  unfold in_kinds in Hkind. by rewrite Heq in Hkind.
Qed.

Lemma check_moderator_answers ue um cs :
  history_answers env (trace (check_moderator env ue um cs)) = [].
Proof.
  apply (history_answers_kinds [KPrint; KGetUser]).
  { intros Hin. by elem_inv Hin. }
  unfold check_moderator. repeat only_step.
Qed.

Lemma history_answers_call cs steps f :
  history_answers env [Call_get_changeset_elements_history cs steps f]
  = match get_changeset_elements_history env cs steps f with
    | inr (Some diff) => if truthy_diff (Some diff) then [diff] else []
    | _ => []
    end.
Proof.
  unfold history_answers. cbn [omap list_omap].
  destruct (get_changeset_elements_history env cs steps f) as [?|[diff|]];
    try done.
  by destruct (truthy_diff (Some diff)).
Qed.

Lemma retrieve_answers cs diffs diffs' :
  result (retrieve env args cs diffs) = Normal diffs' →
  diffs' = (diffs ++ history_answers env (trace (retrieve env args cs diffs)))%list.
Proof.
  unfold retrieve. destruct (negb (changeset_size cs =? 0)); cycle 1.
  { intros [= <-]. by rewrite app_nil_r. }
  rewrite result_print_bind, trace_print_bind, result_call_bind, trace_call_bind.
  match goal with
  | |- context [history_answers env (?a :: ?b :: ?r)] =>
      change (a :: b :: r) with ([a] ++ [b] ++ r)%list
  end.
  rewrite !history_answers_app, history_answers_call.
  rewrite (history_answers_none [_]) by (by repeat constructor).
  destruct (get_changeset_elements_history env cs _ _) as [?|diff]; [done|].
  destruct diff as [diff|]; [|done].
  destruct (truthy_diff (Some diff)); [|done]. cbn [negb default from_option id].
  rewrite result_assert_bind, trace_assert_bind.
  destruct (diff_size diff <=? changeset_size cs); [|done].
  rewrite result_print_bind, trace_print_bind.
  intros [= <-]. by rewrite (history_answers_none [_]) by (by repeat constructor).
Qed.

Lemma download_one_answers ue um id diffs diffs' :
  result (download_one env args ue um id diffs) = Normal diffs' →
  diffs' = (diffs ++ history_answers env
                       (trace (download_one env args ue um id diffs)))%list.
Proof.
  rewrite download_one_run. destruct (PyStr.int id) as [?|n]; [done|].
  destruct (get_changeset env n) as [?|cs]; [done|].
  unfold prepend. cbn [trace result fst snd].
  rewrite history_answers_app, (history_answers_none [_; _; _])
    by (by repeat constructor).
  rewrite result_bind, trace_bind, history_answers_app, check_moderator_answers.
  destruct (result (check_moderator env ue um cs)); [|done..].
  rewrite result_print_bind, trace_print_bind. simpl.
  apply retrieve_answers.
Qed.

Lemma download_answers ue um ids : ∀ diffs diffs',
  result (download env args ue um ids diffs) = Normal diffs' →
  diffs' = (diffs ++ history_answers env
                       (trace (download env args ue um ids diffs)))%list.
Proof.
  induction ids as [|id ids IH]; intros diffs diffs'; cbn [download].
  { intros [= <-]. by rewrite app_nil_r. }
  rewrite result_bind, trace_bind, history_answers_app.
  destruct (result (download_one env args ue um id diffs)) as [d| |] eqn:Hone;
    [|done..].
  intros Hrest. apply IH in Hrest as ->.
  apply download_one_answers in Hone as ->. by rewrite app_assoc.
Qed.

(** X23.  What [main] hands to the inverter is the merge of the diffs
    that the history client answered, all of them and in the order of
    the calls, with the tags of the command line. *)
Theorem inverted_is_the_merge_of_the_answers tags merged :
  Call_invert_diff tags merged ∈ trace (main env args) →
  tags = normalize_tags (only_tags args)
  ∧ merge_and_sort_diffs (history_answers env (trace (main env args)))
    = inr merged.
Proof.
  intros Hev.
  destruct (main_finish_event env args _ Hev)
    as (ids & tags' & ue & um & diffs & Hpre & Hdown & Hev' & Htrace & _).
  { simpl. set_solver. }
  rewrite Htrace, !history_answers_app.
  rewrite (history_answers_kinds _ _ (not_history [KPrint; KOsmApi; KAuthorizedUser] eq_refl)
             (only_prelude_kinds env args)).
  rewrite (history_answers_kinds _ _
             (not_history [KPrint; KInvert; KParents; KBuild; KWrite;
                           KMaxSize; KUpload; KDiscuss] eq_refl)
             (only_finish env args ids tags' ue diffs)).
  apply download_answers in Hdown. simpl in Hdown. rewrite app_nil_r, <- Hdown.
  apply prelude_normal in Hpre as (_ & _ & _ & -> & _).
  rewrite finish_run in Hev'. cbn [app].
  destruct (merge_and_sort_diffs diffs) as [?|merged'];
    [by elem_inv Hev'|].
  assert (Call_invert_diff tags merged
          = Call_invert_diff (Json:=Json) (Element:=Element)
              (normalize_tags (only_tags args)) merged') as Heq.
  { destruct (invert_diff env _ merged') as [?|[[inv w] st]];
      [by elem_inv Hev'|].
    destruct (update_parents env inv) as [?|[p inv']]; [by elem_inv Hev'|].
    unfold prepend in Hev'. cbn [trace fst] in Hev'.
    apply elem_of_app in Hev' as [Hev'|Hev'].
    - apply elem_of_app in Hev' as [Hev'|Hev']; [by elem_inv Hev'|].
      destruct (p =? 0); by elem_inv Hev'.
    - pose proof (only_elem_of _ _ _ (only_conclude env args _ _ _ _ _) Hev') as Hin.
      unfold in_kinds in Hin. simpl in Hin. by elem_inv Hin. }
  by injection Heq as -> ->.
Qed.

End Collected.

(** ** The limits of an account *)

Lemma foldl_max_spec l : ∀ x,
  foldl Z.max x l ∈ x :: l ∧ ∀ y, y ∈ x :: l → y <= foldl Z.max x l.
Proof.
  induction l as [|z l IH]; intros x; simpl.
  { split; [by left|]. intros y ->%list_elem_of_singleton. lia. }
  destruct (IH (Z.max x z)) as [Hin Hmax]. split.
  - apply elem_of_cons in Hin as [Hin|Hin]; [|by do 2 right].
    rewrite Hin. destruct (Z.max_spec x z) as [[_ ->]|[_ ->]];
      [right; left | left]; done.
  - intros y Hy. apply elem_of_cons in Hy as [->|Hy].
    + etrans; [|apply Hmax; by left]. lia.
    + apply elem_of_cons in Hy as [->|Hy].
      * etrans; [|apply Hmax; by left]. lia.
      * apply Hmax. by right.
Qed.

Lemma foldl_min_spec l : ∀ x,
  foldl Z.min x l ∈ x :: l ∧ ∀ y, y ∈ x :: l → foldl Z.min x l <= y.
Proof.
  induction l as [|z l IH]; intros x; simpl.
  { split; [by left|]. intros y ->%list_elem_of_singleton. lia. }
  destruct (IH (Z.min x z)) as [Hin Hmin]. split.
  - apply elem_of_cons in Hin as [Hin|Hin]; [|by do 2 right].
    rewrite Hin. destruct (Z.min_spec x z) as [[_ ->]|[_ ->]];
      [left | right; left]; done.
  - intros y Hy. apply elem_of_cons in Hy as [->|Hy].
    + etrans; [apply Hmin; by left|]. lia.
    + apply elem_of_cons in Hy as [->|Hy].
      * etrans; [apply Hmin; by left|]. lia.
      * apply Hmin. by right.
Qed.

Lemma max_list_spec l :
  match max_list l with
  | Some m => m ∈ l ∧ ∀ y, y ∈ l → y <= m
  | None => l = []
  end.
Proof. destruct l as [|x l]; [done|]. apply foldl_max_spec. Qed.

Lemma min_list_spec l :
  match min_list l with
  | Some m => m ∈ l ∧ ∀ y, y ∈ l → m <= y
  | None => l = []
  end.
Proof. destruct l as [|x l]; [done|]. apply foldl_min_spec. Qed.

Lemma elem_of_filter_keys (config : gmap Z Z) (p : Z → bool) k :
  k ∈ List.filter p (map fst (map_to_list config))
  ↔ p k = true ∧ ∃ v, config !! k = Some v.
Proof.
  rewrite list_elem_of_In, filter_In, <- list_elem_of_In, list_elem_of_fmap.
  split.
  - intros [([k' v] & -> & Hkv%elem_of_map_to_list) Hp]. eauto.
  - intros [Hp [v Hv]]. split; [|done]. exists (k, v).
    split; [done|]. by apply elem_of_map_to_list.
Qed.

(** X24.  The limit of an account is the largest of the limits whose
    threshold the user has reached with their edits, and there is a
    [ValueError] when the user has reached no threshold. *)
Theorem changesets_limit_is_the_largest_reached config user_edits :
  match changesets_limit_of config user_edits with
  | inr limit =>
      (∃ k, config !! k = Some limit ∧ k <= user_edits)
      ∧ ∀ k v, config !! k = Some v → k <= user_edits → v <= limit
  | inl e =>
      e = ValueError ∧ ∀ k v, config !! k = Some v → user_edits < k
  end.
Proof.
  unfold changesets_limit_of.
  set (l := map snd (List.filter (fun kv => fst kv <=? user_edits)
                       (map_to_list config))).
  assert (∀ v, v ∈ l ↔ ∃ k, config !! k = Some v ∧ k <= user_edits) as Hl.
  { intros v. unfold l. rewrite list_elem_of_fmap. split.
    - intros ([k v'] & -> & Hin). apply list_elem_of_In, filter_In in Hin as [Hin Hk].
      apply list_elem_of_In, elem_of_map_to_list in Hin. simpl in *.
      exists k. split; [done|]. lia.
    - intros (k & Hk & Hle). exists (k, v). split; [done|].
      apply list_elem_of_In, filter_In. split.
      + by apply list_elem_of_In, elem_of_map_to_list.
      + simpl. lia. }
  pose proof (max_list_spec l) as Hmax.
  destruct (max_list l) as [limit|].
  - destruct Hmax as [Hin Hmax]. split; [by apply Hl|].
    intros k v Hk Hle. apply Hmax, Hl. eauto.
  - split; [done|]. intros k v Hk.
    destruct (decide (k <= user_edits)) as [Hle|]; [|lia].
    assert (v ∈ l) as Hin by (apply Hl; eauto).
    rewrite Hmax in Hin. by apply elem_of_nil in Hin.
Qed.

(** X25.  The hints name the next threshold: [limit_increase] is the
    least threshold above the edits of the user, [None] when there is
    none, and [min_edits] is the least threshold above 0, with a
    [ValueError] when there is none. *)
Theorem hints_name_the_next_threshold config user_edits :
  match limit_increase_of config user_edits with
  | Some k =>
      is_Some (config !! k) ∧ user_edits < k
      ∧ ∀ k', is_Some (config !! k') → user_edits < k' → k <= k'
  | None => ∀ k', is_Some (config !! k') → k' <= user_edits
  end
  ∧ match min_edits_of config with
    | inr k =>
        is_Some (config !! k) ∧ 0 < k
        ∧ ∀ k', is_Some (config !! k') → 0 < k' → k <= k'
    | inl e => e = ValueError ∧ ∀ k', is_Some (config !! k') → k' <= 0
    end.
Proof.
  assert (∀ bound,
            match min_list (List.filter (fun k => bound <? k)
                              (map fst (map_to_list config))) with
            | Some k =>
                is_Some (config !! k) ∧ bound < k
                ∧ ∀ k', is_Some (config !! k') → bound < k' → k <= k'
            | None => ∀ k', is_Some (config !! k') → k' <= bound
            end) as Hleast.
  { intros bound.
    pose proof (min_list_spec (List.filter (fun k => bound <? k)
                                 (map fst (map_to_list config)))) as Hmin.
    destruct (min_list _) as [k|].
    - destruct Hmin as [Hin Hmin].
      apply elem_of_filter_keys in Hin as [Hk Hv]. split; [done|].
      split; [lia|]. intros k' Hk' Hlt. apply Hmin, elem_of_filter_keys.
      split; [lia | done].
    - intros k' Hk'. destruct (decide (k' <= bound)) as [|Hlt]; [done|].
      assert (k' ∈ List.filter (fun k => bound <? k)
                     (map fst (map_to_list config))) as Hin.
      { apply elem_of_filter_keys. split; [lia | done]. }
      rewrite Hmin in Hin. by apply elem_of_nil in Hin. }
  split; [apply Hleast|]. unfold min_edits_of.
  pose proof (Hleast 0) as Hzero. by destruct (min_list _).
Qed.

(** ** The order of the downloads *)

Section Order.

Context {Json Element OsmChange : Type}.
Variable env : Env Json Element OsmChange.
Variable args : Args.

Lemma filter_get_changeset_none (tr : list (event Json Element)) :
  Forall (fun ev => kind_of ev ≠ KGetChangeset) tr →
  List.filter is_get_changeset_call tr = [].
Proof.
  induction 1 as [|ev tr Hev _ IH]; [done|]. simpl. rewrite IH.
  by destruct ev.
Qed.

Lemma filter_get_changeset_kinds {A} ks (m : @M Json Element A) :
  forallb (fun k => match k with KGetChangeset => false | _ => true end) ks = true →
  only (in_kinds ks) m → List.filter is_get_changeset_call (trace m) = [].
Proof.
  intros Hks Hm. apply filter_get_changeset_none.
  eapply Forall_impl; [exact Hm|]. intros ev Hkind Heq.
  unfold in_kinds in Hkind. rewrite Heq in Hkind.
  rewrite forallb_forall in Hks. apply list_elem_of_In, Hks in Hkind. done.
Qed.

Lemma download_calls ue um ids : ∀ diffs,
  ∃ ns,
    Forall2 (fun id n => PyStr.int id = inr n) (take (length ns) ids) ns
    ∧ List.filter is_get_changeset_call (trace (download env args ue um ids diffs))
      = map (fun n => Call_get_changeset n) ns
    ∧ ∀ diffs', result (download env args ue um ids diffs) = Normal diffs' →
        length ns = length ids.
Proof.
  induction ids as [|id ids IH]; intros diffs; cbn [download].
  { exists []. by repeat split; [constructor|..]. }
  rewrite trace_bind, result_bind, download_one_run.
  destruct (PyStr.int id) as [?|n] eqn:Hint.
  { exists []. by repeat split; [constructor|..]. }
  destruct (get_changeset env n) as [?|cs].
  { exists [n]. split; [by repeat constructor|]. by split. }
  unfold prepend. cbn [trace result fst snd].
  set (rest := check_moderator env ue um cs ≫= _).
  assert (List.filter is_get_changeset_call (trace rest) = []) as Hrest.
  { apply (filter_get_changeset_kinds [KPrint; KGetUser; KHistory]); [done|].
    unfold rest, check_moderator, retrieve. repeat only_step. }
  rewrite !List.filter_app, Hrest. simpl.
  destruct (result rest) as [diffs1| |].
  - destruct (IH diffs1) as (ns & Hns & Hcalls & Hall).
    exists (n :: ns). split; [by constructor|]. split; [by rewrite Hcalls|].
    intros diffs' Hres. simpl. by rewrite (Hall diffs' Hres).
  - exists [n]. split; [by repeat constructor|]. by split.
  - exists [n]. split; [by repeat constructor|]. by split.
Qed.

(** X26.  The changesets are fetched in the order of the normalised ids
    (that of strings), each once and under the number that [int] makes
    of its id: the calls of [get_changeset] are those for the first ids,
    and for all of them once [main] has come to generate the revert. *)
Theorem changesets_fetched_in_order :
  ∃ ns,
    Forall2 (fun id n => PyStr.int id = inr n)
      (take (length ns) (normalize_ids (changeset_ids args))) ns
    ∧ List.filter is_get_changeset_call (trace (main env args))
      = map (fun n => Call_get_changeset n) ns
    ∧ (Print MsgGenerating ∈ trace (main env args) →
       length ns = length (normalize_ids (changeset_ids args))).
Proof.
  rewrite main_trace, List.filter_app.
  rewrite (filter_get_changeset_kinds [KPrint; KOsmApi; KAuthorizedUser] _
             eq_refl (only_prelude_kinds env args)).
  assert (Print MsgGenerating ∉ trace (prelude env args)) as Hpre.
  { intros Hin. by destruct (only_elem_of _ _ _ (only_prelude env args) Hin)
      as (_ & ? & _). }
  destruct (result (prelude env args)) as [[[[ids tags] ue] um]| |] eqn:Hres.
  - apply prelude_normal in Hres as (-> & _).
    destruct (download_calls ue um (normalize_ids (changeset_ids args)) [])
      as (ns & Hns & Hcalls & Hall).
    exists ns. split; [done|]. rewrite List.filter_app, Hcalls. simpl. split.
    + destruct (result (download env args ue um _ [])) as [diffs| |];
        [|by rewrite app_nil_r..].
      rewrite (filter_get_changeset_kinds
                 [KPrint; KInvert; KParents; KBuild; KWrite; KMaxSize;
                  KUpload; KDiscuss] _ eq_refl
                 (only_finish env args _ tags ue diffs)).
      by rewrite app_nil_r.
    + intros [Hin|[Hin|Hin]%elem_of_app]%elem_of_app; [done| |].
      * by destruct (only_elem_of _ _ _ (only_download env args ue um _ []) Hin)
          as (_ & ? & _).
      * destruct (result (download env args ue um _ [])) as [diffs| |];
          [by eapply Hall | by apply elem_of_nil in Hin..].
  - exists []. split; [constructor|]. split; [done|].
    rewrite app_nil_r. by intros Hin.
  - exists []. split; [constructor|]. split; [done|].
    rewrite app_nil_r. by intros Hin.
Qed.

End Order.

(** ** [merge_and_sort_diffs] on list objects *)

Lemma store_lookup_insert (σ : Objects.store) l v : <[l := v]> σ l = v.
Proof. apply fn_lookup_insert. Qed.

Lemma store_lookup_insert_ne (σ : Objects.store) l l' v :
  l ≠ l' → <[l := v]> σ l' = σ l'.
Proof. apply fn_lookup_insert_ne. Qed.

Lemma getitem_elem_of d k l : Objects.getitem d k = Some l → (k, l) ∈ d.
Proof.
  induction d as [|[k' l'] d IH]; simpl; [done|].
  destruct (String.eqb_spec k' k) as [->|_].
  - intros [= ->]. by left.
  - intros H. right. by apply IH.
Qed.

Lemma getitem_lists_of d k l :
  Objects.getitem d k = Some l → l ∈ Objects.lists_of d.
Proof.
  intros H%getitem_elem_of. unfold Objects.lists_of.
  apply list_elem_of_fmap. by exists (k, l).
Qed.

Lemma getitem_is_Some d k : is_Some (Objects.getitem d k) ↔ k ∈ map fst d.
Proof.
  induction d as [|[k' l'] d IH]; simpl.
  { split; [by intros [? ?] | by intros ?%elem_of_nil]. }
  destruct (String.eqb_spec k' k) as [->|Hne].
  - split; [intros _; by left | eauto].
  - rewrite IH, elem_of_cons. naive_solver.
Qed.

Lemma getitem_None d k : Objects.getitem d k = None ↔ k ∉ map fst d.
Proof.
  rewrite <- getitem_is_Some, eq_None_not_Some. done.
Qed.

(** Two keys of a dictionary whose lists are distinct objects do not hold
    the same list. *)
Lemma getitem_inj d k k' l :
  NoDup (Objects.lists_of d) →
  Objects.getitem d k = Some l → Objects.getitem d k' = Some l → k = k'.
Proof.
  unfold Objects.lists_of.
  induction d as [|[k0 l0] d IH]; simpl; [done|].
  intros [Hl0 Hd]%NoDup_cons.
  destruct (String.eqb_spec k0 k) as [Hk|Hk], (String.eqb_spec k0 k') as [Hk'|Hk'].
  - congruence.
  - intros [= ->] Hl%getitem_lists_of. done.
  - intros Hl%getitem_lists_of [= ->]. done.
  - by apply IH.
Qed.

Lemma value_lookup σ d k :
  Objects.value σ d !! k = σ <$> Objects.getitem d k.
Proof.
  unfold Objects.value. induction d as [|[k' l'] d IH]; simpl; [done|].
  destruct (String.eqb_spec k' k) as [->|Hne].
  - by rewrite lookup_insert_eq.
  - by rewrite lookup_insert_ne.
Qed.

Lemma value_dom σ d k : k ∈ dom (Objects.value σ d) ↔ k ∈ map fst d.
Proof.
  rewrite elem_of_dom, value_lookup, <- getitem_is_Some.
  destruct (Objects.getitem d k); simpl; split; intros [? ?]; done || eauto.
Qed.

(** The value of a dictionary depends on its own lists only. *)
Lemma value_agree σ σ' d :
  (∀ l, l ∈ Objects.lists_of d → σ' l = σ l) →
  Objects.value σ' d = Objects.value σ d.
Proof.
  intros Hagree. apply map_eq. intros k. rewrite !value_lookup.
  destruct (Objects.getitem d k) as [l|] eqn:Hk; simpl; [|done].
  by rewrite Hagree by by eapply getitem_lists_of.
Qed.

(** What the inner loop leaves in the lists, when the lists of [result]
    are objects of their own. *)
Lemma merge_diff_store result items : ∀ σ,
  NoDup (Objects.lists_of result) → Objects.is_dict items →
  (∀ l, l ∈ Objects.lists_of result → l ∉ Objects.lists_of items) →
  match Objects.merge_diff result items σ with
  | inr σ' =>
      (∀ k, k ∈ map fst items → is_Some (Objects.getitem result k))
      ∧ (∀ l, l ∉ Objects.lists_of result → σ' l = σ l)
      ∧ (∀ k l, Objects.getitem result k = Some l →
           σ' l = (σ l ++ default [] (σ <$> Objects.getitem items k))%list)
  | inl e =>
      e = KeyError
      ∧ ∃ k, k ∈ map fst items ∧ Objects.getitem result k = None
  end.
Proof.
  intros σ Hlists. revert σ.
  induction items as [|[k0 el] items IH]; intros σ Hitems Hsep; simpl.
  { split; [by intros k ?%elem_of_nil|]. split; [done|].
    intros k l _. by rewrite app_nil_r. }
  apply NoDup_cons in Hitems as [Hk0 Hitems]. simpl in Hk0.
  assert (∀ l, l ∈ Objects.lists_of result → l ∉ Objects.lists_of items) as Hsep'.
  { intros l Hl Hin. apply (Hsep l Hl). by right. }
  assert (el ∉ Objects.lists_of result) as Hel.
  { intros Hin. apply (Hsep el Hin). by left. }
  unfold Objects.extend_type.
  destruct (Objects.getitem result k0) as [l0|] eqn:Hl0; cycle 1.
  { split; [done|]. exists k0. split; [by left | done]. }
  specialize (IH (<[l0 := (σ l0 ++ σ el)%list]> σ) Hitems Hsep').
  destruct (Objects.merge_diff result items _) as [e|σ'].
  { destruct IH as (-> & k & Hk & Hnone). split; [done|].
    exists k. split; [by right | done]. }
  destruct IH as (Hkeys & Hout & Hin).
  assert (l0 ∈ Objects.lists_of result) as Hl0in by by eapply getitem_lists_of.
  split; [|split].
  - intros k [->|Hk]%elem_of_cons; [by eexists | by apply Hkeys].
  - intros l Hl. rewrite Hout by done. apply store_lookup_insert_ne.
    by intros ->.
  - intros k l Hk. rewrite (Hin k l Hk).
    assert (∀ x, Objects.getitem items k = Some x →
              <[l0 := (σ l0 ++ σ el)%list]> σ x = σ x) as Hread.
    { intros x Hx%getitem_lists_of. apply store_lookup_insert_ne.
      intros Heq. apply (Hsep' l0 Hl0in). by rewrite Heq. }
    destruct (String.eqb_spec k0 k) as [->|Hne].
    + assert (l = l0) as -> by congruence.
      rewrite store_lookup_insert.
      apply getitem_None in Hk0. rewrite Hk0. simpl.
      by rewrite app_nil_r.
    + rewrite store_lookup_insert_ne; cycle 1.
      { intros Heq. apply Hne. apply (getitem_inj result k0 k l0); [done..|].
        by rewrite Heq. }
      destruct (Objects.getitem items k) as [x|] eqn:Hx; simpl; [|done].
      by rewrite Hread.
Qed.

(** The inner loop by value. *)
Lemma merge_diff_by_value result items σ :
  NoDup (Objects.lists_of result) → Objects.is_dict items →
  (∀ l, l ∈ Objects.lists_of result → l ∉ Objects.lists_of items) →
  match Objects.merge_diff result items σ with
  | inr σ' =>
      merge_diff (Objects.value σ result) (Objects.value σ items)
      = inr (Objects.value σ' result)
      ∧ ∀ l, l ∉ Objects.lists_of result → σ' l = σ l
  | inl e =>
      merge_diff (Objects.value σ result) (Objects.value σ items) = inl e
  end.
Proof.
  intros Hlists Hitems Hsep.
  pose proof (merge_diff_store result items σ Hlists Hitems Hsep) as Hstore.
  pose proof (merge_diff_spec (Objects.value σ result) (Objects.value σ items))
    as Hvalue.
  destruct (Objects.merge_diff result items σ) as [e|σ'].
  - destruct Hstore as (-> & k & Hk & Hnone).
    destruct (merge_diff _ _) as [e|r]; [by destruct Hvalue as [-> _]|].
    destruct Hvalue as [Hsub _]. exfalso.
    assert (k ∈ dom (Objects.value σ result)) as Hin.
    { apply Hsub. by apply value_dom. }
    apply value_dom, getitem_is_Some in Hin as [? ?]. congruence.
  - destruct Hstore as (Hkeys & Hout & Hin). split; [|done].
    destruct (merge_diff _ _) as [e|r].
    + destruct Hvalue as [_ Hn]. destruct Hn. intros k Hk%value_dom.
      apply elem_of_dom. rewrite value_lookup.
      destruct (Hkeys k Hk) as [l ->]. by eexists.
    + destruct Hvalue as [_ Hlk]. f_equal. apply map_eq. intros k.
      rewrite Hlk, !value_lookup.
      destruct (Objects.getitem result k) as [l|] eqn:Hl; simpl; [|done].
      by rewrite (Hin k l Hl).
Qed.

(** The outer loop by value. *)
Lemma merge_diffs_by_value result rest : ∀ σ,
  NoDup (Objects.lists_of result) → Forall Objects.is_dict rest →
  Forall (fun diff => ∀ l, l ∈ Objects.lists_of result →
                           l ∉ Objects.lists_of diff) rest →
  match Objects.merge_diffs result rest σ with
  | inr σ' =>
      merge_diffs (Objects.value σ result) (map (Objects.value σ) rest)
      = inr (Objects.value σ' result)
      ∧ ∀ l, l ∉ Objects.lists_of result → σ' l = σ l
  | inl e =>
      merge_diffs (Objects.value σ result) (map (Objects.value σ) rest) = inl e
  end.
Proof.
  intros σ Hlists. revert σ.
  induction rest as [|d rest IH]; intros σ Hdicts Hsep; simpl; [done|].
  apply Forall_cons in Hdicts as [Hd Hdicts].
  apply Forall_cons in Hsep as [Hsepd Hsep].
  pose proof (merge_diff_by_value result d σ Hlists Hd Hsepd) as Hone.
  destruct (Objects.merge_diff result d σ) as [e|σ1]; [by rewrite Hone|].
  destruct Hone as [-> Hout]. cbv iota. specialize (IH σ1 Hdicts Hsep).
  assert (map (Objects.value σ1) rest = map (Objects.value σ) rest) as Hrest.
  { apply map_ext_in. intros d' Hd'%list_elem_of_In.
    rewrite Forall_forall in Hsep.
    apply value_agree. intros l Hl. apply Hout. intros Hin.
    by apply (Hsep d' Hd' l). }
  rewrite Hrest in IH.
  destruct (Objects.merge_diffs result rest σ1) as [e|σ']; [done|].
  destruct IH as [-> Hout']. split; [done|].
  intros l Hl. by rewrite Hout', Hout.
Qed.

Lemma as_map_sorted (σ : Objects.store) (d : Objects.dict) :
  Objects.as_map (map (fun '(element_type, elements) =>
                         (element_type, sorted_newest_first (σ elements))) d)
  = sorted_newest_first <$> Objects.value σ d.
Proof.
  unfold Objects.as_map, Objects.value.
  induction d as [|[k l] d IH]; simpl; [by rewrite fmap_empty|].
  by rewrite fmap_insert, IH.
Qed.

(** On a list whose first dictionary has lists of its own, the function
    on objects returns what the function on values returns. *)
Lemma merge_in_place_by_value diffs σ :
  Forall Objects.is_dict diffs → Objects.unshared diffs →
  match Objects.merge_and_sort_diffs diffs σ with
  | inr (result, _) =>
      merge_and_sort_diffs (map (Objects.value σ) diffs)
      = inr (Objects.as_map result)
      ∧ map fst result = map fst (default [] (head diffs))
  | inl e => merge_and_sort_diffs (map (Objects.value σ) diffs) = inl e
  end.
Proof.
  destruct diffs as [|first rest]; [done|]. intros Hdicts [Hlists Hsep].
  apply Forall_cons in Hdicts as [_ Hdicts]. simpl.
  pose proof (merge_diffs_by_value first rest σ Hlists Hdicts Hsep) as Hloop.
  destruct (Objects.merge_diffs first rest σ) as [e|σ']; [by rewrite Hloop|].
  destruct Hloop as [-> _]. split; [by rewrite as_map_sorted|].
  rewrite map_map. apply map_ext. by intros [k l].
Qed.

Lemma as_map_lookup result ty l :
  NoDup (map fst result) → (ty, l) ∈ result →
  Objects.as_map result !! ty = Some l.
Proof. intros Hkeys Hin. by apply elem_of_list_to_map. Qed.

(** C3 as the code has it.  On a list whose dictionaries have each key
    once and whose first dictionary has lists of its own (no two of its
    keys and no later dictionary hold one of them), [merge_and_sort_diffs]
    returns exactly when the list has a first dictionary and the later
    ones bring no further element type; the list it then holds for each
    element type has as many entries as the inputs have for that type, is
    a rearrangement of them (so an element met in two changesets keeps
    both entries), and is in time order, newest first.  Otherwise it
    raises: [IndexError] on the empty list, [KeyError] on an element type
    the first dictionary lacks. *)
Theorem merge_keeps_every_entry diffs σ :
  Forall Objects.is_dict diffs → Objects.unshared diffs →
  match Objects.merge_and_sort_diffs diffs σ with
  | inr (result, _) =>
      (∃ first rest,
         diffs = first :: rest
         ∧ keys_covered (Objects.value σ first) (map (Objects.value σ) rest))
      ∧ ∀ ty,
          length (default [] (Objects.as_map result !! ty))
          = sum_list_with (fun d => length (default [] (Objects.value σ d !! ty)))
              diffs
          ∧ default [] (Objects.as_map result !! ty)
            ≡ₚ entries_of ty (map (Objects.value σ) diffs)
          ∧ StronglySorted not_older (default [] (Objects.as_map result !! ty))
  | inl e =>
      (diffs = [] ∧ e = IndexError)
      ∨ (∃ first rest,
           diffs = first :: rest
           ∧ ¬ keys_covered (Objects.value σ first) (map (Objects.value σ) rest)
           ∧ e = KeyError)
  end.
Proof.
  intros Hdicts Hown.
  pose proof (merge_in_place_by_value diffs σ Hdicts Hown) as Hvalue.
  pose proof (merge_by_value_keeps_every_entry (map (Objects.value σ) diffs))
    as Hspec.
  destruct (Objects.merge_and_sort_diffs diffs σ) as [e|[result σ']].
  - rewrite Hvalue in Hspec.
    destruct Hspec as [[Hnil ->]|(first & rest & Heq & Hn & ->)].
    + left. split; [|done]. by destruct diffs.
    + right. destruct diffs as [|d diffs]; [done|]. injection Heq as <- <-.
      by exists d, diffs.
  - destruct Hvalue as [Hvalue _]. rewrite Hvalue in Hspec.
    destruct Hspec as [(first & rest & Heq & Hc) Hall]. split.
    + destruct diffs as [|d diffs]; [done|]. injection Heq as <- <-.
      by exists d, diffs.
    + intros ty. destruct (Hall ty) as (Hlen & Hperm & Hsorted).
      split; [|done]. rewrite Hlen. clear.
      induction diffs as [|d diffs IH]; simpl; [done|]. by rewrite IH.
Qed.

(** C3, as stated, fails: the function merges into the first dictionary
    in place.  On a list that holds one dictionary of one entry three
    times, the second round appends the list to itself and the third does
    so again: the output has four entries, the inputs have three. *)
Lemma merge_of_a_repeated_dict_adds_entries :
  match Objects.merge_and_sort_diffs
          [Scenario.first_diff; Scenario.first_diff; Scenario.first_diff]
          Scenario.one_entry with
  | inr (result, _) =>
      result = [("node", [Sample.entry 10 1; Sample.entry 10 1;
                          Sample.entry 10 1; Sample.entry 10 1])]
  | inl _ => False
  end
  ∧ sum_list_with
      (fun d => length (default [] (Objects.value Scenario.one_entry d !! "node")))
      [Scenario.first_diff; Scenario.first_diff; Scenario.first_diff]
    = 3%nat.
Proof. split; by vm_compute. Qed.

Lemma merge_keeps_every_entry_witness :
  Forall Objects.is_dict [Scenario.first_diff; Scenario.second_diff]
  ∧ Objects.unshared [Scenario.first_diff; Scenario.second_diff]
  ∧ match Objects.merge_and_sort_diffs
            [Scenario.first_diff; Scenario.second_diff] Scenario.lists with
    | inr (result, _) =>
        length (default [] (Objects.as_map result !! "node")) = 3%nat
    | inl _ => False
    end.
Proof.
  assert (Forall Objects.is_dict [Scenario.first_diff; Scenario.second_diff])
    as Hdicts.
  { repeat constructor; by intros ?%elem_of_nil. }
  assert (Objects.unshared [Scenario.first_diff; Scenario.second_diff]) as Hown.
  { split; [repeat constructor; by intros ?%elem_of_nil|].
    repeat constructor. intros l ->%list_elem_of_singleton ?%list_elem_of_singleton.
    done. }
  split; [exact Hdicts|]. split; [exact Hown|].
  pose proof (merge_keeps_every_entry _ Scenario.lists Hdicts Hown) as Hspec.
  destruct (Objects.merge_and_sort_diffs _ _) as [e|[result σ']] eqn:Hrun.
  - by vm_compute in Hrun.
  - destruct Hspec as [_ Hall]. destruct (Hall "node") as [-> _]. by vm_compute.
Defined.

(** X1.  On a list whose dictionaries have each key once and whose first
    dictionary has lists of its own, the list that [merge_and_sort_diffs]
    returns for an element type is the only arrangement of the entries
    of the inputs that is newest first and keeps the entries of one
    timestamp in the order of the inputs: whatever stable sort computes
    it, the result is this one. *)
Theorem merge_output_is_the_stable_arrangement diffs σ result σ' ty l l' :
  Forall Objects.is_dict diffs → Objects.unshared diffs →
  Objects.merge_and_sort_diffs diffs σ = inr (result, σ') →
  (ty, l) ∈ result →
  StronglySorted not_older l' →
  (∀ t, filter (fun e => timestamp e = t) l'
        = filter (fun e => timestamp e = t)
            (entries_of ty (map (Objects.value σ) diffs))) →
  l' = l.
Proof.
  intros Hdicts Hown Hrun Hin Hsorted Hstable.
  pose proof (merge_in_place_by_value diffs σ Hdicts Hown) as Hvalue.
  rewrite Hrun in Hvalue. destruct Hvalue as [Hvalue Hkeys].
  eapply stable_arrangement_by_value; [exact Hvalue| |exact Hsorted|exact Hstable].
  apply as_map_lookup; [|done]. rewrite Hkeys.
  destruct diffs as [|first rest]; [constructor|].
  by apply Forall_cons in Hdicts as [? _].
Qed.

Lemma merge_output_is_the_stable_arrangement_witness :
  Forall Objects.is_dict [Scenario.first_diff; Scenario.second_diff]
  ∧ Objects.unshared [Scenario.first_diff; Scenario.second_diff]
  ∧ StronglySorted not_older
      [Sample.entry 30 2; Sample.entry 20 3; Sample.entry 10 1]
  ∧ match Objects.merge_and_sort_diffs
            [Scenario.first_diff; Scenario.second_diff] Scenario.lists with
    | inr (result, _) =>
        ∀ l, ("node", l) ∈ result →
             [Sample.entry 30 2; Sample.entry 20 3; Sample.entry 10 1] = l
    | inl _ => False
    end.
Proof.
  assert (Forall Objects.is_dict [Scenario.first_diff; Scenario.second_diff])
    as Hdicts.
  { repeat constructor; by intros ?%elem_of_nil. }
  assert (Objects.unshared [Scenario.first_diff; Scenario.second_diff]) as Hown.
  { split; [repeat constructor; by intros ?%elem_of_nil|].
    repeat constructor. intros l ->%list_elem_of_singleton ?%list_elem_of_singleton.
    done. }
  assert (StronglySorted not_older
            [Sample.entry 30 2; Sample.entry 20 3; Sample.entry 10 1]) as Hsorted.
  { repeat constructor; unfold not_older; simpl; lia. }
  split; [exact Hdicts|]. split; [exact Hown|]. split; [exact Hsorted|].
  destruct (Objects.merge_and_sort_diffs _ _) as [e|[result σ']] eqn:Hrun.
  - by vm_compute in Hrun.
  - intros l Hl.
    apply (merge_output_is_the_stable_arrangement _ _ _ _ "node" _ _
             Hdicts Hown Hrun Hl Hsorted).
    intros t. vm_compute entries_of.
    rewrite !filter_cons, !filter_nil. simpl.
    destruct (decide (30 = t)), (decide (20 = t)), (decide (10 = t));
      first [lia | reflexivity].
Defined.

(** ** Tokens by their spelling *)

Lemma chars_app a b :
  list_ascii_of_string (a ++ b)
  = (list_ascii_of_string a ++ list_ascii_of_string b)%list.
Proof.
  induction a as [|c a IH]; [by rewrite ?append_nil|].
  rewrite ?append_cons. simpl. by rewrite IH.
Qed.

Lemma spelled_with_app codes a b :
  spelled_with codes (a ++ b) ↔ spelled_with codes a ∧ spelled_with codes b.
Proof. unfold spelled_with. by rewrite chars_app, Forall_app. Qed.

Lemma spelled_with_cons codes c s :
  spelled_with codes (String c s) ↔ N_of_ascii c ∈ codes ∧ spelled_with codes s.
Proof. unfold spelled_with. simpl. by rewrite Forall_cons. Qed.

Lemma spelled_with_nil codes : spelled_with codes "".
Proof. constructor. Qed.

Lemma elem_of_codes (n : N) codes :
  n ∈ codes ↔ existsb (N.eqb n) codes = true.
Proof.
  rewrite existsb_exists. split.
  - intros Hin. exists n. split; [by apply list_elem_of_In | apply N.eqb_refl].
  - intros (m & Hin & ->%N.eqb_eq). by apply list_elem_of_In.
Qed.

Lemma class_of_computed p codes :
  (∀ c, p c = existsb (N.eqb (N_of_ascii c)) codes) → class_of p codes.
Proof. intros H c. by rewrite elem_of_codes, H. Qed.

Lemma isspace_class : class_of PyStr.isspace_char blank_codes.
Proof.
  apply class_of_computed.
  intros c. destruct c as [[] [] [] [] [] [] [] []]; by vm_compute.
Qed.

Lemma isnumeric_class : class_of PyStr.isnumeric_char numeric_codes.
Proof.
  apply class_of_computed.
  intros c. destruct c as [[] [] [] [] [] [] [] []]; by vm_compute.
Qed.

Lemma separator_class :
  class_of (fun c => PyStr.mem_char c ":;.,") separator_codes.
Proof.
  apply class_of_computed.
  intros c. destruct c as [[] [] [] [] [] [] [] []]; by vm_compute.
Qed.

Lemma minus_class : class_of (fun c => PyStr.mem_char c "-") [minus_code].
Proof.
  apply class_of_computed.
  intros c. destruct c as [[] [] [] [] [] [] [] []]; by vm_compute.
Qed.

Lemma plus_class : class_of (fun c => PyStr.mem_char c "+") [plus_code].
Proof.
  apply class_of_computed.
  intros c. destruct c as [[] [] [] [] [] [] [] []]; by vm_compute.
Qed.

Lemma all_chars_class p codes s :
  class_of p codes → PyStr.all_chars p s = true ↔ spelled_with codes s.
Proof.
  intros Hclass. induction s as [|c s IH]; simpl.
  { split; [intros _; constructor | done]. }
  rewrite andb_true_iff, spelled_with_cons, IH, (Hclass c). done.
Qed.

(** *** What [lstrip] and [rstrip] drop *)

Lemma lstrip_by_split p s :
  ∃ pre, s = pre ++ PyStr.lstrip_by p s ∧ PyStr.all_chars p pre = true.
Proof.
  induction s as [|c s (pre & Hs & Hpre)]; simpl.
  { by exists "". }
  destruct (p c) eqn:Hc.
  - exists (String c pre). rewrite ?append_cons, <- ?Hs. simpl. by rewrite Hc.
  - by exists "".
Qed.

Lemma lstrip_by_app p pre s :
  PyStr.all_chars p pre = true →
  PyStr.lstrip_by p (pre ++ s) = PyStr.lstrip_by p s.
Proof.
  induction pre as [|c pre IH]; simpl; [by rewrite ?append_nil|].
  intros [Hc Hpre]%andb_true_iff. rewrite ?append_cons. simpl.
  rewrite Hc. by apply IH.
Qed.

Lemma rstrip_by_all p s :
  PyStr.all_chars p s = true → PyStr.rstrip_by p s = "".
Proof.
  induction s as [|c s IH]; simpl; [done|].
  intros [Hc Hs]%andb_true_iff. by rewrite IH, Hc.
Qed.

Lemma rstrip_by_app p s post :
  PyStr.all_chars p post = true →
  PyStr.rstrip_by p (s ++ post) = PyStr.rstrip_by p s.
Proof.
  intros Hpost. induction s as [|c s IH].
  { rewrite ?append_nil. by apply rstrip_by_all. }
  rewrite ?append_cons. simpl. by rewrite IH.
Qed.

Lemma rstrip_by_split p s :
  ∃ post, s = PyStr.rstrip_by p s ++ post ∧ PyStr.all_chars p post = true.
Proof.
  induction s as [|c s (post & Hs & Hpost)]; simpl.
  { by exists "". }
  destruct (PyStr.rstrip_by p s) as [|d r] eqn:Hr.
  - rewrite ?append_nil in Hs. subst post. destruct (p c) eqn:Hc.
    + exists (String c s). rewrite ?append_nil. simpl. by rewrite Hc.
    + exists s. by rewrite ?append_cons, append_nil.
  - exists post. split; [|done]. change (String c s = String c (String d r ++ post)).
    by rewrite <- Hs.
Qed.

(** A string whose last character is not dropped. *)
Lemma rstrip_by_fixed p s c :
  p c = false → PyStr.rstrip_by p (s ++ String c "") = s ++ String c "".
Proof.
  intros Hc. induction s as [|d s IH].
  { rewrite ?append_nil. simpl. by rewrite Hc. }
  rewrite ?append_cons. simpl. rewrite IH.
  destruct s; [by rewrite ?append_nil | by rewrite ?append_cons].
Qed.

Lemma string_last s :
  s ≠ "" → ∃ s' c, s = s' ++ String c "".
Proof.
  induction s as [|d s IH]; [done|]. intros _.
  destruct s as [|e s].
  - by exists "", d.
  - destruct IH as (s' & c & ->); [done|]. exists (String d s'), c.
    by rewrite ?append_cons.
Qed.

Lemma string_app_assoc (a b c : string) : a ++ b ++ c = (a ++ b) ++ c.
Proof.
  induction a as [|x a IH]; [by rewrite ?append_nil|].
  by rewrite ?append_cons, IH.
Qed.

Lemma string_app_nil_r (a : string) : a ++ "" = a.
Proof. induction a as [|x a IH]; [done|]. by rewrite ?append_cons, IH. Qed.

(** *** Lower case *)

Lemma lower_app a b : PyStr.lower (a ++ b) = PyStr.lower a ++ PyStr.lower b.
Proof.
  induction a as [|c a IH]; [by rewrite ?append_nil|].
  simpl. by rewrite ?append_cons, <- IH.
Qed.

Lemma lower_app_inv s a b :
  PyStr.lower s = a ++ b →
  ∃ sa sb, s = sa ++ sb ∧ PyStr.lower sa = a ∧ PyStr.lower sb = b.
Proof.
  revert s. induction a as [|c a IH]; intros s.
  { rewrite ?append_nil. intros <-. by exists "", s. }
  rewrite ?append_cons. destruct s as [|d s]; [done|]. simpl.
  intros [= Hd (sa & sb & -> & Ha & Hb)%IH].
  exists (String d sa), sb. rewrite ?append_cons. simpl. by rewrite Hd, Ha.
Qed.

Lemma lower_char_plain c : plain c = true → PyStr.lower_char c = c.
Proof. destruct c as [[] [] [] [] [] [] [] []]; by vm_compute. Qed.

Lemma lower_char_plain_inv d c :
  PyStr.lower_char d = c → plain c = true → d = c.
Proof. intros <-. destruct d as [[] [] [] [] [] [] [] []]; by vm_compute. Qed.

Lemma lower_plain s : PyStr.all_chars plain s = true → PyStr.lower s = s.
Proof.
  induction s as [|c s IH]; simpl; [done|].
  intros [Hc Hs]%andb_true_iff. by rewrite lower_char_plain, IH.
Qed.

Lemma lower_plain_inv s t :
  PyStr.lower s = t → PyStr.all_chars plain t = true → s = t.
Proof.
  revert t. induction s as [|d s IH]; intros [|c t]; simpl; try done.
  intros [= Hd Hs] [Hc Ht]%andb_true_iff.
  f_equal; [by apply lower_char_plain_inv | by apply IH].
Qed.

(** The characters of the classes of a token are plain. *)
Lemma plain_codes codes s :
  forallb (fun n => plain (ascii_of_N n) && (n <? 256)%N) codes = true →
  spelled_with codes s → PyStr.all_chars plain s = true.
Proof.
  intros Hcodes. rewrite forallb_forall in Hcodes.
  induction s as [|c s IH]; simpl; [done|].
  intros [Hc Hs]%spelled_with_cons. rewrite IH by done.
  apply list_elem_of_In, Hcodes in Hc.
  apply andb_true_iff in Hc as [Hc _]. rewrite ascii_N_embedding in Hc.
  by rewrite Hc.
Qed.

(** *** The word of the element type *)

Lemma lower_char_spells w c :
  small w = true → PyStr.lower_char c = w ↔
  (N_of_ascii c = N_of_ascii w ∨ (N_of_ascii c + 32)%N = N_of_ascii w).
Proof.
  intros Hw. split.
  - intros <-. revert Hw.
    destruct c as [[] [] [] [] [] [] [] []]; vm_compute; intros; first [by left | by right | done].
  - intros [Heq|Heq].
    + assert (c = w) as ->.
      { by rewrite <- (ascii_N_embedding c), Heq, ascii_N_embedding. }
      revert Hw. destruct w as [[] [] [] [] [] [] [] []]; by vm_compute.
    + rewrite <- (ascii_N_embedding w), <- Heq. revert Hw.
      rewrite <- (ascii_N_embedding w), <- Heq.
      destruct c as [[] [] [] [] [] [] [] []]; by vm_compute.
Qed.

Lemma lower_spells word letters :
  PyStr.all_chars small word = true →
  PyStr.lower letters = word ↔ spells word letters.
Proof.
  unfold spells. revert letters.
  induction word as [|w word IH]; intros [|c letters]; simpl.
  - intros _. split; [constructor | done].
  - intros _. split; [done | by intros ?%Forall2_nil_cons_inv].
  - intros _. split; [done | by intros ?%Forall2_cons_nil_inv].
  - intros [Hw Hword]%andb_true_iff. rewrite Forall2_cons, <- IH by done.
    rewrite <- lower_char_spells by done. split.
    + by intros [= -> ->].
    + by intros [-> ->].
Qed.

Lemma type_words_prefixes ty word :
  (ty, word) ∈ type_words ↔ ∃ value, (ty, value) ∈ prefixes ∧ word ∈ value.
Proof.
  split.
  - intros Hin. unfold type_words in Hin.
    repeat (apply elem_of_cons in Hin as [[= -> ->]|Hin];
            [eexists; split; [unfold prefixes; eauto 10 using list_elem_of_here, list_elem_of_further
                             | eauto 10 using list_elem_of_here, list_elem_of_further]|]).
    by apply elem_of_nil in Hin.
  - intros (value & Hty & Hword). unfold prefixes in Hty.
    repeat (apply elem_of_cons in Hty as [[= -> ->]|Hty]; [|]);
      try (by apply elem_of_nil in Hty).
    all: repeat (apply elem_of_cons in Hword as [->|Hword]);
      try (by apply elem_of_nil in Hword).
    all: unfold type_words; eauto 12 using list_elem_of_here, list_elem_of_further.
Qed.

Lemma type_words_small ty word :
  (ty, word) ∈ type_words →
  PyStr.all_chars small word = true ∧ ∃ c word', word = String c word'.
Proof.
  intros Hin. unfold type_words in Hin.
  repeat (apply elem_of_cons in Hin as [[= -> ->]|Hin];
          [split; [by vm_compute | eauto]|]).
  by apply elem_of_nil in Hin.
Qed.

(** *** A token by its spelling, and what the code makes of it *)

Lemma lstrip_by_run p pre s :
  PyStr.all_chars p pre = true → headed p s →
  PyStr.lstrip_by p (pre ++ s) = s.
Proof. intros Hpre Hs. rewrite lstrip_by_app by done. by apply lstrip_fixed. Qed.

Lemma headed_app p a c b :
  PyStr.all_chars (fun x => negb (p x)) a = true → p c = false →
  headed p (a ++ String c b).
Proof.
  destruct a as [|x a]; [done|]. simpl.
  intros [Hx _]%andb_true_iff _. by apply negb_true_iff.
Qed.

(** Two classes of characters with no code in common. *)
Lemma class_apart p codes q codes' s :
  class_of p codes → class_of q codes' →
  forallb (fun n => negb (existsb (N.eqb n) codes)) codes' = true →
  PyStr.all_chars q s = true →
  PyStr.all_chars (fun x => negb (p x)) s = true.
Proof.
  intros Hp Hq Hapart. rewrite forallb_forall in Hapart.
  induction s as [|c s IH]; simpl; [done|].
  intros [Hc Hs]%andb_true_iff. rewrite IH by done.
  apply Hq, list_elem_of_In, Hapart in Hc.
  destruct (p c) eqn:Hpc; [|done].
  apply Hp, elem_of_codes in Hpc. by rewrite Hpc in Hc.
Qed.

Lemma class_apart_char p codes q codes' c :
  class_of p codes → class_of q codes' →
  forallb (fun n => negb (existsb (N.eqb n) codes)) codes' = true →
  q c = true → p c = false.
Proof.
  intros Hp Hq Hapart Hc.
  pose proof (class_apart p codes q codes' (String c "") Hp Hq Hapart) as H.
  simpl in H. rewrite Hc in H. specialize (H eq_refl).
  apply andb_true_iff in H as [H _]. by apply negb_true_iff.
Qed.

(** A letter is no white space and no sign. *)
Lemma letter_apart c :
  small (PyStr.lower_char c) = true →
  PyStr.isspace_char c = false ∧ PyStr.mem_char c "-" = false
  ∧ PyStr.mem_char c "+" = false ∧ Ascii.eqb c "-" = false.
Proof. destruct c as [[] [] [] [] [] [] [] []]; by vm_compute. Qed.

Lemma isnumeric_spelled id :
  PyStr.isnumeric id = true ↔ id ≠ "" ∧ spelled_with numeric_codes id.
Proof.
  destruct id as [|c id].
  { split; [done | by intros [? _]]. }
  unfold PyStr.isnumeric. rewrite (all_chars_class _ _ _ isnumeric_class).
  naive_solver.
Qed.

(** [strip] of a string between white space. *)
Lemma strip_core pad1 core z pad4 :
  PyStr.all_chars PyStr.isspace_char pad1 = true →
  PyStr.all_chars PyStr.isspace_char pad4 = true →
  headed PyStr.isspace_char (core ++ String z "") →
  PyStr.isspace_char z = false →
  PyStr.strip (pad1 ++ (core ++ String z "") ++ pad4) = core ++ String z "".
Proof.
  intros Hpad1 Hpad4 Hhead Hz. unfold PyStr.strip.
  rewrite lstrip_by_app by done.
  rewrite lstrip_fixed.
  - rewrite rstrip_by_app by done. by apply rstrip_by_fixed.
  - destruct (core ++ String z "") as [|c r] eqn:Hcore; [|by rewrite append_cons].
    destruct core; by rewrite ?append_nil, ?append_cons in Hcore.
Qed.

(** The body of a token, from the word on, and what lines 52-57 make of
    it. *)
Lemma body_id seps pad3 id :
  spelled_with separator_codes seps → spelled_with blank_codes pad3 →
  id ≠ "" → spelled_with numeric_codes id →
  PyStr.lstrip (PyStr.lstrip_chars ":;.," (seps ++ pad3 ++ id)) = id.
Proof.
  intros Hseps Hpad3 Hid0 Hid.
  destruct id as [|y id']; [done|].
  apply spelled_with_cons in Hid as [Hy Hid'].
  apply isnumeric_class in Hy.
  apply (all_chars_class _ _ _ separator_class) in Hseps.
  apply (all_chars_class _ _ _ isspace_class) in Hpad3.
  unfold PyStr.lstrip_chars, PyStr.lstrip.
  rewrite lstrip_by_run; [|done|].
  - apply lstrip_by_run; [done|]. simpl.
    by apply (class_apart_char _ _ _ _ _ isspace_class isnumeric_class).
  - apply headed_app.
    + by apply (class_apart _ _ _ _ _ separator_class isspace_class).
    + by apply (class_apart_char _ _ _ _ _ separator_class isnumeric_class).
Qed.

(** Both sides are the same run of strings. *)
Ltac same_run :=
  rewrite <- ?string_app_assoc, ?append_cons, ?append_nil; reflexivity.

Lemma all_chars_app p a b :
  PyStr.all_chars p (a ++ b) = PyStr.all_chars p a && PyStr.all_chars p b.
Proof.
  induction a as [|c a IH]; [by rewrite append_nil|].
  rewrite append_cons. simpl. by rewrite IH, andb_assoc.
Qed.

Lemma startswith_minus r : PyStr.startswith (String "-" r) "-" = true.
Proof. simpl. by destruct r. Qed.

Lemma startswith_plus r : PyStr.startswith (String "+" r) "-" = false.
Proof. done. Qed.

Lemma token_denotes_denotes tok sign ty id :
  token_denotes tok sign ty id → denotes tok sign ty id.
Proof.
  intros (pad1 & marks & pad2 & letters & seps & pad3 & pad4 & word & ->
          & Hpad1 & Hpad2 & Hpad3 & Hpad4 & Hsign & Hword & Hspell & Hseps
          & Hid0 & Hid).
  destruct (type_words_small ty word Hword) as (Hsmall & w & word' & ->).
  apply (lower_spells _ _ Hsmall) in Hspell.
  destruct letters as [|c letters']; [done|]. simpl in Hspell.
  injection Hspell as Hc Hletters.
  simpl in Hsmall. apply andb_true_iff in Hsmall as [Hw Hsmall].
  destruct (letter_apart c) as (Hcspace & Hcminus & Hcplus & Hceq);
    [by rewrite Hc|].
  destruct (string_last id Hid0) as (id0 & z & Hlast).
  assert (PyStr.isspace_char z = false) as Hz.
  { rewrite Hlast in Hid. apply spelled_with_app in Hid as [_ Hz].
    apply spelled_with_cons in Hz as [Hz _].
    apply (class_apart_char _ _ _ _ _ isspace_class isnumeric_class); [done|].
    by apply isnumeric_class. }
  pose proof (body_id seps pad3 id Hseps Hpad3 Hid0 Hid) as Hbody.
  assert (PyStr.lower (seps ++ pad3 ++ id) = seps ++ pad3 ++ id) as Hrest.
  { apply lower_plain. apply (plain_codes (separator_codes ++ blank_codes
                                          ++ numeric_codes)); [done|].
    unfold spelled_with in *. rewrite !chars_app, !Forall_app.
    repeat split;
      (eapply Forall_impl; [eassumption|]; intros ? ?; set_solver). }
  assert (PyStr.isnumeric id = true) as Hnum by by apply isnumeric_spelled.
  apply (all_chars_class _ _ _ isspace_class) in Hpad1, Hpad2, Hpad4.
  destruct (type_words_prefixes ty (String w word')) as [(value & Hty & Hin) _];
    [done|].
  assert (PyStr.lower (String c letters' ++ seps ++ pad3 ++ id)
          = String w word' ++ seps ++ pad3 ++ id) as Hlower.
  { rewrite lower_app, Hrest. simpl. by rewrite Hc, Hletters. }
  assert (headed PyStr.isspace_char (String w word' ++ seps ++ pad3 ++ id))
    as Hwspace.
  { rewrite append_cons. simpl. by destruct (letter_apart w) as (? & _);
      [rewrite <- Hc, lower_char_idem, Hc|]. }
  unfold denotes. cbv zeta.
  destruct marks as [|m marks'].
  - (* no sign: the white space before the word is dropped with the rest *)
    destruct Hsign as [(_ & ? & _)|[-> _]]; [done|].
    assert (pad1 ++ "" ++ pad2 ++ String c letters' ++ seps ++ pad3 ++ id ++ pad4
            = (pad1 ++ pad2)
              ++ ((String c letters' ++ seps ++ pad3 ++ id0) ++ String z "")
              ++ pad4) as -> by (rewrite Hlast; same_run).
    rewrite strip_core; [|by rewrite all_chars_app, Hpad1, Hpad2|done
                         |by rewrite <- string_app_assoc, append_cons|done].
    assert ((String c letters' ++ seps ++ pad3 ++ id0) ++ String z ""
            = String c letters' ++ seps ++ pad3 ++ id) as ->
      by (rewrite Hlast; same_run).
    rewrite Hlower.
    assert (PyStr.startswith (String w word' ++ seps ++ pad3 ++ id) "-" = false)
      as ->.
    { rewrite append_cons. simpl. destruct (letter_apart w) as (_ & _ & _ & ->);
        [by rewrite <- Hc, lower_char_idem, Hc | done]. }
    unfold PyStr.lstrip_chars, PyStr.lstrip in Hbody |- *.
    rewrite (lstrip_fixed (fun c => PyStr.mem_char c "+")); cycle 1.
    { rewrite append_cons. simpl. by destruct (letter_apart w) as (_ & _ & ? & _);
        [rewrite <- Hc, lower_char_idem, Hc|]. }
    rewrite lstrip_fixed by done.
    split; [done|]. split; [done|].
    exists value, (String w word'), (seps ++ pad3 ++ id). by rewrite Hbody.
  - (* a run of signs, then white space *)
    assert (pad1 ++ String m marks' ++ pad2 ++ String c letters' ++ seps ++ pad3
              ++ id ++ pad4
            = pad1
              ++ ((String m marks' ++ pad2 ++ String c letters' ++ seps ++ pad3
                   ++ id0) ++ String z "")
              ++ pad4) as -> by (rewrite Hlast; same_run).
    assert (PyStr.isspace_char m = false ∧ PyStr.all_chars plain (String m marks') = true
            ∧ ((sign = "exclude" ∧ m = "-"%char
                ∧ PyStr.all_chars (fun c => PyStr.mem_char c "-") (String m marks') = true)
               ∨ (sign = "include" ∧ m = "+"%char
                  ∧ PyStr.all_chars (fun c => PyStr.mem_char c "+") (String m marks') = true)))
      as (Hmspace & Hmplain & Hmarks).
    { destruct Hsign as [(-> & _ & Hmarks)|[-> Hmarks]].
      - pose proof Hmarks as [Hm _]%spelled_with_cons.
        apply list_elem_of_singleton in Hm.
        assert (m = "-"%char) as ->
          by (rewrite <- (ascii_N_embedding m), Hm; reflexivity).
        split; [done|]. split; [by apply (plain_codes [minus_code])|].
        left. repeat split. by apply (all_chars_class _ _ _ minus_class).
      - pose proof Hmarks as [Hm _]%spelled_with_cons.
        apply list_elem_of_singleton in Hm.
        assert (m = "+"%char) as ->
          by (rewrite <- (ascii_N_embedding m), Hm; reflexivity).
        split; [done|]. split; [by apply (plain_codes [plus_code])|].
        right. repeat split. by apply (all_chars_class _ _ _ plus_class). }
    rewrite strip_core; [|done|done|by rewrite <- string_app_assoc, append_cons|done].
    assert ((String m marks' ++ pad2 ++ String c letters' ++ seps ++ pad3 ++ id0)
              ++ String z ""
            = String m marks' ++ pad2 ++ String c letters' ++ seps ++ pad3 ++ id)
      as -> by (rewrite Hlast; same_run).
    rewrite (lower_app (String m marks')), (lower_app pad2), Hlower.
    rewrite (lower_plain (String m marks')) by done.
    rewrite (lower_plain pad2); cycle 1.
    { apply (plain_codes blank_codes); [done|].
      by apply (all_chars_class _ _ _ isspace_class). }
    assert (∀ p, p w = false →
              PyStr.all_chars (fun x => negb (p x)) pad2 = true →
              headed p (pad2 ++ String w word' ++ seps ++ pad3 ++ id)) as Hhead.
    { intros p Hpw Hpad. rewrite append_cons. by apply headed_app. }
    destruct (letter_apart w) as (Hwspace' & Hwminus & Hwplus & _);
      [by rewrite <- Hc, lower_char_idem, Hc|].
    unfold PyStr.lstrip_chars, PyStr.lstrip in Hbody |- *.
    destruct Hmarks as [(-> & -> & Hall)|(-> & -> & Hall)].
    + rewrite append_cons, startswith_minus, <- append_cons.
      rewrite lstrip_by_run; [|done|]; cycle 1.
      { apply Hhead; [done|].
        by apply (class_apart _ _ _ _ _ minus_class isspace_class). }
      rewrite lstrip_by_run by done.
      split; [done|]. split; [done|].
      exists value, (String w word'), (seps ++ pad3 ++ id). by rewrite Hbody.
    + rewrite append_cons, startswith_plus, <- append_cons.
      rewrite lstrip_by_run; [|done|]; cycle 1.
      { apply Hhead; [done|].
        by apply (class_apart _ _ _ _ _ plus_class isspace_class). }
      rewrite lstrip_by_run by done.
      split; [done|]. split; [done|].
      exists value, (String w word'), (seps ++ pad3 ++ id). by rewrite Hbody.
Qed.

Lemma prefixes_small ty value prefix :
  (ty, value) ∈ prefixes → prefix ∈ value →
  (ty, prefix) ∈ type_words ∧ PyStr.all_chars small prefix = true.
Proof.
  intros Hty Hp.
  assert ((ty, prefix) ∈ type_words) as Hword
    by (apply type_words_prefixes; eauto).
  split; [done|]. by destruct (type_words_small _ _ Hword).
Qed.

Lemma denotes_token_denotes tok sign ty id :
  denotes tok sign ty id → token_denotes tok sign ty id.
Proof.
  unfold denotes. cbv zeta.
  intros (Hsign & Hnum & value & prefix & rest & Hty & Hp & Hbody & Hid).
  destruct (prefixes_small ty value prefix Hty Hp) as [Hword Hsmall].
  (* the token around what [strip] keeps *)
  destruct (lstrip_by_split PyStr.isspace_char tok) as (pad1 & Htok & Hpad1).
  destruct (rstrip_by_split PyStr.isspace_char
              (PyStr.lstrip_by PyStr.isspace_char tok)) as (pad4 & Hmid & Hpad4).
  fold (PyStr.strip tok) in Hmid.
  (* what lines 42-52 drop *)
  set (t := PyStr.lower (PyStr.strip tok)) in *.
  set (sign_chars := if PyStr.startswith t "-" then "-" else "+") in *.
  destruct (lstrip_by_split (fun c => PyStr.mem_char c sign_chars) t)
    as (marks & Ht & Hmarks).
  fold (PyStr.lstrip_chars sign_chars t) in Ht.
  destruct (lstrip_by_split PyStr.isspace_char (PyStr.lstrip_chars sign_chars t))
    as (pad2 & Ht1 & Hpad2).
  fold (PyStr.lstrip (PyStr.lstrip_chars sign_chars t)) in Ht1.
  rewrite Hbody in Ht1.
  destruct (lstrip_by_split (fun c => PyStr.mem_char c ":;.,") rest)
    as (seps & Hrest & Hseps).
  fold (PyStr.lstrip_chars ":;.," rest) in Hrest.
  destruct (lstrip_by_split PyStr.isspace_char (PyStr.lstrip_chars ":;.," rest))
    as (pad3 & Hrest1 & Hpad3).
  fold (PyStr.lstrip (PyStr.lstrip_chars ":;.," rest)) in Hrest1.
  rewrite <- Hid in Hrest1.
  assert (t = marks ++ pad2 ++ prefix ++ seps ++ pad3 ++ id) as Hlow.
  { rewrite Ht at 1. rewrite Ht1, Hrest at 1. by rewrite Hrest1 at 1. }
  (* the same pieces before [lower] *)
  unfold t in Hlow.
  apply lower_app_inv in Hlow as (marks0 & s1 & Hs & Hmarks0 & Hlow).
  apply lower_app_inv in Hlow as (pad20 & s2 & -> & Hpad20 & Hlow).
  apply lower_app_inv in Hlow as (letters & s3 & -> & Hletters & Hlow).
  apply lower_app_inv in Hlow as (seps0 & s4 & -> & Hseps0 & Hlow).
  apply lower_app_inv in Hlow as (pad30 & id0 & -> & Hpad30 & Hid0).
  apply isnumeric_spelled in Hnum as [Hnonempty Hnumeric].
  apply (all_chars_class _ _ _ isspace_class) in Hpad1, Hpad2, Hpad3, Hpad4.
  apply (all_chars_class _ _ _ separator_class) in Hseps.
  assert (spelled_with [if PyStr.startswith t "-" then minus_code else plus_code]
            marks) as Hmarks'.
  { unfold sign_chars in Hmarks. destruct (PyStr.startswith t "-").
    - by apply (all_chars_class _ _ _ minus_class).
    - by apply (all_chars_class _ _ _ plus_class). }
  apply lower_plain_inv in Hmarks0; cycle 1.
  { apply (plain_codes [minus_code; plus_code]); [done|].
    eapply Forall_impl; [exact Hmarks'|]. intros x Hx.
    destruct (PyStr.startswith t "-"); set_solver. }
  apply lower_plain_inv in Hpad20; [|by apply (plain_codes blank_codes)].
  apply lower_plain_inv in Hseps0; [|by apply (plain_codes separator_codes)].
  apply lower_plain_inv in Hpad30; [|by apply (plain_codes blank_codes)].
  apply lower_plain_inv in Hid0; [|by apply (plain_codes numeric_codes)].
  subst marks0 pad20 seps0 pad30 id0.
  apply (lower_spells _ _ Hsmall) in Hletters.
  exists pad1, marks, pad2, letters, seps, pad3, pad4, prefix.
  split.
  { rewrite Htok, Hmid, Hs. same_run. }
  repeat (split; [done|]). split; [|done].
  destruct (PyStr.startswith t "-") eqn:Hminus.
  - left. split; [done|]. split; [|done]. intros ->.
    rewrite append_nil in Ht. unfold sign_chars in Ht.
    pose proof (lstrip_head (fun c => PyStr.mem_char c "-") t) as Hhead.
    unfold PyStr.lstrip_chars in Ht. rewrite <- Ht in Hhead.
    destruct t as [|c t']; [done|]. simpl in Hminus.
    apply andb_true_iff in Hminus as [->%Ascii.eqb_eq _]. done.
  - by right.
Qed.

(** What the code makes of a token is what its spelling says. *)
Lemma classify_spelling tok sign ty id :
  classify tok = inr (sign, ty, id) ↔ token_denotes tok sign ty id.
Proof.
  split.
  - by intros ?%classify_denotes%denotes_token_denotes.
  - by intros ?%token_denotes_denotes%denotes_classify.
Qed.

Lemma denotes_spelling tok sign ty id :
  denotes tok sign ty id ↔ token_denotes tok sign ty id.
Proof.
  split; [apply denotes_token_denotes | apply token_denotes_denotes].
Qed.

Example token_denotes_example :
  token_denotes " -Way: 5 " "exclude" "way" "5".
Proof.
  exists " ", "-", "", "Way", ":", " ", " ", "way".
  split; [done|]. unfold spelled_with, spells, type_words. simpl.
  repeat split; try done; repeat constructor; set_solver.
Qed.

(** C6 as the code has it.  [build_element_ids_dict] returns when every
    token is spelled as [token_denotes] has it: white space, minus signs for the excluded
    sets or plus signs, if any, for the included ones, a word of the
    element type in either case, separators, a numeric id, each part but
    the word and the id possibly empty.  The set it then holds for a
    target and a type has exactly the ids of the tokens spelled for them.
    Otherwise it raises at the first token that is not spelled so,
    whatever follows it. *)
Theorem build_element_ids_dict_parses toks :
  match build_element_ids_dict toks with
  | inr d =>
      (∀ tok, tok ∈ toks → ∃ sign ty id, token_denotes tok sign ty id)
      ∧ (∀ sign ty id, id ∈ ids_of d sign ty ↔
           ∃ tok, tok ∈ toks ∧ token_denotes tok sign ty id)
  | inl e =>
      ∃ pre tok post msg,
        toks = (pre ++ tok :: post)%list
        ∧ (∀ t, t ∈ pre → ∃ sign ty id, token_denotes t sign ty id)
        ∧ (∀ sign ty id, ¬ token_denotes tok sign ty id)
        ∧ e = Exception msg
        ∧ build_element_ids_dict (pre ++ [tok]) = inl e
  end.
Proof.
  pose proof (build_element_ids_dict_by_table toks) as H.
  destruct (build_element_ids_dict toks) as [e|d].
  - destruct H as (pre & tok & post & msg & -> & Hpre & Hbad & -> & Hrun).
    exists pre, tok, post, msg. split; [done|]. split.
    { intros t Ht. destruct (Hpre t Ht) as (sg & ty & id & Hd).
      exists sg, ty, id. by apply denotes_spelling. }
    split; [|done]. intros sg ty id Hd.
    apply (Hbad sg ty id). by apply denotes_spelling.
  - destruct H as [Hall Hmem]. split.
    + intros tok Htok. destruct (Hall tok Htok) as (sg & ty & id & Hd).
      exists sg, ty, id. by apply denotes_spelling.
    + intros sg ty id. rewrite Hmem. split.
      * intros (tok & Htok & Hd). exists tok. split; [done|].
        by apply denotes_spelling.
      * intros (tok & Htok & Hd). exists tok. split; [done|].
        by apply denotes_spelling.
Qed.

(** C6, as stated, fails: the tokens that the claim quotes are not parsed
    into an id set but refused, ["node"] and ["n"] for the lack of an id
    and ["-123"] for the lack of a word of the element type. *)
Lemma quoted_tokens_are_refused :
  build_element_ids_dict ["node"]
  = inl (Exception "Node element id must be numeric: ")
  ∧ build_element_ids_dict ["n"]
    = inl (Exception "Node element id must be numeric: ")
  ∧ build_element_ids_dict ["-123"]
    = inl (Exception "Unknown element filter format: 123").
Proof. repeat split; by vm_compute. Qed.

(** ** The properties on sample inputs *)

Lemma merge_of_merged_is_unchanged_witness :
  merge_and_sort_diffs
    [Sample.diff [Sample.entry 10 1; Sample.entry 30 2];
     Sample.diff [Sample.entry 20 3]]
  = inr (Sample.diff [Sample.entry 30 2; Sample.entry 20 3; Sample.entry 10 1])
  ∧ merge_and_sort_diffs
      [Sample.diff [Sample.entry 30 2; Sample.entry 20 3; Sample.entry 10 1]]
    = inr (Sample.diff [Sample.entry 30 2; Sample.entry 20 3; Sample.entry 10 1]).
Proof.
  assert (merge_and_sort_diffs
            [Sample.diff [Sample.entry 10 1; Sample.entry 30 2];
             Sample.diff [Sample.entry 20 3]]
          = inr (Sample.diff [Sample.entry 30 2; Sample.entry 20 3;
                              Sample.entry 10 1])) as Hmerge.
  { by vm_compute. }
  split; [exact Hmerge|]. exact (merge_of_merged_is_unchanged _ _ Hmerge).
Defined.

Lemma build_element_ids_dict_shape_witness :
  match build_element_ids_dict ["n1"; "-way:5"] with
  | inr d => dom d = {["include"; "exclude"]}
  | inl _ => False
  end.
Proof.
  destruct (build_element_ids_dict ["n1"; "-way:5"]) as [e|d] eqn:Hd.
  - by vm_compute in Hd.
  - exact (proj1 (build_element_ids_dict_shape _ d Hd)).
Defined.

Lemma build_element_ids_dict_ignores_case_witness :
  Forall2 (fun tok tok' => PyStr.lower (PyStr.strip tok') = PyStr.lower (PyStr.strip tok))
    [" N1 "; "-Way:5"] ["n1"; "-way:5"]
  ∧ build_element_ids_dict ["n1"; "-way:5"]
    = build_element_ids_dict [" N1 "; "-Way:5"].
Proof.
  assert (Forall2 (fun tok tok' =>
                     PyStr.lower (PyStr.strip tok') = PyStr.lower (PyStr.strip tok))
            [" N1 "; "-Way:5"] ["n1"; "-way:5"]) as Hsame.
  { repeat constructor; by vm_compute. }
  split; [exact Hsame|].
  exact (proj1 (build_element_ids_dict_ignores_case _ _ Hsame)).
Defined.

Lemma collaborator_exception_is_fatal_witness :
  @Call_get_changeset unit unit 123
    ∈ trace (main Scenario.env_unreachable (Sample.args [PInt 123] None))
  ∧ raised Scenario.env_unreachable (@Call_get_changeset unit unit 123)
    = Some (ServiceError "timeout")
  ∧ result (main Scenario.env_unreachable (Sample.args [PInt 123] None))
    = Raise (ServiceError "timeout").
Proof.
  assert (@Call_get_changeset unit unit 123
            ∈ trace (main Scenario.env_unreachable (Sample.args [PInt 123] None)))
    as Hin.
  { vm_compute. repeat constructor. }
  split; [exact Hin|]. split; [reflexivity|].
  exact (proj1 (collaborator_exception_is_fatal
                  Scenario.env_unreachable (Sample.args [PInt 123] None)
                  _ _ Hin eq_refl)).
Defined.

Lemma falsy_diff_ends_the_run_witness :
  @Call_get_changeset_elements_history unit unit (Sample.changeset 2) 2 ""
    ∈ trace (main Scenario.env_no_history (Sample.args [PInt 123] None))
  ∧ truthy_diff None = false
  ∧ snd (main_timer (main Scenario.env_no_history (Sample.args [PInt 123] None)))
    = -1.
Proof.
  assert (@Call_get_changeset_elements_history unit unit (Sample.changeset 2) 2 ""
            ∈ trace (main Scenario.env_no_history (Sample.args [PInt 123] None)))
    as Hin.
  { vm_compute. repeat constructor. }
  split; [exact Hin|]. split; [reflexivity|].
  exact (proj2 (proj2 (falsy_diff_ends_the_run
                         Scenario.env_no_history (Sample.args [PInt 123] None)
                         _ _ _ None Hin eq_refl eq_refl))).
Defined.

Lemma falsy_upload_id_ends_the_run_witness :
  @Call_upload_diff unit unit (Sample.inverted [tt]) "revert" Scenario.tags
    ∈ trace (main Scenario.env_refused (Sample.args [PInt 123] None))
  ∧ truthy_str None = false
  ∧ result (main Scenario.env_refused (Sample.args [PInt 123] None)) = Return (-1).
Proof.
  assert (@Call_upload_diff unit unit (Sample.inverted [tt]) "revert" Scenario.tags
            ∈ trace (main Scenario.env_refused (Sample.args [PInt 123] None)))
    as Hin.
  { vm_compute. repeat constructor. }
  split; [exact Hin|]. split; [reflexivity|].
  exact (proj1 (falsy_upload_id_ends_the_run
                  Scenario.env_refused (Sample.args [PInt 123] None)
                  _ _ _ None Hin eq_refl eq_refl)).
Defined.

Lemma work_only_within_limits_witness :
  @Call_get_changeset unit unit 123
    ∈ trace (main Sample.env_upload (Sample.args [PInt 123] None))
  ∧ (kind_of (@Call_get_changeset unit unit 123)
       ∉ [KPrint; KOsmApi; KAuthorizedUser])
  ∧ normalize_ids [PInt 123] ≠ [].
Proof.
  assert (@Call_get_changeset unit unit 123
            ∈ trace (main Sample.env_upload (Sample.args [PInt 123] None))) as Hin.
  { vm_compute. repeat constructor. }
  assert (kind_of (@Call_get_changeset unit unit 123)
            ∉ [KPrint; KOsmApi; KAuthorizedUser]) as Hkind.
  { simpl. intros H. by elem_inv H. }
  split; [exact Hin|]. split; [exact Hkind|].
  exact (proj1 (work_only_within_limits
                  Sample.env_upload (Sample.args [PInt 123] None) _ Hin Hkind)).
Defined.

Lemma get_user_only_for_newer_users_witness :
  @Call_get_user unit unit "7"
    ∈ trace (main Sample.env_upload (Sample.args [PInt 123] None))
  ∧ ∃ user changeset_id changeset,
      get_authorized_user Sample.env_upload = inr user
      ∧ changesets_count user < CHANGESETS_LIMIT_MODERATOR_REVERT Sample.env_upload
      ∧ is_osm_moderator Sample.env_upload (roles user) = false
      ∧ get_changeset Sample.env_upload changeset_id = inr changeset
      ∧ "7" = uid changeset.
Proof.
  assert (@Call_get_user unit unit "7"
            ∈ trace (main Sample.env_upload (Sample.args [PInt 123] None))) as Hin.
  { vm_compute. repeat constructor. }
  split; [exact Hin|].
  exact (get_user_only_for_newer_users
           Sample.env_upload (Sample.args [PInt 123] None) _ Hin).
Defined.

Lemma history_only_of_nonempty_changesets_witness :
  @Call_get_changeset_elements_history unit unit (Sample.changeset 2) 2 ""
    ∈ trace (main Sample.env_upload (Sample.args [PInt 123] None))
  ∧ changeset_size (Sample.changeset 2) ≠ 0.
Proof.
  assert (@Call_get_changeset_elements_history unit unit (Sample.changeset 2) 2 ""
            ∈ trace (main Sample.env_upload (Sample.args [PInt 123] None))) as Hin.
  { vm_compute. repeat constructor. }
  split; [exact Hin|].
  exact (proj1 (history_only_of_nonempty_changesets
                  Sample.env_upload (Sample.args [PInt 123] None) _ _ _ Hin)).
Defined.

Lemma written_file_is_the_change_document_witness :
  @Call_write_file unit unit "revert.osc" "<osmChange/>"
    ∈ trace (main Sample.env_upload
               (Scenario.args [PInt 123] None None (Some "revert.osc")))
  ∧ osc_file (Scenario.args [PInt 123] None None (Some "revert.osc"))
    = Some "revert.osc".
Proof.
  assert (@Call_write_file unit unit "revert.osc" "<osmChange/>"
            ∈ trace (main Sample.env_upload
                       (Scenario.args [PInt 123] None None (Some "revert.osc"))))
    as Hin.
  { vm_compute. repeat constructor. }
  split; [exact Hin|].
  exact (proj1 (written_file_is_the_change_document
                  Sample.env_upload
                  (Scenario.args [PInt 123] None None (Some "revert.osc"))
                  _ _ Hin)).
Defined.

Lemma upload_carries_the_reconciled_inversion_witness :
  @Call_upload_diff unit unit (Sample.inverted [tt]) "revert" Scenario.tags
    ∈ trace (main Sample.env_upload (Sample.args [PInt 123] None))
  ∧ "revert" = comment (Sample.args [PInt 123] None).
Proof.
  assert (@Call_upload_diff unit unit (Sample.inverted [tt]) "revert" Scenario.tags
            ∈ trace (main Sample.env_upload (Sample.args [PInt 123] None))) as Hin.
  { vm_compute. repeat constructor. }
  split; [exact Hin|].
  exact (proj1 (upload_carries_the_reconciled_inversion
                  Sample.env_upload (Sample.args [PInt 123] None) _ _ _ Hin)).
Defined.

Lemma unconvertible_id_stops_the_run_witness :
  Scenario.superscript_two ∈ normalize_ids [PStr Scenario.superscript_two]
  ∧ PyStr.isnumeric Scenario.superscript_two = true
  ∧ PyStr.int Scenario.superscript_two = inl ValueError
  ∧ result (main Sample.env_upload
              (Sample.args [PStr Scenario.superscript_two] None))
    ≠ Return 0.
Proof.
  assert (Scenario.superscript_two ∈ normalize_ids [PStr Scenario.superscript_two])
    as Hin.
  { vm_compute. repeat constructor. }
  split; [exact Hin|]. split; [reflexivity|]. split; [reflexivity|].
  exact (proj2 (unconvertible_id_stops_the_run
                  Sample.env_upload
                  (Sample.args [PStr Scenario.superscript_two] None)
                  _ ValueError Hin eq_refl)).
Defined.

Lemma comments_posted_witness :
  result (main Sample.env_upload (Sample.args [PInt 123] (Some " Please stop ")))
  = Return 0
  ∧ @Call_upload_diff unit unit (Sample.inverted [tt]) "revert" Scenario.tags
      ∈ trace (main Sample.env_upload (Sample.args [PInt 123] (Some " Please stop ")))
  ∧ ∃ targets ns,
      result (filter_discussion_changesets (Json:=unit) (Element:=unit)
                (normalize_ids [PInt 123]) (Some "all")) = Normal targets
      ∧ Forall2 (fun id n => PyStr.int id = inr n)
          (if 4 <=? Z.of_nat (String.length (PyStr.strip " Please stop "))
           then targets else []) ns
      ∧ List.filter is_discussion_call
          (trace (main Sample.env_upload
                    (Sample.args [PInt 123] (Some " Please stop "))))
        = map (fun n => @Call_post_discussion_comment unit unit n
                 (PyStr.strip " Please stop " ++ String "010" (String "010" "")
                  ++ "https://www.openstreetmap.org/changeset/"
                  ++ default "" (Some "4242")))
              ns.
Proof.
  assert (result (main Sample.env_upload
                    (Sample.args [PInt 123] (Some " Please stop "))) = Return 0)
    as Hres by (by vm_compute).
  assert (@Call_upload_diff unit unit (Sample.inverted [tt]) "revert" Scenario.tags
            ∈ trace (main Sample.env_upload
                       (Sample.args [PInt 123] (Some " Please stop ")))) as Hin.
  { vm_compute. repeat constructor. }
  split; [exact Hres|]. split; [exact Hin|].
  exact (comments_posted Sample.env_upload
           (Sample.args [PInt 123] (Some " Please stop "))
           _ _ _ (Some "4242") " Please stop " Hres Hin eq_refl eq_refl).
Defined.

Lemma unknown_target_posts_nothing_witness :
  @Call_upload_diff unit unit (Sample.inverted [tt]) "revert" Scenario.tags
    ∈ trace (main Sample.env_upload
               (Scenario.args [PInt 123] (Some "Please stop") None None))
  ∧ 4 <= Z.of_nat (String.length (PyStr.strip "Please stop"))
  ∧ (None ∉ [Some "all"; Some "newest"; Some "oldest"])
  ∧ result (main Sample.env_upload
              (Scenario.args [PInt 123] (Some "Please stop") None None))
    = Return 0.
Proof.
  assert (@Call_upload_diff unit unit (Sample.inverted [tt]) "revert" Scenario.tags
            ∈ trace (main Sample.env_upload
                       (Scenario.args [PInt 123] (Some "Please stop") None None)))
    as Hin.
  { vm_compute. repeat constructor. }
  assert (4 <= Z.of_nat (String.length (PyStr.strip "Please stop"))) as Hlong.
  { by vm_compute. }
  assert (None ∉ [Some "all"; Some "newest"; Some "oldest"]) as Htarget.
  { intros H. by elem_inv H. }
  split; [exact Hin|]. split; [exact Hlong|]. split; [exact Htarget|].
  exact (proj1 (unknown_target_posts_nothing
                  Sample.env_upload
                  (Scenario.args [PInt 123] (Some "Please stop") None None)
                  _ _ _ (Some "4242") "Please stop"
                  Hin eq_refl eq_refl eq_refl Hlong Htarget)).
Defined.

Lemma discussion_targets_by_string_order_witness :
  "9" ∈ normalize_ids [PInt 9; PInt 10]
  ∧ ∃ newest oldest,
      filter_discussion_changesets (Json:=unit) (Element:=unit)
        (normalize_ids [PInt 9; PInt 10]) (Some "newest") = ([], Normal [newest])
      ∧ filter_discussion_changesets (Json:=unit) (Element:=unit)
          (normalize_ids [PInt 9; PInt 10]) (Some "oldest") = ([], Normal [oldest])
      ∧ newest ∈ normalize_ids [PInt 9; PInt 10]
      ∧ oldest ∈ normalize_ids [PInt 9; PInt 10]
      ∧ ∀ s, s ∈ normalize_ids [PInt 9; PInt 10] →
          (s = newest ∨ str_lt s newest) ∧ (s = oldest ∨ str_lt oldest s).
Proof.
  assert ("9" ∈ normalize_ids [PInt 9; PInt 10]) as Hin.
  { vm_compute. repeat constructor. }
  split; [exact Hin|].
  exact (discussion_targets_by_string_order (Json:=unit) (Element:=unit)
           [PInt 9; PInt 10] "9" Hin).
Defined.

Lemma warnings_only_at_the_end_witness :
  ∃ pre post,
    trace (main Scenario.env_warning (Sample.args [PInt 123] (Some "")))
    = (pre ++ @Print unit unit (MsgVerify "node" "7") :: post)%list
    ∧ Forall (in_kinds [KPrint]) post.
Proof.
  assert (@Print unit unit (MsgVerify "node" "7")
            ∈ trace (main Scenario.env_warning (Sample.args [PInt 123] (Some ""))))
    as Hin.
  { vm_compute. repeat constructor. }
  apply list_elem_of_split in Hin as (pre & post & Htrace).
  exists pre, post. split; [exact Htrace|].
  exact (proj1 (warnings_only_at_the_end
                  Scenario.env_warning (Sample.args [PInt 123] (Some ""))
                  pre "node" "7" post Htrace)).
Defined.

Lemma login_credentials_witness :
  @Call_OsmApi unit unit (Some "mapper") (Some "secret") (Some (inl ""))
    ∈ trace (main Sample.env_upload (Scenario.args_token [PInt 123] (Some "")))
  ∧ (oauth_token (Scenario.args_token [PInt 123] (Some "")) = Some "" →
     @Some (string + unit) (inl "") = Some (inl "")).
Proof.
  assert (@Call_OsmApi unit unit (Some "mapper") (Some "secret") (Some (inl ""))
            ∈ trace (main Sample.env_upload
                       (Scenario.args_token [PInt 123] (Some "")))) as Hin.
  { vm_compute. repeat constructor. }
  split; [exact Hin|].
  exact (proj1 (proj2 (proj2 (proj2 (login_credentials
                                       Sample.env_upload
                                       (Scenario.args_token [PInt 123] (Some ""))
                                       _ _ _ Hin))))).
Defined.

Lemma inverted_is_the_merge_of_the_answers_witness :
  @Call_invert_diff unit unit ∅ (Sample.diff [Sample.entry 20 1; Sample.entry 10 1])
    ∈ trace (main Sample.env_upload (Sample.args [PInt 123] None))
  ∧ merge_and_sort_diffs
      (history_answers Sample.env_upload
         (trace (main Sample.env_upload (Sample.args [PInt 123] None))))
    = inr (Sample.diff [Sample.entry 20 1; Sample.entry 10 1]).
Proof.
  assert (@Call_invert_diff unit unit ∅
            (Sample.diff [Sample.entry 20 1; Sample.entry 10 1])
            ∈ trace (main Sample.env_upload (Sample.args [PInt 123] None))) as Hin.
  { vm_compute. repeat constructor. }
  split; [exact Hin|].
  exact (proj2 (inverted_is_the_merge_of_the_answers
                  Sample.env_upload (Sample.args [PInt 123] None) _ _ Hin)).
Defined.
